(** * adoc-reflow-min: the reflow core ([src/core.js]) in Rocq

    A shallow embedding of [reflowTextAdoc] and of the helpers it calls
    ([wrapText], [reflowParagraph], [collectListItem], [markerDepth] and the
    pattern table), followed by the properties the specification states
    about them.

    Strings are JavaScript strings: sequences of UTF-16 code units, here
    [list N].  Every [.length], [slice], [split] and regular-expression test
    of the source counts code units, so does the model.

    The scan is a fold over the lines with an explicit state (the output
    array, the paragraph buffer and the five flags).  The one loop of the
    core that may run forever, the hard split of a long token, runs on
    fuel, so the functions above it return an [option]. *)

From Stdlib Require Import String Ascii List NArith ZArith Lia Bool.
Import ListNotations.

Open Scope bool_scope.
Open Scope N_scope.

(** ** JavaScript strings *)

Module JS.

Abbreviation char := N (only parsing).
Abbreviation str := (list N) (only parsing).

(** An ASCII literal as a JavaScript string. *)
Definition lit (s : string) : str :=
  map N_of_ascii (list_ascii_of_string s).

Definition NL : char := 10.
Definition CR : char := 13.
Definition SP : char := 32.

(** [\s] of ECMAScript, which is also what [trim] strips: WhiteSpace and
    LineTerminator. *)
Definition is_space (c : char) : bool :=
  (c =? 9) || (c =? 10) || (c =? 11) || (c =? 12) || (c =? 13) || (c =? 32)
  || (c =? 160) || (c =? 5760) || ((8192 <=? c) && (c <=? 8202))
  || (c =? 8232) || (c =? 8233) || (c =? 8239) || (c =? 8287)
  || (c =? 12288) || (c =? 65279).

(** A string or an array used as a condition. *)
Definition nonempty {A : Type} (s : list A) : bool :=
  match s with [] => false | _ :: _ => true end.

Definition len (s : str) : Z := Z.of_nat (length s).

Fixpoint str_eqb (a b : str) : bool :=
  match a, b with
  | [], [] => true
  | x :: a', y :: b' => (x =? y) && str_eqb a' b'
  | _, _ => false
  end.

Fixpoint drop_space (s : str) : str :=
  match s with
  | [] => []
  | c :: s' => if is_space c then drop_space s' else s
  end.

(** [s.trim()] *)
Definition trim (s : str) : str :=
  rev (drop_space (rev (drop_space s))).

(** [xs.join(sep)] *)
Fixpoint join (sep : str) (xs : list str) : str :=
  match xs with
  | [] => []
  | [x] => x
  | x :: xs' => x ++ sep ++ join sep xs'
  end.

(** [s.split(sep)] for a one-character string [sep]: never empty. *)
Fixpoint split_char (sep : char) (s : str) : list str :=
  match s with
  | [] => [[]]
  | c :: s' =>
      let r := split_char sep s' in
      if c =? sep then [] :: r
      else match r with
           | h :: t => (c :: h) :: t
           | [] => [[c]]
           end
  end.

(** [s.split(/\s+/)]: a separator is a maximal run of white space. *)
Fixpoint split_ws (s : str) : list str :=
  match s with
  | [] => [[]]
  | c :: s' =>
      let r := split_ws s' in
      if is_space c then
        match s' with
        | c' :: _ => if is_space c' then r else [] :: r
        | [] => [] :: r
        end
      else match r with
           | h :: t => (c :: h) :: t
           | [] => [[c]]
           end
  end.

(** [s.split(/\s+/).filter(Boolean)] *)
Definition words (s : str) : list str := filter nonempty (split_ws s).

(** [s.replace(/\s+/g, " ")] *)
Fixpoint replace_ws (s : str) : str :=
  match s with
  | [] => []
  | c :: s' =>
      if is_space c then
        match s' with
        | c' :: _ => if is_space c' then replace_ws s' else SP :: replace_ws s'
        | [] => [SP]
        end
      else c :: replace_ws s'
  end.

(** [s.split(/\r?\n/)] *)
Fixpoint split_lines (s : str) : list str :=
  match s with
  | [] => [[]]
  | c :: s' =>
      let r := split_lines s' in
      if c =? NL then [] :: r
      else if (c =? CR) && (match s' with c' :: _ => c' =? NL | [] => false end)
      then r
      else match r with
           | h :: t => (c :: h) :: t
           | [] => [[c]]
           end
  end.

(** [/\r?\n$/.test(s)] *)
Definition ends_with_newline (s : str) : bool :=
  match rev s with
  | c :: _ => c =? NL
  | [] => false
  end.

(** Relative index of [slice]: a negative index counts from the end. *)
Definition rel_index (n : nat) (i : Z) : nat :=
  if (i <? 0)%Z then Z.to_nat (Z.max (Z.of_nat n + i) 0)
  else Nat.min (Z.to_nat i) n.

(** [s.slice(from, to)] and [s.slice(from)] *)
Definition slice (s : str) (from to : Z) : str :=
  let a := rel_index (length s) from in
  let b := rel_index (length s) to in
  firstn (b - a) (skipn a s).

Definition slice_from (s : str) (from : Z) : str :=
  skipn (rel_index (length s) from) s.

(** [" ".repeat(n)] *)
Definition spaces (n : nat) : str := repeat SP n.

End JS.

Import JS.

(** ** Regular expressions

    The patterns of the source are regular, except for one negative
    lookahead, which is an intersection with a complement once the pattern
    is anchored at the end.  A test is decided with Brzozowski derivatives;
    capture groups are read off with [greedy_split], the choice a
    backtracking matcher makes for a greedy quantifier. *)

Module Regex.

(** Character classes. *)
Inductive cset : Type :=
| CLit (c : char)               (* one character *)
| CRange (lo hi : char)         (* [lo-hi] *)
| CSpace                        (* \s *)
| CAny                          (* any code unit *)
| CUnion (a b : cset)
| CNeg (a : cset).              (* [^...], \S *)

Fixpoint mem (cs : cset) (c : char) : bool :=
  match cs with
  | CLit x => c =? x
  | CRange lo hi => (lo <=? c) && (c <=? hi)
  | CSpace => is_space c
  | CAny => true
  | CUnion a b => mem a c || mem b c
  | CNeg a => negb (mem a c)
  end.

Inductive re : Type :=
| Empty                         (* matches nothing *)
| Eps                           (* the empty string *)
| Chr (cs : cset)
| Seq (a b : re)
| Alt (a b : re)
| Star (a : re)
| And (a b : re)
| Not (a : re).

Fixpoint nullable (r : re) : bool :=
  match r with
  | Empty => false
  | Eps => true
  | Chr _ => false
  | Seq a b => nullable a && nullable b
  | Alt a b => nullable a || nullable b
  | Star _ => true
  | And a b => nullable a && nullable b
  | Not a => negb (nullable a)
  end.

(** Constructors that drop dead branches, to keep derivatives small. *)
Definition seq' (a b : re) : re :=
  match a with
  | Empty => Empty
  | Eps => b
  | _ => Seq a b
  end.

Definition alt' (a b : re) : re :=
  match a, b with
  | Empty, _ => b
  | _, Empty => a
  | _, _ => Alt a b
  end.

Fixpoint deriv (c : char) (r : re) : re :=
  match r with
  | Empty => Empty
  | Eps => Empty
  | Chr cs => if mem cs c then Eps else Empty
  | Seq a b =>
      alt' (seq' (deriv c a) b) (if nullable a then deriv c b else Empty)
  | Alt a b => alt' (deriv c a) (deriv c b)
  | Star a => seq' (deriv c a) (Star a)
  | And a b => And (deriv c a) (deriv c b)
  | Not a => Not (deriv c a)
  end.

(** [/^r$/.test(s)] *)
Fixpoint full (r : re) (s : str) : bool :=
  match s with
  | [] => nullable r
  | c :: s' => full (deriv c r) s'
  end.

Definition any : re := Star (Chr CAny).

(** [/^r/.test(s)] and [/r$/.test(s)] *)
Definition prefix (r : re) (s : str) : bool := full (Seq r any) s.
Definition suffix (r : re) (s : str) : bool := full (Seq any r) s.

(** Derived forms. *)
Definition Opt (r : re) : re := Alt Eps r.
Definition Plus (r : re) : re := Seq r (Star r).

Fixpoint Rep (n : nat) (r : re) : re :=       (* r{n} *)
  match n with
  | O => Eps
  | S n' => Seq r (Rep n' r)
  end.

Definition AtLeast (n : nat) (r : re) : re := Seq (Rep n r) (Star r). (* r{n,} *)

Fixpoint UpTo (n : nat) (r : re) : re :=      (* r{0,n} *)
  match n with
  | O => Eps
  | S n' => Opt (Seq r (UpTo n' r))
  end.

Definition Between (m n : nat) (r : re) : re :=  (* r{m,n} *)
  Seq (Rep m r) (UpTo (n - m) r).

Fixpoint Lit (s : str) : re :=
  match s with
  | [] => Eps
  | c :: s' => Seq (Chr (CLit c)) (Lit s')
  end.

Fixpoint OneOf (s : str) : cset :=            (* [abc] *)
  match s with
  | [] => CNeg CAny
  | [c] => CLit c
  | c :: s' => CUnion (CLit c) (OneOf s')
  end.

Definition Alts (rs : list re) : re := fold_right Alt Empty rs.
Definition Seqs (rs : list re) : re := fold_right Seq Eps rs.

(** The language of a pattern, to say what [full] decides. *)
Fixpoint lang (r : re) (s : str) : Prop :=
  match r with
  | Empty => False
  | Eps => s = []
  | Chr cs => exists c, s = [c] /\ mem cs c = true
  | Seq a b => exists s1 s2, s = s1 ++ s2 /\ lang a s1 /\ lang b s2
  | Alt a b => lang a s \/ lang b s
  | Star a =>
      exists ss, s = concat ss /\ Forall (fun x => x <> [] /\ lang a x) ss
  | And a b => lang a s /\ lang b s
  | Not a => ~ lang a s
  end.

(** The longest prefix of [s] in [a] whose remainder is in [rest]: what a
    greedy quantifier [a] followed by [rest$] captures.  The cuts of [s]
    are tried from the longest prefix down. *)
Fixpoint greedy_from (a rest : re) (s : str) (n : nat)
  : option (str * str) :=
  let p := firstn n s in
  let q := skipn n s in
  if full a p && full rest q then Some (p, q)
  else match n with
       | O => None
       | S k => greedy_from a rest s k
       end.

Definition greedy_split (a rest : re) (s : str) : option (str * str) :=
  greedy_from a rest s (length s).

(** The first alternative, in order, that can start a match. *)
Fixpoint first_alt (alts : list re) (rest : re) (s : str)
  : option (str * str) :=
  match alts with
  | [] => None
  | a :: alts' =>
      match greedy_split a rest s with
      | Some pq => Some pq
      | None => first_alt alts' rest s
      end
  end.

(** The class avoids white space / contains all of it: syntactic checks,
    enough for the patterns below. *)
Fixpoint covers_space (cs : cset) : bool :=
  match cs with
  | CSpace => true
  | CAny => true
  | CUnion a b => covers_space a || covers_space b
  | _ => false
  end.

Fixpoint avoids_space (cs : cset) : bool :=
  match cs with
  | CLit c => negb (is_space c)
  | CRange lo hi => (32 <? lo) && (hi <? 160)
  | CSpace => false
  | CAny => false
  | CUnion a b => avoids_space a && avoids_space b
  | CNeg a => covers_space a
  end.

(** Every string of the language has a character that is not white space
    (a syntactic sufficient condition). *)
Fixpoint needs_ink (r : re) : bool :=
  match r with
  | Empty => true
  | Eps => false
  | Chr cs => avoids_space cs
  | Seq a b => needs_ink a || needs_ink b
  | Alt a b => needs_ink a && needs_ink b
  | Star _ => false
  | And a b => needs_ink a || needs_ink b
  | Not _ => false
  end.

End Regex.

Import Regex.

(** ** Patterns / delimiters

    Each pattern of the source, as a test on a string.  The two patterns
    with the [i] flag spell their letter classes with both cases. *)

Definition ws : re := Chr CSpace.                                (* \s *)
Definition ink : re := Chr (CNeg CSpace).                        (* \S, [^\s] *)
(* [.] matches all but the line terminators LF, CR, U+2028, U+2029 *)
Definition dot : re := Chr (CNeg (OneOf [10; 13; 8232; 8233])).
Definition blank_tab : re := Chr (OneOf [32; 9]).                (* [ \t] *)
Definition digit : cset := CRange 48 57.
Definition lower : cset := CRange 97 122.
Definition letter : cset := CUnion lower (CRange 65 90).
Definition word_char : cset := CUnion letter (CUnion digit (CLit 95)). (* \w *)
Definition no (s : string) : re := Chr (CNeg (OneOf (lit s))).   (* [^...] *)
Definition L (s : string) : re := Lit (lit s).

(* /^([._=*+\-]{4,})\s*$/ *)
Definition FENCE_RE : str -> bool :=
  full (Seqs [AtLeast 4 (Chr (OneOf (lit "._=*+-"))); Star ws]).

(* /^--\s*$/ *)
Definition OPEN_BLOCK_RE : str -> bool := full (Seqs [L "--"; Star ws]).

(* /^=+\s/ *)
Definition TITLE_RE : str -> bool := prefix (Seqs [Plus (L "="); ws]).

(* /^:[^:\s][^:]*:\s?.*$/ *)
Definition ATTR_RE : str -> bool :=
  full (Seqs [L ":"; Chr (CNeg (CUnion (CLit 58) CSpace)); Star (no ":");
              L ":"; Opt ws; Star dot]).

(* /^\.[^\s].*$/ *)
Definition BLOCK_TITLE_re : re := Seqs [L "."; ink; Star dot].
Definition BLOCK_TITLE_RE : str -> bool := full BLOCK_TITLE_re.

(* /^\[[^\]]+\]\s*$/ *)
Definition BLOCK_ATTR_re : re := Seqs [L "["; Plus (no "]"); L "]"; Star ws].
Definition BLOCK_ATTR_RE : str -> bool := full BLOCK_ATTR_re.

(* /^\s*\[\[[^\]]+\]\]\s*$/ *)
Definition ANCHOR_re : re :=
  Seqs [Star ws; L "[["; Plus (no "]"); L "]]"; Star ws].
Definition ANCHOR_RE : str -> bool := full ANCHOR_re.

(* /^(ifdef|ifndef|ifeval|endif)::.*$/ *)
Definition CONDITIONAL_re : re :=
  Seqs [Alts [L "ifdef"; L "ifndef"; L "ifeval"; L "endif"]; L "::"; Star dot].
Definition CONDITIONAL_RE : str -> bool := full CONDITIONAL_re.

(* /^include::\S+\[.*\]\s*$/ *)
Definition INCLUDE_re : re :=
  Seqs [L "include::"; Plus ink; L "["; Star dot; L "]"; Star ws].
Definition INCLUDE_RE : str -> bool := full INCLUDE_re.

(* /^[a-z][\w+-]*:(?::)?(?:\S+)?\[[^\]]*\]\s*$/i *)
Definition BLOCK_MACRO_re : re :=
  Seqs [Chr letter; Star (Chr (CUnion word_char (OneOf (lit "+-"))));
        L ":"; Opt (L ":"); Opt (Plus ink);
        L "["; Star (no "]"); L "]"; Star ws].
Definition BLOCK_MACRO_RE : str -> bool := full BLOCK_MACRO_re.

(* /^\|===\s*$/ *)
Definition TABLE_FENCE_RE : str -> bool := full (Seqs [L "|==="; Star ws]).

(* /^\/\/\/\/\s*$/ *)
Definition COMMENT_BLOCK_FENCE_RE : str -> bool :=
  full (Seqs [L "////"; Star ws]).

(* /^\s*\/\/(?!\/\/)\s?.*$/ *)
Definition LINE_COMMENT_re : re :=
  Seqs [Star ws; L "//";
        And (Not (Seq (L "//") any)) (Seqs [Opt ws; Star dot])].
Definition LINE_COMMENT_RE : str -> bool := full LINE_COMMENT_re.

(* /^[ \t]*\+[ \t]*$/ *)
Definition CONTINUATION_LINE_RE : str -> bool :=
  full (Seqs [Star blank_tab; L "+"; Star blank_tab]).

(* /^(\t| {4,})/ *)
Definition INDENTED_CODE_RE : str -> bool :=
  prefix (Alt (Chr (CLit 9)) (AtLeast 4 (L " "))).

(* /^'{3,}\s*$/ and /^<<<\s*$/ *)
Definition HR_RE : str -> bool := full (Seqs [AtLeast 3 (L "'"); Star ws]).
Definition PAGE_RE : str -> bool := full (Seqs [L "<<<"; Star ws]).

(* /^[a-z]+:\/\/\S+$/i *)
Definition URL_TOKEN_RE : str -> bool :=
  full (Seqs [Plus (Chr letter); L "://"; Plus ink]).

(* /^ [^\s].*$/ *)
Definition LEADING_SPACE_LINE_RE : str -> bool :=
  full (Seqs [L " "; ink; Star dot]).

(* /^\s*$/ *)
Definition BLANK_RE : str -> bool := full (Star ws).

(* /\s\+$/ *)
Definition HARD_BREAK_RE : str -> bool := suffix (Seqs [ws; L "+"]).

(** The patterns whose groups the source reads: [s.match(RE)] as the
    groups, [RE.test(s)] as whether there are any.  The groups are those of
    the first success of the backtracking matcher: from left to right,
    each greedy quantifier takes the longest text that lets the rest of
    the pattern match, and the alternatives of a group are tried in
    order. *)

(* LIST_RE: ^ ([ \t]* ) ( \*{1,6} | \+{1,6} | \-{1,6} | [0-9]+\. | [a-z]\. | U+2022 ) \s+ (.* ) $ *)
Definition list_markers : list re :=
  [Between 1 6 (L "*"); Between 1 6 (L "+"); Between 1 6 (L "-");
   Seqs [Plus (Chr digit); L "."]; Seqs [Chr lower; L "."]; Chr (CLit 8226)].

Definition LIST_RE_match (s : str) : option (str * str * str) :=
  let tail := Seqs [Plus ws; Star dot] in
  match greedy_split (Star blank_tab) (Seq (Alts list_markers) tail) s with
  | None => None
  | Some (indent, s1) =>
      match first_alt list_markers tail s1 with
      | None => None
      | Some (marker, s2) =>
          match greedy_split (Plus ws) (Star dot) s2 with
          | None => None
          | Some (_, rest) => Some (indent, marker, rest)
          end
      end
  end.

(* DEF_LIST_RE: ^ ([ \t]* ) ([^:]+) :: \s* (.* ) $ *)
Definition DEF_LIST_RE_match (s : str) : option (str * str * str) :=
  let tail := Seqs [L "::"; Star ws; Star dot] in
  match greedy_split (Star blank_tab) (Seq (Plus (no ":")) tail) s with
  | None => None
  | Some (indent, s1) =>
      match greedy_split (Plus (no ":")) tail s1 with
      | None => None
      | Some (term, s2) =>
          match greedy_split (Star ws) (Star dot) (skipn 2 s2) with
          | None => None
          | Some (_, rest) => Some (indent, term, rest)
          end
      end
  end.

(* ADMON_SINGLE_RE: ^ (NOTE|TIP|IMPORTANT|WARNING|CAUTION) : \s* (.* ) $ *)
Definition ADMON_SINGLE_RE_match (s : str) : option (str * str) :=
  let labels := [L "NOTE"; L "TIP"; L "IMPORTANT"; L "WARNING"; L "CAUTION"] in
  match first_alt labels (Seqs [L ":"; Star ws; Star dot]) s with
  | None => None
  | Some (label, s1) =>
      match greedy_split (Star ws) (Star dot) (skipn 1 s1) with
      | None => None
      | Some (_, body) => Some (label, body)
      end
  end.

(* /^\[(?: |x|X|-)\]\s+/ : the matched text and what follows it *)
Definition CHECKLIST_match (s : str) : option (str * str) :=
  greedy_split (Seqs [L "["; Chr (OneOf (lit " xX-")); L "]"; Plus ws]) any s.

Definition is_some {A : Type} (o : option A) : bool :=
  match o with Some _ => true | None => false end.

Definition LIST_RE (s : str) : bool := is_some (LIST_RE_match s).
Definition DEF_LIST_RE (s : str) : bool := is_some (DEF_LIST_RE_match s).

(** Marker depth helper: repeated bullets give the depth; ordered and
    lettered markers have depth 1. *)
Definition markerDepth (m : str) : nat :=
  if negb (nonempty m) then 0%nat
  else if full (Plus (L "*")) m || full (Plus (L "+")) m
          || full (Plus (L "-")) m then length m
  else if full (Seqs [Plus (Chr digit); L "."]) m then 1%nat
  else if full (Seqs [Chr lower; L "."]) m then 1%nat
  else if str_eqb m [8226] then 1%nat
  else 0%nat.

(** ** Wrapping helpers *)

Notation "x <- c1 ;; c2" :=
  (match c1 with Some x => c2 | None => None end)
  (at level 61, c1 at next level, right associativity).

Definition push (lines : list str) (l : str) : list str := lines ++ [l].

(** [while (s.length > width) { lines.push(s.slice(0, width)); s = s.slice(width); }]
    The loop is the one place of the core that need not end, so it runs on
    fuel: [None] is a loop that is still running when the fuel is gone. *)
Fixpoint hardSplit (fuel : nat) (width : Z) (lines : list str) (s : str)
  : option (list str * str) :=
  if (len s >? width)%Z then
    match fuel with
    | O => None
    | S fuel' =>
        hardSplit fuel' width (push lines (slice s 0 width)) (slice_from s width)
    end
  else Some (lines, s).

(** The body of [for (const w of words)], on the pair [(lines, line)]. *)
Definition wrapWord (fuel : nat) (width : Z) (lines : list str) (line w : str)
  : option (list str * str) :=
  let isUrl := URL_TOKEN_RE w in
  if negb isUrl && (len w >=? width)%Z then
    (* Hard-split long non-URL tokens *)
    hardSplit fuel width (if nonempty line then push lines line else lines) w
  else
    let candidate := if nonempty line then line ++ lit " " ++ w else w in
    if (len candidate >? width)%Z then
      (* Prefer to keep very short last word (<=2) with the next line *)
      let parts := split_char SP line in
      let last := last parts [] in
      if nonempty line && (len last <=? 2)%Z && (1 <? length parts)%nat then
        Some (push lines (join (lit " ") (removelast parts)),
              last ++ lit " " ++ w)
      else Some (push lines line, w)
    else Some (lines, candidate).

Fixpoint wrapWords (fuel : nat) (width : Z) (tokens : list str)
  (lines : list str) (line : str) : option (list str * str) :=
  match tokens with
  | [] => Some (lines, line)
  | w :: tokens' =>
      st <- wrapWord fuel width lines line w ;;
      wrapWords fuel width tokens' (fst st) (snd st)
  end.

(** [lines.map((l, i) => (i === 0 ? l : hangingPrefix + l))] *)
Definition hang (hangingPrefix : str) (lines : list str) : list str :=
  match lines with
  | [] => []
  | l :: ls => l :: map (fun x => hangingPrefix ++ x) ls
  end.

(** The array [lines] of [wrapText] when its loop ends. *)
Definition wrapLines (fuel : nat) (text : str) (width : Z)
  : option (list str) :=
  st <- wrapWords fuel width (words text) [] [] ;;
  Some (if nonempty (snd st) then push (fst st) (snd st) else fst st).

Definition wrapText (fuel : nat) (text : str) (width : Z) (hangingPrefix : str)
  : option str :=
  lines <- wrapLines fuel text width ;;
  Some (join [NL] (hang hangingPrefix lines)).

(** [[rest0, ...lines.slice(1).map(l => l.trim())].join(" ").replace(/\s+/g, " ").trim()] *)
Definition itemBody (rest0 : str) (more : list str) : str :=
  trim (replace_ws (join (lit " ") (rest0 :: map trim more))).

Definition reflowParagraph (fuel : nat) (lines : list str) (width : Z)
  : option (list str) :=
  match lines with
  | [] => Some []
  | l0 :: more =>
      match LIST_RE_match l0 with
      | Some (indent, marker, rest0) =>
          (* List item with hanging indent; checklist prefix right after
             the marker: [ ], [x], [X], [-] *)
          let chk := match CHECKLIST_match rest0 with
                     | Some (c, r) => (c, r)
                     | None => ([], rest0)
                     end in
          let checklist := fst chk in
          let rest0 := snd chk in
          let head := indent ++ marker ++ lit " " ++ checklist in
          let hangingLen :=
            Nat.max (length head)
                    (if nonempty checklist then 8%nat else length head) in
          let hanging := spaces hangingLen in
          let body := itemBody rest0 more in
          wrapped <- wrapText fuel body
                       (Z.max 20 (width - Z.of_nat hangingLen)) hanging ;;
          Some [head ++ wrapped]
      | None =>
          match DEF_LIST_RE_match l0 with
          | Some (indent, term0, rest0) =>
              (* Definition list item with hanging indent after "Term:: " *)
              let term := trim term0 in
              let head := indent ++ term ++ lit ":: " in
              let hanging := spaces (length head) in
              let joined := itemBody rest0 more in
              wrapped <- wrapText fuel joined
                           (Z.max 20 (width - len hanging)) hanging ;;
              Some [head ++ wrapped]
          | None =>
              (* Respect hard line breaks (trailing " +") *)
              if existsb HARD_BREAK_RE lines then Some lines
              else
                (* Normal paragraph *)
                let joined :=
                  trim (replace_ws (join (lit " ") (map trim lines))) in
                if negb (nonempty joined) then Some [[]]
                else
                  wrapped <- wrapText fuel joined width [] ;;
                  Some (split_char NL wrapped)
          end
      end
  end.

(** ** Collecting one list / definition-list item

    [collectListItem(srcLines, i)] reads [srcLines] from [i] on: here the
    line [first] at [i] and the lines [rest] after it.  The result is the
    item's lines, how many lines after [first] were taken ([next - i - 1])
    and the [complex] mark. *)

Definition structural_start (line t : str) : bool :=
  COMMENT_BLOCK_FENCE_RE t || TABLE_FENCE_RE t
  || (FENCE_RE t || OPEN_BLOCK_RE t)
  || (HR_RE t || PAGE_RE t)
  || (TITLE_RE line || ATTR_RE line || BLOCK_TITLE_RE line
      || BLOCK_ATTR_RE line || ANCHOR_RE line || CONDITIONAL_RE line
      || INCLUDE_RE line || BLOCK_MACRO_RE line).

Fixpoint collectLoop (topIndent topDepth : nat) (src : list str)
  (lines : list str) (taken : nat) (complex : bool)
  : list str * nat * bool :=
  match src with
  | [] => (lines, taken, complex)
  | line :: src' =>
      let t := trim line in
      let stop := (lines, taken, complex) in
      let keep := collectLoop topIndent topDepth src' (push lines line)
                    (S taken) in
      (* Structural boundaries / starts *)
      if BLANK_RE line then stop
      else if structural_start line t then stop
      else if CONTINUATION_LINE_RE line then (push lines line, S taken, true)
      else
        let mList := LIST_RE_match line in
        let mDef := DEF_LIST_RE_match line in
        match mList, mDef with
        | None, None =>
            if INDENTED_CODE_RE line then keep true else keep complex
        | Some (indent, marker, _), _ =>
            (* nested if indent grows OR same indent with deeper marker *)
            if (length indent <=? topIndent)%nat then
              if (markerDepth marker <=? topDepth)%nat then stop
              else keep true
            else keep true
        | None, Some (indent, _, _) =>
            if (length indent <=? topIndent)%nat then stop else keep true
        end
  end.

Definition collectListItem (first : str) (rest : list str)
  : list str * nat * bool :=
  let mTop := match LIST_RE_match first with
              | Some m => Some m
              | None => DEF_LIST_RE_match first
              end in
  match mTop with
  | None => ([first], 0%nat, false)
  | Some (indent, marker, _) =>
      collectLoop (length indent) (markerDepth marker) rest [first] 0%nat false
  end.

(** ** Main reflow

    The scan state: the output array, the paragraph buffer and the five
    flags of [reflowTextAdoc]. *)

Record state : Type := mkState {
  out : list str;
  para : list str;
  inFence : bool;
  inOpen : bool;
  inTable : bool;
  inCommentBlock : bool;
  inLiteralPara : bool          (* paragraph that started with leading space *)
}.

Definition init : state := mkState [] [] false false false false false.

Definition set_out (o : list str) (st : state) : state :=
  mkState o (para st) (inFence st) (inOpen st) (inTable st)
          (inCommentBlock st) (inLiteralPara st).
Definition set_para (p : list str) (st : state) : state :=
  mkState (out st) p (inFence st) (inOpen st) (inTable st)
          (inCommentBlock st) (inLiteralPara st).
Definition set_inFence (b : bool) (st : state) : state :=
  mkState (out st) (para st) b (inOpen st) (inTable st)
          (inCommentBlock st) (inLiteralPara st).
Definition set_inOpen (b : bool) (st : state) : state :=
  mkState (out st) (para st) (inFence st) b (inTable st)
          (inCommentBlock st) (inLiteralPara st).
Definition set_inTable (b : bool) (st : state) : state :=
  mkState (out st) (para st) (inFence st) (inOpen st) b
          (inCommentBlock st) (inLiteralPara st).
Definition set_inCommentBlock (b : bool) (st : state) : state :=
  mkState (out st) (para st) (inFence st) (inOpen st) (inTable st)
          b (inLiteralPara st).
Definition set_inLiteralPara (b : bool) (st : state) : state :=
  mkState (out st) (para st) (inFence st) (inOpen st) (inTable st)
          (inCommentBlock st) b.

(** [out.push(line)] and [out.push(...lines)] *)
Definition emit (line : str) (st : state) : state :=
  set_out (push (out st) line) st.
Definition emit_all (lines : list str) (st : state) : state :=
  set_out (out st ++ lines) st.

Definition flush (fuel : nat) (width : Z) (st : state) : option state :=
  match para st with
  | [] => Some st
  | _ :: _ =>
      ls <- reflowParagraph fuel (para st) width ;;
      Some (set_para [] (emit_all ls st))
  end.

(** [flush(); out.push(line);] *)
Definition flush_emit (fuel : nat) (width : Z) (line : str) (st : state)
  : option state :=
  st1 <- flush fuel width st ;; Some (emit line st1).

Definition structural_line (line t : str) : bool :=
  BLOCK_TITLE_RE line || BLOCK_ATTR_RE line
  || ANCHOR_RE line || CONDITIONAL_RE line
  || INCLUDE_RE line || BLOCK_MACRO_RE line
  || HR_RE t || PAGE_RE t.

(** One turn of the [for] loop on [line = src[i]]; [rest] are the lines
    after it.  The result is the new state and how many lines of [rest] the
    turn has taken as well (the jump [i = next - 1]). *)
Definition step (fuel : nat) (width : Z) (line : str) (rest : list str)
  (st : state) : option (state * nat) :=
  let t := trim line in
  (* Comment block toggle *)
  if COMMENT_BLOCK_FENCE_RE t then
    st1 <- flush_emit fuel width line st ;;
    Some (set_inCommentBlock (negb (inCommentBlock st1)) st1, 0%nat)
  else if inCommentBlock st then Some (emit line st, 0%nat)
  (* Single-line comment *)
  else if LINE_COMMENT_RE line then
    st1 <- flush_emit fuel width line st ;; Some (st1, 0%nat)
  (* Structural single-line boundaries *)
  else if structural_line line t then
    st1 <- flush_emit fuel width line st ;; Some (st1, 0%nat)
  (* Table fences *)
  else if TABLE_FENCE_RE t then
    st1 <- flush_emit fuel width line st ;;
    Some (set_inTable (negb (inTable st1)) st1, 0%nat)
  else if inTable st then Some (emit line st, 0%nat)
  (* Fences & open blocks *)
  else if FENCE_RE t then
    st1 <- flush_emit fuel width line st ;;
    Some (set_inFence (negb (inFence st1)) st1, 0%nat)
  else if OPEN_BLOCK_RE t then
    st1 <- flush_emit fuel width line st ;;
    Some (set_inOpen (negb (inOpen st1)) st1, 0%nat)
  (* Blank line: end paragraph (normal or literal) *)
  else if BLANK_RE line then
    let isLast := negb (nonempty rest) in
    let st0 := if inLiteralPara st then set_inLiteralPara false st else st in
    st1 <- flush fuel width st0 ;;
    Some (if negb (isLast && negb (nonempty line)) then emit [] st1 else st1,
          0%nat)
  (* Non-reflowable contexts and lines *)
  else if inFence st || inOpen st || TITLE_RE line || ATTR_RE line then
    st1 <- flush_emit fuel width line st ;; Some (st1, 0%nat)
  (* Literal paragraph (first non-blank line begins with a space) *)
  else if negb (nonempty (para st)) && negb (inLiteralPara st)
          && LEADING_SPACE_LINE_RE line then
    st1 <- flush fuel width st ;;
    Some (emit line (set_inLiteralPara true st1), 0%nat)
  else if inLiteralPara st then Some (emit line st, 0%nat)
  else
    match ADMON_SINGLE_RE_match line with
    | Some (label, body) =>
        (* Single-line admonition with hanging indent *)
        st1 <- flush fuel width st ;;
        let prefix := label ++ lit ": " in
        let hanging := spaces (length prefix) in
        if nonempty body then
          wrapped <- wrapText fuel (trim body)
                       (Z.max 20 (width - len hanging)) hanging ;;
          Some (emit (prefix ++ wrapped) st1, 0%nat)
        else Some (emit prefix st1, 0%nat)
    | None =>
        (* Lists and definition lists: collect complete item *)
        if LIST_RE line || DEF_LIST_RE line then
          st1 <- flush fuel width st ;;
          match collectListItem line rest with
          | (lines, taken, complex) =>
              if complex then Some (emit_all lines st1, taken)
              else
                ls <- reflowParagraph fuel lines width ;;
                Some (emit_all ls st1, taken)
          end
        (* Indented code line (defensive) *)
        else if INDENTED_CODE_RE line then
          st1 <- flush_emit fuel width line st ;; Some (st1, 0%nat)
        (* Normal paragraph line: accumulate *)
        else Some (set_para (push (para st) line) st, 0%nat)
    end.

(** The [for] loop over [src]; [skip] lines are passed over first, those a
    list item has taken. *)
Fixpoint scan (fuel : nat) (width : Z) (st : state) (skip : nat)
  (src : list str) : option state :=
  match src with
  | [] => Some st
  | line :: rest =>
      match skip with
      | S k => scan fuel width st k rest
      | O =>
          r <- step fuel width line rest st ;;
          scan fuel width (fst r) (snd r) rest
      end
  end.

Definition reflowTextAdoc (fuel : nat) (input : str) (width : Z)
  : option str :=
  let endsWithNL := ends_with_newline input in
  let src := split_lines input in
  st <- scan fuel width init 0%nat src ;;
  st1 <- flush fuel width st ;;
  Some (join [NL] (out st1) ++ (if endsWithNL then [NL] else [])).

(** A document given line by line, for the examples: the lines joined by
    a newline.  [blank] is the empty line; as the last line it stands for
    a final newline. *)
Definition blank : string := EmptyString.
Definition text (ls : list string) : str := join [NL] (map lit ls).

(** ** Vocabulary of the specification *)

(** The whitespace-delimited tokens of a paragraph, given as its lines. *)
Definition tokens (lines : list str) : list str := words (join [NL] lines).


(** A fence / delimiter line. *)
Definition is_delimiter (l : str) : bool :=
  let t := trim l in
  FENCE_RE t || OPEN_BLOCK_RE t || TABLE_FENCE_RE t
  || COMMENT_BLOCK_FENCE_RE t.



(** A token: not empty, no white space in it. *)
Definition is_token (w : str) : bool :=
  nonempty w && forallb (fun c => negb (is_space c)) w.

(** The four block flags of a state. *)
Definition modes (st : state) : bool * bool * bool * bool :=
  (inFence st, inOpen st, inTable st, inCommentBlock st).

(** The paragraph buffer holds prose only: no line of it starts a list or
    a definition-list item. *)
Definition para_prose (st : state) : Prop :=
  Forall (fun l => LIST_RE l = false /\ DEF_LIST_RE l = false) (para st).

(** The tests of [step] that come before the literal-paragraph test. *)
Definition caught_earlier (line : str) (st : state) : bool :=
  let t := trim line in
  COMMENT_BLOCK_FENCE_RE t || inCommentBlock st || LINE_COMMENT_RE line
  || structural_line line t || TABLE_FENCE_RE t || inTable st
  || FENCE_RE t || OPEN_BLOCK_RE t || BLANK_RE line
  || (inFence st || inOpen st || TITLE_RE line || ATTR_RE line).

(** A computation on fuel terminates: from some amount of fuel on it
    returns one and the same result. *)
Definition terminates {A : Type} (f : nat -> option A) : Prop :=
  exists n r, forall fuel, (n <= fuel)%nat -> f fuel = Some r.

(** The string is empty or starts with white space. *)
Definition starts_space (s : str) : bool :=
  match s with
  | [] => true
  | c :: _ => is_space c
  end.

(** No newline in the string. *)
Definition no_newline (s : str) : bool := forallb (fun c => negb (c =? NL)) s.




(** The string ends in a character, and not in a newline. *)
Definition ends_clean (l : str) : bool :=
  nonempty l && negb (ends_with_newline l).



(** ** The editor glue ([src/extension.js])

    The pure parts of the glue.  A document is the list of its lines
    ([document.lineAt(i).text], [document.lineCount]); the configured wrap
    column is an argument. *)

(** [Math.max(20, Math.min(200, col))] *)
Definition getWrapColumn (col : Z) : Z := Z.max 20 (Z.min 200 col).

Record Range : Type := mkRange {
  startLine : nat; startChar : nat; endLine : nat; endChar : nat
}.

Definition lineAt (doc : list str) (i : nat) : str := nth i doc [].

(** [while (s > 0 && !/^\s*$/.test(document.lineAt(s - 1).text)) s--;] *)
Fixpoint paraStart (doc : list str) (s : nat) : nat :=
  match s with
  | O => O
  | S s' => if BLANK_RE (lineAt doc s') then s else paraStart doc s'
  end.

(** [while (e < last && !/^\s*$/.test(document.lineAt(e + 1).text)) e++;]
    with [gap = last - e], the number of turns left at most. *)
Fixpoint paraEnd (doc : list str) (gap e : nat) : nat :=
  match gap with
  | O => e
  | S gap' => if BLANK_RE (lineAt doc (S e)) then e
              else paraEnd doc gap' (S e)
  end.

Definition paragraphRangeAt (doc : list str) (line : Z) : Range :=
  let last := (length doc - 1)%nat in
  let s := Z.to_nat (Z.max 0 (Z.min line (Z.of_nat last))) in
  let e := paraEnd doc (last - s) s in
  mkRange (paraStart doc s) 0 e (length (lineAt doc e)).

(** ** More vocabulary *)

(** The characters of a string that are not white space, in order. *)
Definition ink_of (s : str) : str := filter (fun c => negb (is_space c)) s.

(** Tokens separated by single spaces. *)
Definition spaced (l : str) : Prop :=
  exists ts, ts <> [] /\ Forall (fun t => is_token t = true) ts
             /\ l = join [SP] ts.

(** A carriage return right before a newline somewhere in the string. *)
Fixpoint has_crlf (s : str) : bool :=
  match s with
  | [] => false
  | c :: s' =>
      ((c =? CR) && match s' with c' :: _ => c' =? NL | [] => false end)
      || has_crlf s'
  end.

(** No block or literal mode is on while lines are buffered. *)
Definition buffer_outside (st : state) : Prop :=
  inCommentBlock st || inTable st || inLiteralPara st = true -> para st = [].

(** The lines the wrapper returns: every line is tokens separated by single
    spaces; or, when [P] holds, the first line is empty and the others are
    such lines. *)
Definition wrapped_shape (P : Prop) (lines : list str) : Prop :=
  Forall spaced lines
  \/ (P /\ exists ls, lines = [] :: ls /\ Forall spaced ls).

(** The pair [(lines, line)] of the wrapper between two words. *)
Definition wrap_inv (P : Prop) (lines : list str) (line : str) : Prop :=
  (lines = [] /\ line = []) \/ (spaced line /\ wrapped_shape P lines).

(** The characters a list marker can start with. *)
Definition marker_start : cset :=
  CUnion (OneOf [42; 43; 45; 8226]) (CUnion digit lower).

(** * Properties *)

(** ** The pattern matcher decides the language *)

Lemma nullable_spec (r : re) : nullable r = true <-> lang r [].
Proof.
  induction r; simpl.
  - split; [discriminate | tauto].
  - tauto.
  - split; [discriminate | intros [c [E _]]; discriminate].
  - rewrite andb_true_iff, IHr1, IHr2. split.
    + intros [H1 H2]. exists [], []. auto.
    + intros [s1 [s2 [E [H1 H2]]]]. symmetry in E.
      apply app_eq_nil in E. destruct E; subst. auto.
  - rewrite orb_true_iff, IHr1, IHr2. tauto.
  - split; auto. intros _. exists []. auto.
  - rewrite andb_true_iff, IHr1, IHr2. tauto.
  - rewrite negb_true_iff, <- IHr. destruct (nullable r); split;
      congruence.
Qed.

Lemma seq'_spec (a b : re) (s : str) : lang (seq' a b) s <-> lang (Seq a b) s.
Proof.
  destruct a; simpl; try tauto.
  - split; [tauto | intros [s1 [s2 [_ [[] _]]]]].
  - split.
    + intros H. exists [], s. auto.
    + intros [s1 [s2 [E [-> H]]]]. now subst.
Qed.

Lemma alt'_spec (a b : re) (s : str) : lang (alt' a b) s <-> lang a s \/ lang b s.
Proof. destruct a, b; simpl; tauto. Qed.

Lemma deriv_spec (r : re) (c : char) :
  forall s, lang (deriv c r) s <-> lang r (c :: s).
Proof.
  induction r; intros s; simpl.
  - tauto.
  - split; [tauto | discriminate].
  - destruct (mem cs c) eqn:E; simpl.
    + split.
      * intros ->. eauto.
      * intros [c' [E' _]]. now inversion E'.
    + split; [tauto |]. intros [c' [E' H]]. inversion E'; subst. congruence.
  - rewrite alt'_spec, seq'_spec. simpl. split.
    + intros [[s1 [s2 [-> [H1 H2]]]] | H].
      * exists (c :: s1), s2. rewrite <- IHr1. auto.
      * destruct (nullable r1) eqn:E; [| destruct H].
        exists [], (c :: s). rewrite <- IHr2, <- nullable_spec. auto.
    + intros [s1 [s2 [E [H1 H2]]]]. destruct s1 as [| x s1].
      * right. simpl in E. subst s2. apply nullable_spec in H1.
        rewrite H1. now apply IHr2.
      * left. inversion E; subst. exists s1, s2. rewrite IHr1. auto.
  - rewrite alt'_spec, IHr1, IHr2. tauto.
  - rewrite seq'_spec. simpl. split.
    + intros [s1 [s2 [-> [H1 [ss [-> Hss]]]]]].
      exists ((c :: s1) :: ss). split; [reflexivity |].
      constructor; auto. split; [discriminate | now apply IHr].
    + intros [ss [E Hss]]. destruct Hss as [| x ss [Hx Hl] Hss];
        [discriminate |].
      destruct x as [| y x]; [congruence |]. inversion E; subst.
      exists x, (concat ss). rewrite IHr. eauto.
  - rewrite IHr1, IHr2. tauto.
  - rewrite IHr. tauto.
Qed.

(** [full r s] says whether [s], as a whole, is in the language of [r]. *)
Lemma full_spec (s : str) : forall r, full r s = true <-> lang r s.
Proof.
  induction s as [| c s IH]; intros r; simpl.
  - apply nullable_spec.
  - rewrite IH. apply deriv_spec.
Qed.

Lemma greedy_from_spec (a rest : re) (s : str) (n : nat) (p q : str) :
  greedy_from a rest s n = Some (p, q) ->
  s = p ++ q /\ lang a p /\ lang rest q
  /\ forall p' q',
       s = p' ++ q' -> (length p' <= n)%nat -> lang a p' -> lang rest q' ->
       (length p' <= length p)%nat.
Proof.
  assert (Hhere : forall k,
             full a (firstn k s) && full rest (skipn k s) = true ->
             s = firstn k s ++ skipn k s
             /\ lang a (firstn k s) /\ lang rest (skipn k s)
             /\ forall p' q',
                  s = p' ++ q' -> (length p' <= k)%nat ->
                  lang a p' -> lang rest q' ->
                  (length p' <= length (firstn k s))%nat).
  { intros k E. apply andb_true_iff in E. destruct E as [Ea Er].
    apply full_spec in Ea, Er.
    split; [symmetry; apply firstn_skipn |].
    split; [exact Ea |]. split; [exact Er |].
    intros p' q' E' Hk _ _. rewrite length_firstn.
    assert (length p' <= length s)%nat by (rewrite E', length_app; lia).
    lia. }
  induction n as [| n IH]; cbn [greedy_from];
    destruct (full a (firstn _ s) && full rest (skipn _ s)) eqn:E;
    try discriminate.
  - intros H. inversion H; subst; clear H. exact (Hhere 0%nat E).
  - intros H. inversion H; subst; clear H. exact (Hhere (S n) E).
  - intros H. destruct (IH H) as [E1 [Ha [Hr Hmax]]].
    split; [exact E1 |]. split; [exact Ha |]. split; [exact Hr |].
    intros p' q' E' Hn Ha' Hr'.
    destruct (Nat.eq_dec (length p') (S n)) as [Hlen | Hlen];
      [| apply (Hmax p' q'); auto; lia].
    exfalso. assert (Hp : firstn (S n) s = p').
    { rewrite E', <- Hlen, firstn_app, Nat.sub_diag, firstn_all. simpl.
      apply app_nil_r. }
    assert (Hq : skipn (S n) s = q').
    { rewrite E', <- Hlen, skipn_app, Nat.sub_diag, skipn_all. reflexivity. }
    rewrite Hp, Hq in E. apply full_spec in Ha', Hr'.
    rewrite Ha', Hr' in E. discriminate.
Qed.

(** What [greedy_split] returns: a cut of [s] with the first part in [a]
    and the second in [rest], and no cut with a longer first part is one. *)
Lemma greedy_split_spec (a rest : re) (s p q : str) :
  greedy_split a rest s = Some (p, q) ->
  s = p ++ q /\ lang a p /\ lang rest q
  /\ forall p' q',
       s = p' ++ q' -> lang a p' -> lang rest q' ->
       (length p' <= length p)%nat.
Proof.
  unfold greedy_split. intros H.
  destruct (greedy_from_spec _ _ _ _ _ _ H) as [E [Ha [Hr Hmax]]].
  repeat split; auto. intros p' q' E' Ha' Hr'. apply (Hmax p' q'); auto.
  rewrite E', length_app. lia.
Qed.

Lemma greedy_split_app (a rest : re) (s p q : str) :
  greedy_split a rest s = Some (p, q) -> s = p ++ q.
Proof. intros H. now apply greedy_split_spec in H. Qed.


Lemma Alts_spec (alts : list re) (a : re) (s : str) :
  In a alts -> lang a s -> lang (Alts alts) s.
Proof.
  induction alts as [| b alts IH]; simpl; [tauto |].
  intros [-> | H] Hs; auto.
Qed.

Lemma first_alt_spec (alts : list re) (rest : re) (s p q : str) :
  first_alt alts rest s = Some (p, q) ->
  s = p ++ q /\ lang (Alts alts) p /\ lang rest q.
Proof.
  induction alts as [| a alts IH]; simpl; [discriminate |].
  destruct (greedy_split a rest s) as [[p' q'] |] eqn:E.
  - intros H. inversion H; subst.
    apply greedy_split_spec in E. destruct E as [E [Ha [Hr _]]]. auto.
  - intros H. destruct (IH H) as [E' [Ha Hr]]. auto.
Qed.

(** The groups of a list line: the line is indent, marker, white space
    and the rest, in the languages of the four parts of [LIST_RE]. *)
Lemma LIST_RE_match_spec (s indent marker rest : str) :
  LIST_RE_match s = Some (indent, marker, rest) ->
  exists w,
    s = indent ++ marker ++ w ++ rest
    /\ lang (Star blank_tab) indent /\ lang (Alts list_markers) marker
    /\ lang (Plus ws) w /\ lang (Star dot) rest.
Proof.
  unfold LIST_RE_match.
  destruct (greedy_split _ _ s) as [[i s1] |] eqn:E1; [| discriminate].
  destruct (first_alt _ _ s1) as [[m s2] |] eqn:E2; [| discriminate].
  destruct (greedy_split _ _ s2) as [[w r] |] eqn:E3; [| discriminate].
  intros H. inversion H; subst; clear H.
  apply greedy_split_spec in E1, E3. apply first_alt_spec in E2.
  destruct E1 as [-> [Hi _]]. destruct E2 as [-> [Hm _]].
  destruct E3 as [-> [Hw [Hr _]]]. exists w. auto.
Qed.

(** ** White space and the patterns *)

Lemma is_space_bounds (c : char) :
  is_space c = true -> c <= 32 \/ 160 <= c.
Proof.
  unfold is_space.
  rewrite !orb_true_iff, andb_true_iff, !N.eqb_eq, !N.leb_le. lia.
Qed.

Lemma covers_space_sound (cs : cset) (c : char) :
  covers_space cs = true -> is_space c = true -> mem cs c = true.
Proof.
  induction cs; simpl; intros Hc Hs; try discriminate; auto.
  apply orb_true_iff in Hc. apply orb_true_iff.
  destruct Hc; [left | right]; auto.
Qed.

Lemma avoids_space_sound (cs : cset) (c : char) :
  avoids_space cs = true -> is_space c = true -> mem cs c = false.
Proof.
  induction cs; simpl; intros Hc Hs; try discriminate.
  - apply negb_true_iff in Hc. apply N.eqb_neq. intros ->. congruence.
  - apply andb_true_iff in Hc. destruct Hc as [Hlo Hhi].
    apply N.ltb_lt in Hlo, Hhi. apply is_space_bounds in Hs.
    apply andb_false_iff.
    destruct Hs; [left | right]; apply N.leb_gt; lia.
  - apply andb_true_iff in Hc. destruct Hc.
    rewrite IHcs1, IHcs2; auto.
  - rewrite (covers_space_sound cs c); auto.
Qed.

Lemma needs_ink_not_nullable (r : re) :
  needs_ink r = true -> nullable r = false.
Proof.
  induction r; simpl; intros H; try discriminate; auto.
  - apply orb_true_iff in H. apply andb_false_iff. tauto.
  - apply andb_true_iff in H. apply orb_false_iff. tauto.
  - apply orb_true_iff in H. apply andb_false_iff. tauto.
Qed.

Lemma needs_ink_seq' (a b : re) :
  needs_ink a || needs_ink b = true -> needs_ink (seq' a b) = true.
Proof. destruct a; simpl; auto. Qed.

Lemma needs_ink_alt' (a b : re) :
  needs_ink a = true -> needs_ink b = true -> needs_ink (alt' a b) = true.
Proof.
  intros Ha Hb. destruct a, b; simpl in *; auto; rewrite ?Ha, ?Hb; auto.
Qed.

Lemma needs_ink_deriv (r : re) (c : char) :
  is_space c = true -> needs_ink r = true -> needs_ink (deriv c r) = true.
Proof.
  intros Hs. induction r; simpl; intros H; try discriminate; auto.
  - rewrite (avoids_space_sound cs c); auto.
  - apply orb_true_iff in H. apply needs_ink_alt'.
    + apply needs_ink_seq'. apply orb_true_iff. tauto.
    + destruct H as [H | H].
      * rewrite (needs_ink_not_nullable _ H). reflexivity.
      * destruct (nullable r1); auto.
  - apply andb_true_iff in H. destruct H. apply needs_ink_alt'; auto.
  - apply orb_true_iff in H. apply orb_true_iff. tauto.
Qed.

(** A pattern that asks for a visible character rejects a line that is
    all white space. *)
Lemma full_all_space (r : re) (s : str) :
  needs_ink r = true -> forallb is_space s = true -> full r s = false.
Proof.
  revert r. induction s as [| c s IH]; simpl; intros r Hr Hs.
  - now apply needs_ink_not_nullable.
  - apply andb_true_iff in Hs. destruct Hs.
    apply IH; auto. now apply needs_ink_deriv.
Qed.

Lemma full_Empty (s : str) : full Empty s = false.
Proof. induction s; simpl; auto. Qed.

Lemma BLANK_RE_spec (s : str) : BLANK_RE s = forallb is_space s.
Proof.
  unfold BLANK_RE. induction s as [| c s IH]; simpl; auto.
  destruct (is_space c); simpl; auto using full_Empty.
Qed.

Lemma drop_space_all (s : str) :
  forallb is_space s = true -> drop_space s = [].
Proof.
  induction s as [| c s IH]; simpl; auto.
  destruct (is_space c); simpl; auto. discriminate.
Qed.

Lemma trim_all_space (s : str) : forallb is_space s = true -> trim s = [].
Proof. intros H. unfold trim. now rewrite (drop_space_all s H). Qed.

Lemma split_lines_one (s : str) : no_newline s = true -> split_lines s = [s].
Proof.
  induction s as [| c s IH]; simpl; auto.
  intros H. apply andb_true_iff in H. destruct H as [Hc Hs].
  apply negb_true_iff in Hc. rewrite Hc, (IH Hs).
  destruct s as [| c' s]; simpl in *.
  - now rewrite andb_false_r.
  - apply andb_true_iff in Hs. destruct Hs as [Hc' _].
    apply negb_true_iff in Hc'. now rewrite Hc', andb_false_r.
Qed.


(** A line that is all white space falls through every test before the
    blank-line test, the two verbatim modes checked before it apart. *)
Lemma step_all_space (fuel : nat) (W : Z) (line : str) (rest : list str)
  (st : state) :
  forallb is_space line = true ->
  inCommentBlock st = false -> inTable st = false ->
  step fuel W line rest st =
    (st1 <- flush fuel W (if inLiteralPara st
                          then set_inLiteralPara false st else st) ;;
     Some (if negb (negb (nonempty rest) && negb (nonempty line))
           then emit [] st1 else st1, 0%nat)).
Proof.
  intros Hs Hc Ht. unfold step, structural_line.
  rewrite (trim_all_space line Hs), Hc, Ht.
  change (COMMENT_BLOCK_FENCE_RE []) with false.
  change (TABLE_FENCE_RE []) with false.
  change (FENCE_RE []) with false.
  change (OPEN_BLOCK_RE []) with false.
  change (HR_RE []) with false.
  change (PAGE_RE []) with false.
  unfold LINE_COMMENT_RE, BLOCK_TITLE_RE, BLOCK_ATTR_RE, ANCHOR_RE,
    CONDITIONAL_RE, INCLUDE_RE, BLOCK_MACRO_RE.
  rewrite !(fun r H => full_all_space r line H Hs) by reflexivity.
  rewrite BLANK_RE_spec, Hs. reflexivity.
Qed.

(** ** The hard-split loop *)

Lemma slice_from_stuck (s : str) (W : Z) :
  (W <= 0)%Z -> s <> [] -> slice_from s W <> [].
Proof.
  intros HW Hs E. unfold slice_from, rel_index in E.
  apply (f_equal (@length char)) in E. rewrite length_skipn in E. simpl in E.
  assert (0 < length s)%nat by (destruct s; simpl; [congruence | lia]).
  destruct (W <? 0)%Z eqn:HW0.
  - apply Z.ltb_lt in HW0. lia.
  - apply Z.ltb_ge in HW0. replace W with 0%Z in E by lia. simpl in E. lia.
Qed.

(** With a width of zero or less the loop never ends: whatever the fuel,
    it is used up. *)
Lemma hardSplit_diverges (W : Z) :
  (W <= 0)%Z ->
  forall fuel lines s, s <> [] -> hardSplit fuel W lines s = None.
Proof.
  intros HW. induction fuel as [| fuel IH]; intros lines s Hs; simpl.
  - replace (len s >? W)%Z with true; auto.
    symmetry. apply Z.gtb_lt. unfold len. destruct s; simpl; [congruence | lia].
  - replace (len s >? W)%Z with true.
    + apply IH. now apply slice_from_stuck.
    + symmetry. apply Z.gtb_lt. unfold len.
      destruct s; simpl; [congruence | lia].
Qed.

Lemma wrapWord_diverges (fuel : nat) (W : Z) (lines : list str) (line w : str) :
  (W <= 0)%Z -> w <> [] -> URL_TOKEN_RE w = false ->
  wrapWord fuel W lines line w = None.
Proof.
  intros HW Hw Hu. unfold wrapWord. rewrite Hu. simpl.
  replace (len w >=? W)%Z with true.
  - now apply hardSplit_diverges.
  - symmetry. apply Z.geb_le. unfold len. lia.
Qed.

(** ** The code at concrete inputs *)

(** C1 -- idempotence, which the test suite asserts after every call, fails
    for a paragraph that starts with a URL longer than the width: the
    wrapper pushes the still empty current line before the URL, so each pass
    adds one more blank line in front of it. *)
Theorem idempotence_fails_on_long_url : forall fuel,
  let D := text ["http://example.com/a/very/long/path"; blank]%string in
  let once := text [blank; "http://example.com/a/very/long/path"; blank]%string in
  let twice := text [blank; blank; "http://example.com/a/very/long/path"; blank]%string in
  reflowTextAdoc fuel D 20 = Some once
  /\ reflowTextAdoc fuel once 20 = Some twice
  /\ once <> twice.
Proof.
  intros fuel. split; [| split].
  - vm_compute. reflexivity.
  - vm_compute. reflexivity.
  - vm_compute. discriminate.
Qed.

(** C4 -- a line of white space between two generic fences is not
    reproduced: the blank-line test comes before the fence test, and the
    line leaves as an empty line. *)
Theorem fence_blank_line_not_verbatim : forall fuel W,
  reflowTextAdoc fuel (text ["----"; "  "; "----"; blank]%string) W
  = Some (text ["----"; blank; "----"; blank]%string)
  /\ text ["----"; "  "; "----"; blank]%string <> text ["----"; blank; "----"; blank]%string.
Proof.
  intros fuel W. split; [vm_compute; reflexivity | vm_compute; discriminate].
Qed.

(** The same claim fails in a second way: a line of four dots is caught
    by the block-title test before the fence test, never opens a block,
    and the text between two such lines is reflowed. *)
Example dotted_fence_not_tracked : forall fuel,
  reflowTextAdoc fuel (text ["...."; "a   b"; "...."; blank]%string) 20
  = Some (text ["...."; "a b"; "...."; blank]%string).
Proof. intros fuel. vm_compute. reflexivity. Qed.

(** C5, as stated, fails: a table fence inside a generic fence turns table
    mode on, and two modes are active. *)
Lemma table_fence_inside_fence_toggles :
  exists st,
    scan 0 72 init 0 (split_lines (text ["----"; "|==="]%string)) = Some st
    /\ inFence st = true /\ inTable st = true.
Proof. eexists. vm_compute. repeat split. Qed.

(** C7, as stated, fails: a fence line inside a literal paragraph toggles
    fence mode. *)
Lemma fence_inside_literal_toggles :
  exists st,
    scan 0 72 init 0 (split_lines (text [" literal"; "----"]%string)) = Some st
    /\ inLiteralPara st = true /\ inFence st = true
    /\ out st = [lit " literal"; lit "----"].
Proof. eexists. vm_compute. repeat split. Qed.


(** C2, as stated, fails: a token as long as the width or longer is cut
    into pieces. *)
Lemma hard_split_changes_tokens :
  LIST_RE (lit "abcdefgh") = false /\ DEF_LIST_RE (lit "abcdefgh") = false
  /\ HARD_BREAK_RE (lit "abcdefgh") = false
  /\ reflowParagraph 8 [lit "abcdefgh"] 5 = Some [lit "abcde"; lit "fgh"]
  /\ tokens [lit "abcde"; lit "fgh"] <> tokens [lit "abcdefgh"].
Proof. vm_compute. repeat split. discriminate. Qed.


(** The same bound fails inside the wrapper too: a short word carried over
    to the next line can push that line past the width. *)
Example short_word_overflow :
  reflowTextAdoc 0 (lit "aaaaaaa bb ccccccccc") 10
  = Some (text ["aaaaaaa"; "bb ccccccccc"]%string).
Proof. vm_compute. reflexivity. Qed.

Lemma reflowParagraph_plain (fuel : nat) (W : Z) (l0 : str) (more : list str) :
  LIST_RE l0 = false -> DEF_LIST_RE l0 = false ->
  existsb HARD_BREAK_RE (l0 :: more) = false ->
  reflowParagraph fuel (l0 :: more) W =
    (let joined := trim (replace_ws (join (lit " ") (map trim (l0 :: more)))) in
     if negb (nonempty joined) then Some [[]]
     else wrapped <- wrapText fuel joined W [] ;;
          Some (split_char NL wrapped)).
Proof.
  unfold LIST_RE, DEF_LIST_RE, reflowParagraph. intros HL HD HH.
  destruct (LIST_RE_match l0); [discriminate |].
  destruct (DEF_LIST_RE_match l0); [discriminate |].
  now rewrite HH.
Qed.

(** C6, as stated, fails: at width 0 the hard-split loop of a plain
    paragraph never ends, so no amount of fuel gives a result. *)
Lemma width_zero_diverges :
  ~ exists fuel o, reflowTextAdoc fuel (lit "abc") 0 = Some o.
Proof.
  intros [fuel [o H]]. unfold reflowTextAdoc in H.
  replace (scan fuel 0 init 0 (split_lines (lit "abc")))
    with (Some (set_para [lit "abc"] init)) in H
    by (vm_compute; reflexivity).
  unfold flush in H. simpl para in H.
  rewrite reflowParagraph_plain in H by (vm_compute; reflexivity).
  replace (trim (replace_ws (join (lit " ") (map trim [lit "abc"]))))
    with (lit "abc") in H by (vm_compute; reflexivity).
  simpl negb in H. cbv iota in H.
  unfold wrapText, wrapLines in H.
  replace (words (lit "abc")) with [lit "abc"] in H
    by (vm_compute; reflexivity).
  simpl wrapWords in H.
  rewrite wrapWord_diverges in H;
    [discriminate | lia | vm_compute; discriminate | vm_compute; reflexivity].
Qed.

(** ** The scan, step by step *)

Lemma flush_empty (fuel : nat) (W : Z) (st : state) :
  para st = [] -> flush fuel W st = Some st.
Proof. intros H. unfold flush. now rewrite H. Qed.

Lemma flush_spec (fuel : nat) (W : Z) (st st1 : state) :
  flush fuel W st = Some st1 ->
  exists ls,
    st1 = mkState (out st ++ ls) [] (inFence st) (inOpen st) (inTable st)
                  (inCommentBlock st) (inLiteralPara st)
    /\ (para st = [] -> ls = [])
    /\ (para st <> [] -> reflowParagraph fuel (para st) W = Some ls).
Proof.
  unfold flush. destruct st as [o p f op t c l]; simpl.
  destruct p as [| l0 p].
  - intros H. inversion H; subst. exists []. rewrite app_nil_r.
    repeat split; auto; congruence.
  - destruct (reflowParagraph fuel (l0 :: p) W) as [ls |] eqn:E;
      [| discriminate].
    intros H. inversion H; subst. exists ls. repeat split; auto;
      discriminate.
Qed.

(** Case analysis on a run of [step]: every test and every partial call is
    split, a flush is replaced by what it leaves. *)
Ltac flush_inv :=
  match goal with
  | H : flush _ _ ?st = Some ?st1 |- _ =>
      let ls := fresh "ls" in
      let E := fresh "E" in
      let Hnil := fresh "Hnil" in
      let Hrun := fresh "Hrun" in
      destruct (flush_spec _ _ _ _ H) as [ls [E [Hnil Hrun]]];
      clear H; subst st1
  end.

Ltac step_split H :=
  repeat
    (match type of H with
     | context [if ?c then _ else _] => destruct c eqn:?
     | context [match flush ?f ?w ?st with _ => _ end] =>
         destruct (flush f w st) eqn:?
     | context [match ?o with Some _ => _ | None => _ end] =>
         destruct o eqn:?
     | context [match ?p with (_, _) => _ end] => destruct p
     | None = Some _ => discriminate H
     end; simpl in H);
  try (inversion H; subst; clear H).

Lemma step_para_prose (fuel : nat) (W : Z) (line : str) (rest : list str)
  (st st' : state) (k : nat) :
  para_prose st -> step fuel W line rest st = Some (st', k) ->
  para_prose st'.
Proof.
  intros Hp H. unfold step, flush_emit in H.
  step_split H; repeat flush_inv;
    unfold para_prose in *; simpl; auto.
  all: apply Forall_app; split; auto.
  all: constructor; auto.
  all: match goal with
       | Hl : LIST_RE _ || DEF_LIST_RE _ = false |- _ =>
           apply orb_false_iff in Hl; exact Hl
       end.
Qed.

Lemma scan_para_prose (fuel : nat) (W : Z) (src : list str) :
  forall st skip st',
    para_prose st -> scan fuel W st skip src = Some st' -> para_prose st'.
Proof.
  induction src as [| line rest IH]; simpl; intros st skip st' Hp H.
  - now inversion H; subst.
  - destruct skip as [| k]; [| eauto].
    destruct (step fuel W line rest st) as [[st1 k1] |] eqn:E;
      [| discriminate].
    simpl in H. eapply IH; [| exact H]. eapply step_para_prose; eauto.
Qed.

Lemma flush_hard_break (fuel : nat) (W : Z) (st : state) :
  para_prose st -> existsb HARD_BREAK_RE (para st) = true ->
  flush fuel W st = Some (set_para [] (emit_all (para st) st)).
Proof.
  unfold para_prose, flush. intros Hp Hh.
  destruct (para st) as [| l0 more] eqn:E; [discriminate |].
  inversion Hp as [| ? ? [HL HD] _]; subst.
  unfold reflowParagraph. unfold LIST_RE, DEF_LIST_RE in HL, HD.
  destruct (LIST_RE_match l0); [discriminate |].
  destruct (DEF_LIST_RE_match l0); [discriminate |].
  now rewrite Hh.
Qed.

(** C8 -- hard-break paragraphs are emitted as they are.  Whatever the scan
    has read, the paragraph buffer holds no list or definition-list line;
    so a buffered paragraph with a line that ends in white space and [+] is
    flushed line for line, at any width.  The document of the test suite
    reflows to itself at width 20. *)
Theorem hard_break_paragraph_verbatim :
  (forall fuel W src st,
      scan fuel W init 0 src = Some st -> para_prose st)
  /\ (forall fuel W st,
         para_prose st -> existsb HARD_BREAK_RE (para st) = true ->
         flush fuel W st = Some (set_para [] (emit_all (para st) st)))
  /\ (forall fuel,
         reflowTextAdoc fuel
           (text ["Line one +"; "line two +"; "line three"; blank]%string) 20
         = Some (text ["Line one +"; "line two +"; "line three"; blank]%string)).
Proof.
  split; [| split].
  - intros fuel W src st H. eapply scan_para_prose; [| exact H]. constructor.
  - exact flush_hard_break.
  - intros fuel. vm_compute. reflexivity.
Qed.

Lemma hard_break_paragraph_verbatim_witness :
  let st := set_para [lit "Line one +"; lit "line two"] init in
  para_prose st /\ existsb HARD_BREAK_RE (para st) = true
  /\ flush 0 5 st = Some (set_para [] (emit_all (para st) st)).
Proof.
  assert (Hp : para_prose (set_para [lit "Line one +"; lit "line two"] init)).
  { repeat constructor. }
  split; [exact Hp | split; [reflexivity |]].
  apply (proj1 (proj2 hard_break_paragraph_verbatim)); [exact Hp | reflexivity].
Defined.

(** ** Block modes *)

Lemma step_in_comment (fuel : nat) (W : Z) (line : str) (rest : list str)
  (st : state) :
  inCommentBlock st = true -> COMMENT_BLOCK_FENCE_RE (trim line) = false ->
  step fuel W line rest st = Some (emit line st, 0%nat).
Proof. intros Hc Hf. unfold step. now rewrite Hf, Hc. Qed.

Lemma step_in_table (fuel : nat) (W : Z) (line : str) (rest : list str)
  (st st' : state) (k : nat) :
  inCommentBlock st = false -> inTable st = true ->
  COMMENT_BLOCK_FENCE_RE (trim line) = false ->
  TABLE_FENCE_RE (trim line) = false ->
  step fuel W line rest st = Some (st', k) ->
  modes st' = modes st /\ k = 0%nat
  /\ exists ls, out st' = out st ++ ls ++ [line].
Proof.
  intros Hc Ht Hf Htf H. unfold step, flush_emit in H.
  rewrite Hf, Hc, Htf, Ht in H.
  step_split H; repeat flush_inv; unfold modes; simpl;
    repeat split; eauto.
  all: try (eexists; unfold push; rewrite <- app_assoc; reflexivity).
  exists []. reflexivity.
Qed.

(** The verbatim round trip holds in comment blocks and in tables: the
    lines between the opening and the closing fence are emitted as they
    are, blank lines and lines of white space included. *)
Lemma emit_all_cons (l : str) (ls : list str) (st : state) :
  emit_all ls (emit l st) = emit_all (l :: ls) st.
Proof.
  destruct st. unfold emit_all, emit, set_out, push. simpl.
  now rewrite <- app_assoc.
Qed.

Lemma emit_all_nil (st : state) : emit_all [] st = st.
Proof. destruct st. unfold emit_all, set_out. simpl. now rewrite app_nil_r. Qed.

Lemma comment_block_run (fuel : nat) (W : Z) (ls tl : list str) :
  forall st,
    inCommentBlock st = true ->
    Forall (fun l => COMMENT_BLOCK_FENCE_RE (trim l) = false) ls ->
    scan fuel W st 0 (ls ++ tl) = scan fuel W (emit_all ls st) 0 tl.
Proof.
  induction ls as [| l ls IH]; intros st Hc Hls.
  - now rewrite emit_all_nil.
  - inversion Hls as [| ? ? Hl Hls']; subst. cbn [app scan].
    rewrite (step_in_comment fuel W l (ls ++ tl) st Hc Hl). cbn [fst snd].
    rewrite IH; auto. now rewrite emit_all_cons.
Qed.

Lemma step_in_table_verbatim (fuel : nat) (W : Z) (line : str)
  (rest : list str) (st : state) :
  inCommentBlock st = false -> inTable st = true -> para st = [] ->
  COMMENT_BLOCK_FENCE_RE (trim line) = false ->
  TABLE_FENCE_RE (trim line) = false ->
  step fuel W line rest st = Some (emit line st, 0%nat).
Proof.
  intros Hc Ht Hp Hf Htf. unfold step, flush_emit.
  rewrite Hf, Hc, Htf, Ht, (flush_empty fuel W st Hp).
  destruct (LINE_COMMENT_RE line); [reflexivity |].
  destruct (structural_line line (trim line)); reflexivity.
Qed.

Lemma table_run (fuel : nat) (W : Z) (ls tl : list str) :
  forall st,
    inCommentBlock st = false -> inTable st = true -> para st = [] ->
    Forall (fun l => COMMENT_BLOCK_FENCE_RE (trim l) = false
                     /\ TABLE_FENCE_RE (trim l) = false) ls ->
    scan fuel W st 0 (ls ++ tl) = scan fuel W (emit_all ls st) 0 tl.
Proof.
  induction ls as [| l ls IH]; intros st Hc Ht Hp Hls.
  - now rewrite emit_all_nil.
  - inversion Hls as [| ? ? [Hl1 Hl2] Hls']; subst. cbn [app scan].
    rewrite (step_in_table_verbatim fuel W l (ls ++ tl) st Hc Ht Hp Hl1 Hl2).
    cbn [fst snd]. rewrite IH; auto. now rewrite emit_all_cons.
Qed.

(** ** Literal paragraphs *)

Lemma step_literal_entry (fuel : nat) (W : Z) (line : str) (rest : list str)
  (st : state) :
  caught_earlier line st = false ->
  para st = [] -> inLiteralPara st = false ->
  LEADING_SPACE_LINE_RE line = true ->
  step fuel W line rest st
  = Some (emit line (set_inLiteralPara true st), 0%nat).
Proof.
  unfold caught_earlier. intros Hc Hp Hl Hs.
  repeat (apply orb_false_iff in Hc; destruct Hc as [Hc ?]).
  unfold step, flush_emit.
  repeat match goal with
         | E : _ = false |- _ => rewrite E; clear E
         end.
  rewrite Hp, Hs, (flush_empty fuel W st Hp). reflexivity.
Qed.

Lemma step_literal (fuel : nat) (W : Z) (line : str) (rest : list str)
  (st : state) :
  inLiteralPara st = true -> para st = [] -> BLANK_RE line = false ->
  exists st',
    step fuel W line rest st = Some (st', 0%nat)
    /\ out st' = out st ++ [line]
    /\ inLiteralPara st' = true /\ para st' = [].
Proof.
  intros Hl Hp Hb. unfold step, flush_emit.
  rewrite (flush_empty fuel W st Hp), Hl, Hb, Hp.
  cbn [nonempty negb andb].
  repeat match goal with
         | |- context [if ?c then _ else _] => destruct c
         end;
    eexists; (split; [reflexivity |]); simpl; auto.
Qed.

Lemma literal_run (fuel : nat) (W : Z) (ls tl : list str) :
  forall st,
    inLiteralPara st = true -> para st = [] ->
    Forall (fun l => BLANK_RE l = false) ls ->
    exists st',
      scan fuel W st 0 (ls ++ tl) = scan fuel W st' 0 tl
      /\ out st' = out st ++ ls
      /\ inLiteralPara st' = true /\ para st' = [].
Proof.
  induction ls as [| l ls IH]; intros st Hl Hp Hb.
  - exists st. rewrite app_nil_r. auto.
  - inversion Hb as [| ? ? Hb1 Hb2]; subst.
    destruct (step_literal fuel W l (ls ++ tl) st Hl Hp Hb1)
      as [st1 [E [Ho [Hl1 Hp1]]]].
    destruct (IH st1 Hl1 Hp1 Hb2) as [st2 [E2 [Ho2 [Hl2 Hp2]]]].
    exists st2. simpl. rewrite E. simpl. rewrite E2, Ho2, Ho, <- app_assoc.
    auto.
Qed.

(** C7, amended -- a line that starts with one space and a non-space
    character, that no earlier test catches and that meets an empty
    paragraph buffer, is emitted unchanged and starts a literal paragraph;
    from then on every line up to the next blank line is emitted unchanged,
    whatever its kind.  (Delimiter lines among them still toggle their
    block modes.) *)
Theorem literal_paragraph_run :
  (forall fuel W line rest st,
      caught_earlier line st = false ->
      para st = [] -> inLiteralPara st = false ->
      LEADING_SPACE_LINE_RE line = true ->
      step fuel W line rest st
      = Some (emit line (set_inLiteralPara true st), 0%nat))
  /\ (forall fuel W ls tl st,
         inLiteralPara st = true -> para st = [] ->
         Forall (fun l => BLANK_RE l = false) ls ->
         exists st',
           scan fuel W st 0 (ls ++ tl) = scan fuel W st' 0 tl
           /\ out st' = out st ++ ls
           /\ inLiteralPara st' = true /\ para st' = []).
Proof.
  split; [exact step_literal_entry |].
  intros fuel W ls tl st. apply literal_run.
Qed.

Lemma literal_paragraph_run_witness :
  caught_earlier (lit " literal") init = false
  /\ para init = [] /\ inLiteralPara init = false
  /\ LEADING_SPACE_LINE_RE (lit " literal") = true
  /\ step 0 72 (lit " literal") [] init
     = Some (emit (lit " literal") (set_inLiteralPara true init), 0%nat).
Proof.
  repeat (split; [reflexivity |]).
  apply (proj1 literal_paragraph_run); reflexivity.
Defined.

(** ** Termination *)

Lemma terminates_ret {A : Type} (x : A) : terminates (fun _ => Some x).
Proof. exists 0%nat, x. auto. Qed.

Lemma terminates_bind {A B : Type} (f : nat -> option A)
  (g : A -> nat -> option B) :
  terminates f -> (forall x, terminates (g x)) ->
  terminates (fun fuel => x <- f fuel ;; g x fuel).
Proof.
  intros [n [r Hf]] Hg. destruct (Hg r) as [m [q Hq]].
  exists (Nat.max n m), q. intros fuel Hfuel.
  rewrite Hf by lia. apply Hq. lia.
Qed.

Lemma hardSplit_eq (fuel : nat) (W : Z) (lines : list str) (s : str) :
  hardSplit fuel W lines s =
    if (len s >? W)%Z then
      match fuel with
      | O => None
      | S fuel' =>
          hardSplit fuel' W (push lines (slice s 0 W)) (slice_from s W)
      end
    else Some (lines, s).
Proof. destruct fuel; reflexivity. Qed.

Section PositiveWidth.

Variable W : Z.
Hypothesis HW : (1 <= W)%Z.

Lemma slice_from_shorter (s : str) :
  (len s > W)%Z -> (length (slice_from s W) < length s)%nat.
Proof.
  unfold slice_from, rel_index, len. intros Hs.
  rewrite length_skipn.
  replace (W <? 0)%Z with false by (symmetry; apply Z.ltb_ge; lia). lia.
Qed.

(** Each turn of the loop shortens [s]: fuel for the length of [s] is
    enough. *)
Lemma hardSplit_terminates :
  forall n s lines, (length s <= n)%nat ->
    exists r, forall fuel, (n <= fuel)%nat ->
      hardSplit fuel W lines s = Some r.
Proof.
  induction n as [| n IH]; intros s lines Hn.
  - exists (lines, s). intros fuel _. rewrite hardSplit_eq.
    replace (len s >? W)%Z with false; auto.
    symmetry. rewrite Z.gtb_ltb. apply Z.ltb_ge. unfold len. lia.
  - destruct (len s >? W)%Z eqn:E.
    + assert (Hlt : (length (slice_from s W) <= n)%nat).
      { assert (length (slice_from s W) < length s)%nat
          by (apply slice_from_shorter; now apply Z.gtb_lt in E; lia).
        lia. }
      destruct (IH _ (push lines (slice s 0 W)) Hlt) as [r Hr].
      exists r. intros fuel Hfuel. rewrite hardSplit_eq, E.
      destruct fuel as [| fuel]; [lia |]. apply Hr. lia.
    + exists (lines, s). intros fuel _. now rewrite hardSplit_eq, E.
Qed.

Lemma wrapWord_terminates (lines : list str) (line w : str) :
  terminates (fun fuel => wrapWord fuel W lines line w).
Proof.
  unfold wrapWord.
  destruct (negb (URL_TOKEN_RE w) && (len w >=? W)%Z).
  - destruct (hardSplit_terminates (length w) w
                (if nonempty line then push lines line else lines)
                (le_n _)) as [r Hr].
    exists (length w), r. exact Hr.
  - repeat match goal with
           | |- context [if ?c then _ else _] => destruct c
           end; apply terminates_ret.
Qed.

Lemma wrapWords_terminates (toks : list str) :
  forall lines line,
    terminates (fun fuel => wrapWords fuel W toks lines line).
Proof.
  induction toks as [| w toks IH]; intros lines line; simpl.
  - apply terminates_ret.
  - apply (terminates_bind
             (fun fuel => wrapWord fuel W lines line w)
             (fun st fuel => wrapWords fuel W toks (fst st) (snd st))).
    + apply wrapWord_terminates.
    + intros st. apply IH.
Qed.

Lemma wrapText_terminates (body hanging : str) :
  terminates (fun fuel => wrapText fuel body W hanging).
Proof.
  unfold wrapText, wrapLines.
  destruct (wrapWords_terminates (words body) [] []) as [n [r Hr]].
  exists n. eexists. intros fuel Hfuel. rewrite (Hr fuel Hfuel).
  reflexivity.
Qed.

End PositiveWidth.

(** Termination of a computation on fuel built from the wrapper: tests
    are split, calls on fuel are chained with [terminates_bind].  The
    wrapper is called at the width itself or at a floor of 20. *)
Ltac term HW :=
  repeat first
    [ apply terminates_ret
    | apply wrapText_terminates; lia
    | match goal with
      | |- terminates (fun fuel => if ?c then _ else _) => destruct c
      | |- terminates (fun fuel => match ?p with (_, _) => _ end) =>
          destruct p
      | |- terminates
             (fun fuel => match LIST_RE_match ?l with _ => _ end) =>
          destruct (LIST_RE_match l) as [[[? ?] ?] |]
      | |- terminates
             (fun fuel => match DEF_LIST_RE_match ?l with _ => _ end) =>
          destruct (DEF_LIST_RE_match l) as [[[? ?] ?] |]
      | |- terminates
             (fun fuel => match ADMON_SINGLE_RE_match ?l with _ => _ end) =>
          destruct (ADMON_SINGLE_RE_match l) as [[? ?] |]
      | |- terminates (fun fuel => match ?l with [] => _ | _ :: _ => _ end) =>
          destruct l
      | H : forall lines, terminates _ |- _ => apply H
      | H : forall st, terminates _ |- _ => apply H
      end
    | apply terminates_bind; [| intros ? ] ].

Section PositiveWidthScan.

Variable W : Z.
Hypothesis HW : (1 <= W)%Z.

Lemma reflowParagraph_terminates (lines : list str) :
  terminates (fun fuel => reflowParagraph fuel lines W).
Proof. unfold reflowParagraph. term HW. Qed.

Lemma flush_terminates (st : state) :
  terminates (fun fuel => flush fuel W st).
Proof.
  unfold flush. pose proof reflowParagraph_terminates. term HW.
Qed.

Lemma step_terminates (line : str) (rest : list str) (st : state) :
  terminates (fun fuel => step fuel W line rest st).
Proof.
  unfold step, flush_emit.
  pose proof reflowParagraph_terminates. pose proof flush_terminates.
  term HW.
Qed.

Lemma scan_terminates (src : list str) :
  forall st skip, terminates (fun fuel => scan fuel W st skip src).
Proof.
  induction src as [| line rest IH]; intros st skip; simpl.
  - apply terminates_ret.
  - destruct skip as [| k]; [| apply IH].
    apply terminates_bind; [apply step_terminates |].
    intros r. apply IH.
Qed.

End PositiveWidthScan.

(** C6, amended -- [reflowTextAdoc] terminates for every input and every
    width of at least 1: some amount of fuel is enough, and any larger
    amount gives the same output. *)
Theorem reflowTextAdoc_terminates (input : str) (W : Z) :
  (1 <= W)%Z ->
  exists n o, forall fuel, (n <= fuel)%nat ->
    reflowTextAdoc fuel input W = Some o.
Proof.
  intros HW. change (terminates (fun fuel => reflowTextAdoc fuel input W)).
  unfold reflowTextAdoc.
  apply terminates_bind; [now apply scan_terminates |].
  intros st. apply terminates_bind; [now apply flush_terminates |].
  intros st1. apply terminates_ret.
Qed.

Lemma reflowTextAdoc_terminates_witness :
  (1 <= 1)%Z
  /\ exists n o, forall fuel, (n <= fuel)%nat ->
       reflowTextAdoc fuel (lit "abc") 1 = Some o.
Proof. split; [lia | apply reflowTextAdoc_terminates; lia]. Defined.

Example width_one_hard_splits :
  reflowTextAdoc 3 (lit "abc") 1 = Some (text ["a"; "b"; "c"]%string).
Proof. vm_compute. reflexivity. Qed.

(** ** Tokens *)

Lemma split_ws_space_head (c : char) (s : str) :
  is_space c = true -> exists t, split_ws (c :: s) = [] :: t.
Proof.
  revert c. induction s as [| y s IH]; intros c Hc; simpl; rewrite Hc.
  - eauto.
  - destruct (is_space y) eqn:Hy; [| eauto].
    destruct (IH y Hy) as [t Ht]. simpl in Ht. rewrite Hy in Ht. eauto.
Qed.

Lemma split_ws_ink_head (c : char) (s : str) :
  is_space c = false -> exists h t, split_ws (c :: s) = (c :: h) :: t.
Proof.
  intros Hc. simpl. rewrite Hc. destruct (split_ws s); eauto.
Qed.

Lemma words_nil : words [] = [].
Proof. reflexivity. Qed.

Lemma words_space (c : char) (s : str) :
  is_space c = true -> words (c :: s) = words s.
Proof.
  intros Hc. unfold words. simpl. rewrite Hc.
  destruct s as [| y s]; [reflexivity |].
  destruct (is_space y); reflexivity.
Qed.

Lemma words_ink (c : char) (s : str) :
  is_space c = false ->
  words (c :: s) =
    if starts_space s then [c] :: words s
    else match words s with
         | w :: ws => (c :: w) :: ws
         | [] => [[c]]
         end.
Proof.
  intros Hc. destruct s as [| y s].
  - unfold words. simpl. now rewrite Hc.
  - unfold starts_space. destruct (is_space y) eqn:Hy.
    + destruct (split_ws_space_head y s Hy) as [t Ht].
      unfold words. change (split_ws (c :: y :: s))
        with (let r := split_ws (y :: s) in
              if is_space c then
                (if is_space y then r else [] :: r)
              else match r with
                   | h :: t => (c :: h) :: t
                   | [] => [[c]]
                   end).
      cbv zeta. rewrite Hc, Ht. reflexivity.
    + destruct (split_ws_ink_head y s Hy) as [h [t Ht]].
      unfold words. change (split_ws (c :: y :: s))
        with (let r := split_ws (y :: s) in
              if is_space c then
                (if is_space y then r else [] :: r)
              else match r with
                   | h :: t => (c :: h) :: t
                   | [] => [[c]]
                   end).
      cbv zeta. rewrite Hc, Ht. reflexivity.
Qed.

Lemma words_ink_cons (c : char) (s : str) :
  is_space c = false -> exists w ws, words (c :: s) = (c :: w) :: ws.
Proof.
  intros Hc. rewrite (words_ink c s Hc).
  destruct (starts_space s); [eauto |].
  destruct (words s); eauto.
Qed.

Lemma words_all_space (s : str) :
  forallb is_space s = true -> words s = [].
Proof.
  induction s as [| c s IH]; simpl; intros H; [reflexivity |].
  apply andb_true_iff in H. destruct H as [Hc Hs].
  rewrite (words_space c s Hc). auto.
Qed.

(** Cutting at a white-space character cuts the tokens. *)
Lemma words_app_space (a b : str) (c : char) :
  is_space c = true -> words (a ++ c :: b) = words a ++ words b.
Proof.
  intros Hc. induction a as [| x a IH]; cbn [app].
  - now rewrite words_space.
  - destruct (is_space x) eqn:Hx.
    + now rewrite !words_space.
    + rewrite !(words_ink x _ Hx), IH.
      destruct a as [| y a]; cbn [app starts_space].
      * rewrite Hc. reflexivity.
      * destruct (is_space y) eqn:Hy; [reflexivity |].
        destruct (words_ink_cons y a Hy) as [w [ws E]].
        rewrite E. reflexivity.
Qed.

Lemma words_token (w : str) : is_token w = true -> words w = [w].
Proof.
  unfold is_token. induction w as [| c w IH]; simpl; [discriminate |].
  intros H. apply andb_true_iff in H. destruct H as [Hc Hw].
  apply negb_true_iff in Hc. rewrite (words_ink c w Hc).
  destruct w as [| y w]; [reflexivity |].
  simpl in *. apply andb_true_iff in Hw. destruct Hw as [Hy Hw'].
  rewrite (negb_true_iff _) in Hy. rewrite Hy.
  rewrite IH; [reflexivity |]. now rewrite Hy, Hw'.
Qed.

Lemma words_are_tokens (s : str) :
  Forall (fun w => is_token w = true) (words s).
Proof.
  induction s as [| c s IH]; [constructor |].
  destruct (is_space c) eqn:Hc.
  - now rewrite words_space.
  - rewrite (words_ink c s Hc). destruct (starts_space s).
    + constructor; auto. unfold is_token. simpl. now rewrite Hc.
    + destruct (words s) as [| w ws].
      * constructor; auto. unfold is_token. simpl. now rewrite Hc.
      * inversion IH as [| ? ? Hw Hws]; subst. constructor; auto.
        unfold is_token in *. simpl. rewrite Hc. simpl.
        now apply andb_true_iff in Hw.
Qed.

Lemma drop_space_split (s : str) :
  exists sp, s = sp ++ drop_space s /\ forallb is_space sp = true.
Proof.
  induction s as [| c s [sp [E H]]]; simpl.
  - exists []. auto.
  - destruct (is_space c) eqn:Hc.
    + exists (c :: sp). simpl. rewrite Hc, H. split; [congruence | reflexivity].
    + exists []. auto.
Qed.

Lemma words_drop_space (s : str) : words (drop_space s) = words s.
Proof.
  induction s as [| c s IH]; simpl; auto.
  destruct (is_space c) eqn:Hc; auto. now rewrite words_space.
Qed.

Lemma words_app_all_space (s t : str) :
  forallb is_space t = true -> words (s ++ t) = words s.
Proof.
  destruct t as [| c t]; simpl; intros H.
  - now rewrite app_nil_r.
  - apply andb_true_iff in H. destruct H as [Hc Ht].
    rewrite (words_app_space s t c Hc), (words_all_space t Ht).
    apply app_nil_r.
Qed.

Lemma forallb_rev {A : Type} (f : A -> bool) (l : list A) :
  forallb f (rev l) = forallb f l.
Proof.
  induction l as [| x l IH]; simpl; auto.
  rewrite forallb_app, IH. simpl. rewrite andb_true_r. apply andb_comm.
Qed.

Lemma words_trim (s : str) : words (trim s) = words s.
Proof.
  unfold trim. rewrite <- (words_drop_space s).
  destruct (drop_space_split (rev (drop_space s))) as [sp [E H]].
  remember (drop_space (rev (drop_space s))) as d eqn:Ed. clear Ed.
  assert (E' : drop_space s = rev d ++ rev sp)
    by (now rewrite <- rev_app_distr, <- E, rev_involutive).
  rewrite E', words_app_all_space; auto.
  now rewrite forallb_rev.
Qed.

Lemma starts_space_replace_ws (s : str) :
  starts_space (replace_ws s) = starts_space s.
Proof.
  induction s as [| c s IH]; simpl; auto.
  destruct (is_space c) eqn:Hc; simpl; auto.
  destruct s as [| y s]; simpl; auto.
  destruct (is_space y) eqn:Hy; simpl; auto.
  simpl in IH. now rewrite Hy in IH.
Qed.

Lemma words_replace_ws (s : str) : words (replace_ws s) = words s.
Proof.
  induction s as [| c s IH]; auto.
  destruct (is_space c) eqn:Hc.
  - rewrite (words_space c s Hc). simpl. rewrite Hc.
    destruct s as [| y s]; [reflexivity |].
    destruct (is_space y); auto.
    now rewrite words_space.
  - simpl replace_ws. rewrite Hc.
    rewrite !(words_ink c _ Hc), starts_space_replace_ws, IH. reflexivity.
Qed.

Lemma join_cons (sep x : str) (y : str) (l : list str) :
  join sep (x :: y :: l) = x ++ sep ++ join sep (y :: l).
Proof. reflexivity. Qed.

Lemma words_join (c : char) (ls : list str) :
  is_space c = true -> words (join [c] ls) = flat_map words ls.
Proof.
  intros Hc. induction ls as [| x ls IH]; [reflexivity |].
  destruct ls as [| y ls].
  - simpl. now rewrite app_nil_r.
  - rewrite join_cons. cbn [app flat_map].
    rewrite (words_app_space x _ c Hc), IH. reflexivity.
Qed.

Lemma flat_map_words_trim (ls : list str) :
  flat_map words (map trim ls) = flat_map words ls.
Proof.
  induction ls as [| x ls IH]; simpl; auto. now rewrite words_trim, IH.
Qed.

Lemma split_char_cons (sep : char) (s : str) :
  exists h t, split_char sep s = h :: t.
Proof.
  destruct s as [| c s]; simpl; [eauto |].
  destruct (c =? sep); [eauto |]. destruct (split_char sep s); eauto.
Qed.

Lemma join_split_char (sep : char) (s : str) :
  join [sep] (split_char sep s) = s.
Proof.
  induction s as [| c s IH]; [reflexivity |].
  simpl split_char. destruct (split_char_cons sep s) as [h [t E]].
  rewrite E in *. destruct (c =? sep) eqn:Hc.
  - apply N.eqb_eq in Hc. subst c. rewrite join_cons, IH. reflexivity.
  - destruct t as [| y t].
    + simpl in *. now rewrite IH.
    + rewrite join_cons in *. rewrite <- IH. reflexivity.
Qed.

Lemma join_snoc (sep : str) (init : list str) (x : str) :
  init <> [] -> join sep (init ++ [x]) = join sep init ++ sep ++ x.
Proof.
  induction init as [| y init IH]; [congruence |]. intros _.
  destruct init as [| z init].
  - reflexivity.
  - change ((y :: z :: init) ++ [x]) with (y :: (z :: init) ++ [x]).
    cbn [app]. rewrite !join_cons. cbn [app] in IH.
    rewrite IH by discriminate. now rewrite <- !app_assoc.
Qed.

Lemma hang_nil (lines : list str) : hang [] lines = lines.
Proof.
  destruct lines as [| l ls]; simpl; auto. f_equal.
  induction ls; simpl; auto. now f_equal.
Qed.

(** The tokens of a paragraph are those of its lines, in order. *)
Lemma tokens_flat_map (lines : list str) :
  tokens lines = flat_map words lines.
Proof. unfold tokens. now apply words_join. Qed.

(** ** Word preservation in the wrapper *)

Lemma lit_space : lit " " = [SP].
Proof. reflexivity. Qed.

Lemma words_snoc_token (line w : str) :
  is_token w = true -> words (line ++ [SP] ++ w) = words line ++ [w].
Proof.
  intros Hw. cbn [app].
  rewrite (words_app_space line w SP eq_refl), (words_token w Hw).
  reflexivity.
Qed.

Lemma words_pull (line w : str) :
  let parts := split_char SP line in
  (1 < length parts)%nat -> is_token w = true ->
  words (join [SP] (removelast parts)) ++ words (last parts [] ++ [SP] ++ w)
  = words line ++ [w].
Proof.
  intros parts Hlen Hw.
  assert (Hparts : parts <> []) by (destruct parts; simpl in *; [lia | discriminate]).
  assert (Hinit : removelast parts <> []).
  { destruct parts as [| p1 [| p2 ps]]; simpl in *; try lia. discriminate. }
  assert (E : join [SP] parts
              = join [SP] (removelast parts) ++ [SP] ++ last parts []).
  { rewrite <- (join_snoc [SP] _ _ Hinit). f_equal.
    now apply app_removelast_last. }
  rewrite (words_snoc_token _ w Hw), app_assoc. f_equal.
  transitivity (words (join [SP] parts)).
  - rewrite E. cbn [app]. now rewrite (words_app_space _ _ SP eq_refl).
  - unfold parts. now rewrite join_split_char.
Qed.

Lemma wrapWord_tokens (fuel : nat) (W : Z) (lines : list str) (line w : str) :
  is_token w = true ->
  URL_TOKEN_RE w = true \/ (len w <= W)%Z ->
  exists r,
    wrapWord fuel W lines line w = Some r
    /\ flat_map words (fst r) ++ words (snd r)
       = (flat_map words lines ++ words line) ++ [w].
Proof.
  intros Hw Hfit. unfold wrapWord. rewrite lit_space.
  destruct (negb (URL_TOKEN_RE w) && (len w >=? W)%Z) eqn:Hhard.
  { (* a token of exactly the width: the loop does not run *)
    apply andb_true_iff in Hhard. destruct Hhard as [Hu Hge].
    apply negb_true_iff in Hu. rewrite Z.geb_leb in Hge.
    apply Z.leb_le in Hge.
    destruct Hfit as [Hurl | Hle]; [congruence |].
    rewrite hardSplit_eq.
    assert (Hgt : (len w >? W)%Z = false)
      by (rewrite Z.gtb_ltb; apply Z.ltb_ge; lia).
    rewrite Hgt. eexists. split; [reflexivity |]. cbn [fst snd].
    rewrite (words_token w Hw).
    destruct line as [| c line]; cbn [nonempty].
    - now rewrite words_nil, app_nil_r.
    - unfold push. rewrite flat_map_app. cbn [flat_map].
      now rewrite app_nil_r. }
  cbv zeta.
  match goal with
  | |- context [(len ?cand >? W)%Z] => destruct (len cand >? W)%Z
  end.
  - destruct (nonempty line && (len (last (split_char SP line) []) <=? 2)%Z
              && (1 <? length (split_char SP line))%nat) eqn:Hpull.
    + eexists. split; [reflexivity |]. cbn [fst snd]. unfold push.
      rewrite flat_map_app. cbn [flat_map]. rewrite app_nil_r.
      apply andb_true_iff in Hpull. destruct Hpull as [_ Hlen].
      apply Nat.ltb_lt in Hlen.
      rewrite <- !app_assoc. f_equal. now apply words_pull.
    + eexists. split; [reflexivity |]. cbn [fst snd]. unfold push.
      rewrite flat_map_app. cbn [flat_map]. rewrite app_nil_r.
      now rewrite (words_token w Hw).
  - eexists. split; [reflexivity |]. cbn [fst snd].
    destruct line as [| c line]; cbn [nonempty].
    + rewrite (words_token w Hw). rewrite words_nil. now rewrite app_nil_r.
    + rewrite (words_snoc_token _ w Hw). now rewrite app_assoc.
Qed.

Lemma wrapWords_tokens (fuel : nat) (W : Z) (toks : list str) :
  Forall (fun w => is_token w = true) toks ->
  Forall (fun w => URL_TOKEN_RE w = true \/ (len w <= W)%Z) toks ->
  forall lines line,
  exists r,
    wrapWords fuel W toks lines line = Some r
    /\ flat_map words (fst r) ++ words (snd r)
       = (flat_map words lines ++ words line) ++ toks.
Proof.
  induction toks as [| w toks IH]; intros Ht Hf lines line; simpl.
  - exists (lines, line). now rewrite app_nil_r.
  - inversion Ht as [| ? ? Hw Ht']; inversion Hf as [| ? ? Hfw Hf']; subst.
    destruct (wrapWord_tokens fuel W lines line w Hw Hfw) as [r [E1 E2]].
    rewrite E1. destruct (IH Ht' Hf' (fst r) (snd r)) as [r' [E3 E4]].
    exists r'. split; [exact E3 |]. rewrite E4, E2. now rewrite <- app_assoc.
Qed.

Lemma wrapText_tokens (fuel : nat) (W : Z) (body : str) :
  Forall (fun w => URL_TOKEN_RE w = true \/ (len w <= W)%Z) (words body) ->
  exists wrapped,
    wrapText fuel body W [] = Some wrapped /\ words wrapped = words body.
Proof.
  intros Hf. unfold wrapText, wrapLines.
  destruct (wrapWords_tokens fuel W (words body) (words_are_tokens body) Hf
              [] []) as [[lines line] [E1 E2]].
  rewrite E1. cbn [fst snd] in *. eexists. split; [reflexivity |].
  rewrite hang_nil, (words_join NL _ eq_refl).
  simpl in E2. rewrite <- E2.
  destruct line as [| c line]; cbn [nonempty].
  - now rewrite words_nil, app_nil_r.
  - unfold push. rewrite flat_map_app. simpl. now rewrite app_nil_r.
Qed.

Lemma reflowParagraph_tokens (fuel : nat) (W : Z) (lines : list str) :
  LIST_RE (hd [] lines) = false -> DEF_LIST_RE (hd [] lines) = false ->
  existsb HARD_BREAK_RE lines = false ->
  (forall w, In w (tokens lines) ->
             URL_TOKEN_RE w = true \/ (len w <= W)%Z) ->
  exists o,
    reflowParagraph fuel lines W = Some o /\ tokens o = tokens lines.
Proof.
  intros HL HD HH Hfit. destruct lines as [| l0 more].
  - exists []. split; reflexivity.
  - simpl hd in *. rewrite (reflowParagraph_plain fuel W l0 more HL HD HH).
    cbv zeta.
    assert (Hw : words (trim (replace_ws (join (lit " ")
                                            (map trim (l0 :: more)))))
                 = tokens (l0 :: more)).
    { rewrite words_trim, words_replace_ws, lit_space,
        (words_join SP _ eq_refl), flat_map_words_trim.
      symmetry. apply tokens_flat_map. }
    destruct (trim (replace_ws (join (lit " ") (map trim (l0 :: more)))))
      as [| c joined] eqn:Ej; cbn [nonempty negb].
    + exists [[]]. split; [reflexivity |]. now rewrite <- Hw.
    + rewrite <- Ej in *. clear Ej.
      destruct (wrapText_tokens fuel W
                  (trim (replace_ws (join (lit " ") (map trim (l0 :: more))))))
        as [wrapped [E1 E2]].
      { rewrite Hw. apply Forall_forall. exact Hfit. }
      rewrite E1. eexists. split; [reflexivity |].
      unfold tokens at 1. now rewrite join_split_char, E2.
Qed.

(** ** The width bound in the wrapper *)

Lemma split_char_none (sep : char) (t : str) :
  forallb (fun c => negb (c =? sep)) t = true -> split_char sep t = [t].
Proof.
  induction t as [| c t IH]; simpl; auto. intros H.
  apply andb_true_iff in H. destruct H as [Hc Ht].
  apply negb_true_iff in Hc. now rewrite Hc, (IH Ht).
Qed.

Lemma split_char_app (sep : char) (t s : str) :
  forallb (fun c => negb (c =? sep)) t = true ->
  split_char sep (t ++ sep :: s) = t :: split_char sep s.
Proof.
  induction t as [| c t IH]; cbn [app forallb]; intros H.
  - simpl. now rewrite N.eqb_refl.
  - apply andb_true_iff in H. destruct H as [Hc Ht].
    apply negb_true_iff in Hc. simpl. now rewrite Hc, (IH Ht).
Qed.

Lemma split_char_join (sep : char) (ts : list str) :
  ts <> [] ->
  Forall (fun t => forallb (fun c => negb (c =? sep)) t = true) ts ->
  split_char sep (join [sep] ts) = ts.
Proof.
  induction ts as [| t ts IH]; [congruence |]. intros _ H.
  inversion H as [| ? ? Ht Hts]; subst. destruct ts as [| t2 ts].
  - simpl. now apply split_char_none.
  - rewrite join_cons. cbn [app].
    rewrite (split_char_app sep t _ Ht), IH; auto. discriminate.
Qed.

Lemma token_avoids (sep : char) (t : str) :
  is_space sep = true -> is_token t = true ->
  forallb (fun c => negb (c =? sep)) t = true.
Proof.
  unfold is_token. intros Hs H. apply andb_true_iff in H.
  destruct H as [_ H]. rewrite forallb_forall in *. intros c Hc.
  specialize (H c Hc). apply negb_true_iff in H. apply negb_true_iff.
  apply N.eqb_neq. intros ->. congruence.
Qed.

Lemma tokens_avoid (sep : char) (ts : list str) :
  is_space sep = true -> Forall (fun t => is_token t = true) ts ->
  Forall (fun t => forallb (fun c => negb (c =? sep)) t = true) ts.
Proof.
  intros Hs H. induction H; constructor; auto using token_avoids.
Qed.

Lemma no_newline_join (ts : list str) :
  Forall (fun t => is_token t = true) ts ->
  no_newline (join [SP] ts) = true.
Proof.
  unfold no_newline. induction ts as [| t ts IH]; [reflexivity |].
  intros H. inversion H as [| ? ? Ht Hts]; subst.
  destruct ts as [| t2 ts].
  - simpl. now apply (token_avoids NL).
  - rewrite join_cons, !forallb_app, IH; auto.
    rewrite (token_avoids NL t eq_refl Ht). reflexivity.
Qed.






Lemma Forall_removelast {A : Type} (P : A -> Prop) (l : list A) :
  Forall P l -> Forall P (removelast l).
Proof.
  induction l as [| x l IH]; intros H; [constructor |].
  inversion H; subst. destruct l as [| y l]; [constructor |].
  change (removelast (x :: y :: l)) with (x :: removelast (y :: l)).
  constructor; auto.
Qed.

Lemma Forall_last {A : Type} (P : A -> Prop) (l : list A) (d : A) :
  l <> [] -> Forall P l -> P (last l d).
Proof.
  induction l as [| x l IH]; [congruence |]. intros _ H.
  inversion H; subst. destruct l as [| y l]; [assumption |].
  change (last (x :: y :: l) d) with (last (y :: l) d).
  apply IH; [discriminate | assumption].
Qed.









(** ** Where the output ends *)

Lemma ends_clean_last (a : str) (c : char) :
  ends_clean (a ++ [c]) = negb (c =? NL).
Proof.
  unfold ends_clean, ends_with_newline. rewrite rev_app_distr. simpl.
  destruct a; reflexivity.
Qed.

Lemma ends_clean_inv (l : str) :
  ends_clean l = true -> exists a c, l = a ++ [c] /\ (c =? NL) = false.
Proof.
  destruct l as [| x l] using rev_ind; [discriminate |].
  rewrite ends_clean_last. intros H. apply negb_true_iff in H. eauto.
Qed.

Lemma ends_clean_app (a b : str) :
  ends_clean b = true -> ends_clean (a ++ b) = true.
Proof.
  intros H. destruct (ends_clean_inv b H) as [b' [c [-> Hc]]].
  rewrite app_assoc, ends_clean_last. now rewrite Hc.
Qed.

Lemma ends_clean_not_newline (l : str) :
  ends_clean l = true -> ends_with_newline l = false.
Proof.
  unfold ends_clean. intros H. apply andb_true_iff in H.
  destruct H as [_ H]. now apply negb_true_iff in H.
Qed.

Lemma ends_clean_plain (l : str) :
  l <> [] -> no_newline l = true -> ends_clean l = true.
Proof.
  destruct l as [| x l] using rev_ind; [congruence |]. intros _ H.
  rewrite ends_clean_last. unfold no_newline in H.
  rewrite forallb_app in H. apply andb_true_iff in H.
  destruct H as [_ H]. simpl in H. now rewrite andb_true_r in H.
Qed.


Lemma ends_clean_join (sep : str) (init : list str) (l : str) :
  ends_clean l = true -> ends_clean (join sep (init ++ [l])) = true.
Proof.
  intros H. destruct init as [| x init]; [exact H |].
  rewrite join_snoc by discriminate.
  rewrite app_assoc. now apply ends_clean_app.
Qed.





















Lemma split_lines_cons (s : str) : split_lines s <> [].
Proof.
  induction s as [| c s IH]; simpl; [discriminate |].
  destruct (c =? NL); [discriminate |].
  destruct ((c =? CR) && _); [exact IH |].
  destruct (split_lines s); discriminate.
Qed.


(** ** Reflowing changes white space only *)

Lemma ink_of_app (a b : str) : ink_of (a ++ b) = ink_of a ++ ink_of b.
Proof. apply filter_app. Qed.

Lemma ink_of_all_space (s : str) :
  forallb is_space s = true -> ink_of s = [].
Proof.
  induction s as [| c s IH]; simpl; [reflexivity |].
  intros H. apply andb_true_iff in H. destruct H as [Hc Hs].
  rewrite Hc. simpl. auto.
Qed.

Lemma ink_of_inv (s : str) :
  ink_of s = [] -> forallb is_space s = true.
Proof.
  induction s as [| c s IH]; simpl; [reflexivity |].
  destruct (is_space c); simpl; [exact IH | discriminate].
Qed.

Lemma ink_of_idem (s : str) : ink_of (ink_of s) = ink_of s.
Proof.
  induction s as [| c s IH]; simpl; [reflexivity |].
  destruct (is_space c) eqn:E; simpl; [exact IH |].
  rewrite E. simpl. now rewrite IH.
Qed.

Lemma ink_of_spaces (n : nat) : ink_of (spaces n) = [].
Proof. induction n; simpl; auto. Qed.

Lemma ink_of_drop_space (s : str) : ink_of (drop_space s) = ink_of s.
Proof.
  induction s as [| c s IH]; simpl; [reflexivity |].
  destruct (is_space c) eqn:E; simpl; [exact IH | now rewrite E].
Qed.

Lemma ink_of_rev (s : str) : ink_of (rev s) = rev (ink_of s).
Proof.
  induction s as [| c s IH]; simpl; [reflexivity |].
  rewrite ink_of_app, IH. simpl.
  destruct (is_space c); simpl; [now rewrite app_nil_r | reflexivity].
Qed.

Lemma ink_of_trim (s : str) : ink_of (trim s) = ink_of s.
Proof.
  unfold trim.
  now rewrite ink_of_rev, ink_of_drop_space, ink_of_rev, rev_involutive,
    ink_of_drop_space.
Qed.

Lemma ink_of_replace_ws (s : str) : ink_of (replace_ws s) = ink_of s.
Proof.
  induction s as [| c s IH]; [reflexivity |].
  cbn [replace_ws]. destruct (is_space c) eqn:E.
  - cbn [ink_of filter]. rewrite E. cbn [negb].
    destruct s as [| c' s]; [reflexivity |].
    destruct (is_space c') eqn:E'; [exact IH |].
    cbn [ink_of filter]. change (is_space SP) with true. cbn [negb].
    exact IH.
  - cbn [ink_of filter]. rewrite E. cbn [negb]. f_equal. exact IH.
Qed.

Lemma ink_of_join (sep : str) (ls : list str) :
  forallb is_space sep = true -> ink_of (join sep ls) = ink_of (concat ls).
Proof.
  intros Hsep. induction ls as [| l ls IH]; [reflexivity |].
  destruct ls as [| l' ls].
  - cbn [join concat]. now rewrite app_nil_r.
  - rewrite join_cons.
    change (concat (l :: l' :: ls)) with (l ++ concat (l' :: ls)).
    rewrite !ink_of_app, IH. now rewrite (ink_of_all_space sep Hsep).
Qed.

Lemma ink_of_map_trim (ls : list str) :
  ink_of (concat (map trim ls)) = ink_of (concat ls).
Proof.
  induction ls as [| l ls IH]; [reflexivity |].
  cbn [map concat]. now rewrite !ink_of_app, ink_of_trim, IH.
Qed.

Lemma concat_words (s : str) : concat (words s) = ink_of s.
Proof.
  induction s as [| c s IH]; [reflexivity |].
  destruct (is_space c) eqn:E.
  - rewrite (words_space c s E). cbn [ink_of filter]. rewrite E. exact IH.
  - rewrite (words_ink c s E). cbn [ink_of filter]. rewrite E. cbn [negb].
    fold (ink_of s). rewrite <- IH.
    destruct (starts_space s); [reflexivity |].
    destruct (words s); reflexivity.
Qed.

Lemma ink_of_split_lines (s : str) : ink_of (concat (split_lines s)) = ink_of s.
Proof.
  induction s as [| c s IH]; [reflexivity |].
  cbn [split_lines].
  destruct (c =? NL) eqn:En.
  - apply N.eqb_eq in En. subst c. cbn [concat app]. exact IH.
  - destruct ((c =? CR) && _) eqn:Ec.
    + apply andb_true_iff in Ec. destruct Ec as [Ec _].
      apply N.eqb_eq in Ec. subst c. exact IH.
    + assert (E : concat (match split_lines s with
                          | h :: t => (c :: h) :: t
                          | [] => [[c]]
                          end) = c :: concat (split_lines s)).
      { pose proof (split_lines_cons s).
        destruct (split_lines s); [congruence | reflexivity]. }
      rewrite E. cbn [ink_of filter]. fold (ink_of (concat (split_lines s))).
      fold (ink_of s). now rewrite IH.
Qed.

Lemma ink_of_split_char (s : str) :
  ink_of (concat (split_char NL s)) = ink_of s.
Proof.
  rewrite <- (ink_of_join [NL]) by reflexivity. now rewrite join_split_char.
Qed.

(** What the white-space patterns match is white space. *)
Lemma lang_star_ws (w : str) : lang (Star ws) w -> forallb is_space w = true.
Proof.
  rewrite <- full_spec. fold (BLANK_RE w). now rewrite BLANK_RE_spec.
Qed.

Lemma lang_plus_ws (w : str) : lang (Plus ws) w -> forallb is_space w = true.
Proof.
  intros H. apply lang_star_ws. apply full_spec. apply full_spec in H.
  unfold Plus in H. destruct w as [| c w]; [discriminate |].
  cbn [full] in *. cbn [deriv ws] in *.
  destruct (mem CSpace c); cbn [seq' alt'] in *.
  - exact H.
  - now rewrite full_Empty in H.
Qed.

Lemma concat_push (lines : list str) (l : str) :
  concat (push lines l) = concat lines ++ l.
Proof. unfold push. rewrite concat_app. cbn [concat]. now rewrite app_nil_r. Qed.

Lemma slice_slice_from (s : str) (W : Z) : slice s 0 W ++ slice_from s W = s.
Proof.
  unfold slice, slice_from.
  change (rel_index (length s) 0) with 0%nat.
  rewrite Nat.sub_0_r. cbn [skipn]. apply firstn_skipn.
Qed.

Lemma hardSplit_concat (W : Z) (fuel : nat) :
  forall lines s r,
    hardSplit fuel W lines s = Some r ->
    concat (fst r) ++ snd r = concat lines ++ s.
Proof.
  induction fuel as [| fuel IH]; intros lines s r H; rewrite hardSplit_eq in H.
  - destruct (len s >? W)%Z; [discriminate |]. now inversion H.
  - destruct (len s >? W)%Z; [| now inversion H].
    apply IH in H. rewrite H, concat_push, <- app_assoc.
    now rewrite slice_slice_from.
Qed.

Lemma wrapWord_ink (fuel : nat) (W : Z) (lines : list str) (line w : str)
  (r : list str * str) :
  wrapWord fuel W lines line w = Some r ->
  ink_of (concat (fst r) ++ snd r) = ink_of (concat lines ++ line) ++ ink_of w.
Proof.
  unfold wrapWord. rewrite lit_space. intros H.
  destruct (negb (URL_TOKEN_RE w) && (len w >=? W)%Z).
  - apply hardSplit_concat in H. rewrite H, ink_of_app. do 2 f_equal.
    destruct line; cbn [nonempty]; [now rewrite app_nil_r | apply concat_push].
  - destruct (len (if nonempty line then line ++ [SP] ++ w else w) >? W)%Z.
    + destruct (nonempty line && (len (last (split_char SP line) []) <=? 2)%Z
                && (1 <? length (split_char SP line))%nat) eqn:Epull.
      * inversion H; subst; clear H. cbn [fst snd].
        rewrite concat_push, !ink_of_app.
        rewrite (ink_of_join [SP]) by reflexivity.
        change (ink_of [SP]) with (@nil N). cbn [app].
        rewrite <- !app_assoc. f_equal. rewrite app_assoc. f_equal.
        rewrite <- ink_of_app.
        rewrite <- (join_split_char SP line) at 3.
        rewrite (ink_of_join [SP]) by reflexivity.
        destruct (split_char_cons SP line) as [h [t E]].
        assert (Hne : split_char SP line <> []) by (rewrite E; discriminate).
        rewrite (app_removelast_last [] Hne) at 3.
        rewrite concat_app. cbn [concat]. now rewrite app_nil_r.
      * inversion H; subst; clear H. cbn [fst snd].
        now rewrite concat_push, !ink_of_app.
    + inversion H; subst; clear H. cbn [fst snd].
      destruct line; cbn [nonempty].
      * now rewrite !app_nil_r, ink_of_app.
      * rewrite !ink_of_app. change (ink_of [SP]) with (@nil N).
        cbn [app]. now rewrite <- !app_assoc.
Qed.

Lemma wrapWords_ink (fuel : nat) (W : Z) (toks : list str) :
  forall lines line r,
    wrapWords fuel W toks lines line = Some r ->
    ink_of (concat (fst r) ++ snd r)
    = ink_of (concat lines ++ line) ++ ink_of (concat toks).
Proof.
  induction toks as [| w toks IH]; intros lines line r H; cbn [wrapWords] in H.
  - inversion H; subst. cbn [fst snd concat]. 
    change (ink_of []) with (@nil N). now rewrite app_nil_r.
  - destruct (wrapWord fuel W lines line w) as [[lines1 line1] |] eqn:E;
      [| discriminate].
    cbn [fst snd] in H. apply IH in H. rewrite H.
    apply wrapWord_ink in E. cbn [fst snd] in E. rewrite E.
    cbn [concat]. now rewrite (ink_of_app w), app_assoc.
Qed.

Lemma wrapLines_ink (fuel : nat) (text : str) (W : Z) (lines : list str) :
  wrapLines fuel text W = Some lines -> ink_of (concat lines) = ink_of text.
Proof.
  unfold wrapLines. intros H.
  destruct (wrapWords fuel W (words text) [] []) as [[ls l] |] eqn:E;
    [| discriminate].
  apply wrapWords_ink in E. cbn [fst snd concat app] in E.
  change (ink_of []) with (@nil N) in E. cbn [app] in E.
  rewrite concat_words, ink_of_idem in E. rewrite <- E.
  cbn [fst snd] in H. inversion H; subst; clear H.
  destruct l; cbn [nonempty]; [now rewrite app_nil_r | now rewrite concat_push].
Qed.

Lemma ink_of_hang (h : str) (lines : list str) :
  forallb is_space h = true ->
  ink_of (concat (hang h lines)) = ink_of (concat lines).
Proof.
  intros Hh. destruct lines as [| l ls]; [reflexivity |].
  cbn [hang concat]. rewrite !ink_of_app. f_equal.
  induction ls as [| x ls IH]; [reflexivity |].
  cbn [map concat]. rewrite !ink_of_app, IH.
  now rewrite (ink_of_all_space h Hh).
Qed.

Lemma wrapText_ink (fuel : nat) (text : str) (W : Z) (h wrapped : str) :
  forallb is_space h = true ->
  wrapText fuel text W h = Some wrapped -> ink_of wrapped = ink_of text.
Proof.
  unfold wrapText. intros Hh H.
  destruct (wrapLines fuel text W) as [lines |] eqn:E; [| discriminate].
  inversion H; subst; clear H.
  rewrite (ink_of_join [NL]) by reflexivity.
  rewrite ink_of_hang by exact Hh. eapply wrapLines_ink; eauto.
Qed.

Lemma forallb_spaces (n : nat) : forallb is_space (spaces n) = true.
Proof. induction n; simpl; auto. Qed.

Lemma ink_of_itemBody (rest0 : str) (more : list str) :
  ink_of (itemBody rest0 more) = ink_of rest0 ++ ink_of (concat more).
Proof.
  unfold itemBody. rewrite ink_of_trim, ink_of_replace_ws, lit_space.
  rewrite (ink_of_join [SP]) by reflexivity.
  cbn [concat]. now rewrite ink_of_app, ink_of_map_trim.
Qed.

(** The groups of the definition-list and admonition patterns. *)
Lemma lang_Lit (l s : str) : lang (Lit l) s -> s = l.
Proof.
  revert s. induction l as [| c l IH]; intros s H; cbn [Lit lang] in H.
  - exact H.
  - destruct H as [s1 [s2 [-> [[c' [-> Hc]] H2]]]].
    cbn [mem] in Hc. apply N.eqb_eq in Hc. subst c'.
    cbn [app]. f_equal. now apply IH.
Qed.

Lemma DEF_LIST_RE_match_spec (s indent term rest : str) :
  DEF_LIST_RE_match s = Some (indent, term, rest) ->
  exists w,
    s = indent ++ term ++ lit "::" ++ w ++ rest
    /\ lang (Star blank_tab) indent /\ lang (Plus (no ":")) term
    /\ lang (Star ws) w /\ lang (Star dot) rest.
Proof.
  unfold DEF_LIST_RE_match. intros H.
  destruct (greedy_split (Star blank_tab) _ s) as [[i s1] |] eqn:E1;
    [| discriminate].
  destruct (greedy_split (Plus (no ":")) _ s1) as [[t s2] |] eqn:E2;
    [| discriminate].
  destruct (greedy_split (Star ws) (Star dot) (skipn 2 s2)) as [[w r] |] eqn:E3;
    [| discriminate].
  inversion H; subst; clear H.
  apply greedy_split_spec in E1. destruct E1 as [-> [Hi _]].
  apply greedy_split_spec in E2. destruct E2 as [-> [Ht [Htail _]]].
  apply greedy_split_spec in E3. destruct E3 as [E3 [Hw [Hr _]]].
  exists w. repeat split; auto.
  do 2 f_equal.
  cbn [Seqs fold_right] in Htail.
  destruct Htail as [a [b [-> [Ha _]]]].
  apply lang_Lit in Ha. subst a.
  change (skipn 2 (lit "::" ++ b)) with b in E3. now rewrite E3.
Qed.

Lemma ADMON_SINGLE_RE_match_spec (s label body : str) :
  ADMON_SINGLE_RE_match s = Some (label, body) ->
  exists w,
    s = label ++ lit ":" ++ w ++ body
    /\ lang (Star ws) w /\ lang (Star dot) body.
Proof.
  unfold ADMON_SINGLE_RE_match. intros H.
  destruct (first_alt _ _ s) as [[l s1] |] eqn:E1; [| discriminate].
  destruct (greedy_split (Star ws) (Star dot) (skipn 1 s1)) as [[w r] |] eqn:E3;
    [| discriminate].
  inversion H; subst; clear H.
  apply first_alt_spec in E1. destruct E1 as [-> [_ Htail]].
  apply greedy_split_spec in E3. destruct E3 as [E3 [Hw [Hr _]]].
  exists w. repeat split; auto. f_equal.
  cbn [Seqs fold_right] in Htail.
  destruct Htail as [a [b [-> [Ha _]]]].
  apply lang_Lit in Ha. subst a.
  change (skipn 1 (lit ":" ++ b)) with b in E3. now rewrite E3.
Qed.

Lemma reflowParagraph_ink (fuel : nat) (W : Z) (lines o : list str) :
  reflowParagraph fuel lines W = Some o ->
  ink_of (concat o) = ink_of (concat lines).
Proof.
  unfold reflowParagraph. intros H.
  destruct lines as [| l0 more]; [now inversion H |].
  destruct (LIST_RE_match l0) as [[[indent marker] rest0] |] eqn:EL.
  - destruct (LIST_RE_match_spec _ _ _ _ EL) as [w [-> [_ [_ [Hw _]]]]].
    apply lang_plus_ws in Hw.
    assert (Hchk : ink_of (fst (match CHECKLIST_match rest0 with
                                | Some (c, r) => (c, r)
                                | None => ([], rest0)
                                end))
                   ++ ink_of (snd (match CHECKLIST_match rest0 with
                                   | Some (c, r) => (c, r)
                                   | None => ([], rest0)
                                   end)) = ink_of rest0).
    { destruct (CHECKLIST_match rest0) as [[c r] |] eqn:EC; [| reflexivity].
      apply greedy_split_app in EC. subst rest0. cbn [fst snd].
      now rewrite ink_of_app. }
    destruct (match CHECKLIST_match rest0 with
              | Some (c, r) => (c, r)
              | None => ([], rest0)
              end) as [checklist rest1].
    cbn [fst snd] in *.
    destruct (wrapText _ _ _ _) as [wrapped |] eqn:EW; [| discriminate].
    inversion H; subst; clear H.
    apply wrapText_ink in EW; [| apply forallb_spaces].
    cbn [concat]. rewrite !app_nil_r, <- !app_assoc, !ink_of_app.
    rewrite EW, ink_of_itemBody, (ink_of_all_space w Hw).
    change (ink_of (32 :: checklist)) with (ink_of checklist). cbn [app].
    now rewrite <- Hchk, <- !app_assoc.
  - destruct (DEF_LIST_RE_match l0) as [[[indent term0] rest0] |] eqn:ED.
    + destruct (DEF_LIST_RE_match_spec _ _ _ _ ED) as [w [-> [_ [_ [Hw _]]]]].
      apply lang_star_ws in Hw.
      destruct (wrapText _ _ _ _) as [wrapped |] eqn:EW; [| discriminate].
      inversion H; subst; clear H.
      apply wrapText_ink in EW; [| apply forallb_spaces].
      cbn [concat]. rewrite !app_nil_r, <- !app_assoc, !ink_of_app.
      rewrite EW, ink_of_itemBody, ink_of_trim, (ink_of_all_space w Hw).
      reflexivity.
    + destruct (existsb HARD_BREAK_RE (l0 :: more)); [now inversion H |].
      set (joined := trim (replace_ws (join (lit " ") (map trim (l0 :: more)))))
        in *.
      assert (Hj : ink_of joined = ink_of (concat (l0 :: more))).
      { unfold joined. rewrite ink_of_trim, ink_of_replace_ws, lit_space.
        rewrite (ink_of_join [SP]) by reflexivity. apply ink_of_map_trim. }
      destruct (nonempty joined) eqn:En; cbn [negb] in H.
      * destruct (wrapText fuel joined W []) as [wrapped |] eqn:EW;
          [| discriminate].
        inversion H; subst; clear H.
        apply wrapText_ink in EW; [| reflexivity].
        now rewrite ink_of_split_char, EW.
      * inversion H; subst; clear H. rewrite <- Hj.
        destruct joined; [reflexivity | discriminate].
Qed.

(** ** The lines of a list item *)

Lemma collectLoop_spec (ti td : nat) (src : list str) :
  forall lines taken complex l t c,
    collectLoop ti td src lines taken complex = (l, t, c) ->
    exists k,
      (k <= length src)%nat /\ l = lines ++ firstn k src
      /\ t = (taken + k)%nat
      /\ Forall (fun x => BLANK_RE x = false
                          /\ structural_start x (trim x) = false)
           (firstn k src)
      /\ (complex = true -> c = true)
      /\ (c = false ->
          Forall (fun x => CONTINUATION_LINE_RE x = false
                           /\ LIST_RE x = false /\ DEF_LIST_RE x = false
                           /\ INDENTED_CODE_RE x = false) (firstn k src)).
Proof.
  induction src as [| line src IH]; intros lines taken complex l t c H.
  - cbn [collectLoop] in H. inversion H; subst; clear H. exists 0%nat.
    cbn [firstn length]. rewrite app_nil_r, Nat.add_0_r. repeat split; auto.
  - assert (Hstop : (lines, taken, complex) = (l, t, c) ->
             exists k,
               (k <= length (line :: src))%nat
               /\ l = lines ++ firstn k (line :: src)
               /\ t = (taken + k)%nat
               /\ Forall (fun x => BLANK_RE x = false
                                   /\ structural_start x (trim x) = false)
                    (firstn k (line :: src))
               /\ (complex = true -> c = true)
               /\ (c = false ->
                   Forall (fun x => CONTINUATION_LINE_RE x = false
                                    /\ LIST_RE x = false
                                    /\ DEF_LIST_RE x = false
                                    /\ INDENTED_CODE_RE x = false)
                     (firstn k (line :: src)))).
    { intros E. inversion E; subst; clear E. exists 0%nat.
      cbn [firstn]. rewrite app_nil_r, Nat.add_0_r.
      repeat split; auto. cbn [length]. lia. }
    cbn [collectLoop] in H.
    destruct (BLANK_RE line) eqn:Hb; [auto |].
    destruct (structural_start line (trim line)) eqn:Hs; [auto |].
    assert (Hkeep : forall c',
               collectLoop ti td src (push lines line) (S taken) c'
               = (l, t, c) ->
               (complex = true -> c' = true) ->
               (c' = false ->
                CONTINUATION_LINE_RE line = false
                /\ LIST_RE line = false /\ DEF_LIST_RE line = false
                /\ INDENTED_CODE_RE line = false) ->
               exists k,
                 (k <= length (line :: src))%nat
                 /\ l = lines ++ firstn k (line :: src)
                 /\ t = (taken + k)%nat
                 /\ Forall (fun x => BLANK_RE x = false
                                     /\ structural_start x (trim x) = false)
                      (firstn k (line :: src))
                 /\ (complex = true -> c = true)
                 /\ (c = false ->
                     Forall (fun x => CONTINUATION_LINE_RE x = false
                                      /\ LIST_RE x = false
                                      /\ DEF_LIST_RE x = false
                                      /\ INDENTED_CODE_RE x = false)
                       (firstn k (line :: src)))).
    { intros c' E Hcx Hc.
      destruct (IH _ _ _ _ _ _ E) as [k [Hk [-> [-> [Hall [Hmono Hsimple]]]]]].
      exists (S k). cbn [firstn length]. unfold push. rewrite <- app_assoc.
      split; [lia |]. split; [reflexivity |]. split; [lia |].
      split; [constructor; auto |]. split; [auto |].
      intros Hcf. constructor; auto. apply Hc.
      destruct c'; auto. rewrite Hmono in Hcf; auto. }
    destruct (CONTINUATION_LINE_RE line) eqn:Hcont.
    { inversion H; subst; clear H. exists 1%nat. cbn [firstn length].
      split; [lia |]. split; [reflexivity |]. split; [lia |].
      split; [repeat constructor; auto |]. split; [auto | discriminate]. }
    unfold LIST_RE, DEF_LIST_RE in Hkeep.
    destruct (LIST_RE_match line) as [[[i m] r] |];
      destruct (DEF_LIST_RE_match line) as [[[i' m'] r'] |];
      cbn [is_some] in Hkeep;
      repeat match type of H with
             | context [if ?b then _ else _] => destruct b eqn:?
             end; auto.
    all: apply (Hkeep _ H); auto; discriminate.
Qed.

Lemma collectListItem_spec (first : str) (rest lines : list str)
  (taken : nat) (complex : bool) :
  collectListItem first rest = (lines, taken, complex) ->
  (taken <= length rest)%nat /\ lines = first :: firstn taken rest
  /\ Forall (fun x => BLANK_RE x = false
                      /\ structural_start x (trim x) = false)
       (firstn taken rest)
  /\ (complex = false ->
      Forall (fun x => CONTINUATION_LINE_RE x = false
                       /\ LIST_RE x = false /\ DEF_LIST_RE x = false
                       /\ INDENTED_CODE_RE x = false) (firstn taken rest)).
Proof.
  unfold collectListItem. intros H.
  destruct (match LIST_RE_match first with
            | Some m => Some m
            | None => DEF_LIST_RE_match first
            end) as [[[i m] r] |].
  - apply collectLoop_spec in H.
    destruct H as [k [Hk [-> [-> [Hall [_ Hsimple]]]]]].
    cbn [Nat.add app]. auto.
  - inversion H; subst; clear H. cbn [firstn]. repeat split; auto.
    apply Nat.le_0_l.
Qed.

(** X5 -- the lines of a list item.  [collectListItem] takes the first line
    and a run of the lines right after it, none skipped and none beyond
    the document; no taken line is blank or starts a block or a section;
    and an item that is not marked complex has no continuation, nested
    item, definition or indented-code line. *)
Theorem collectListItem_contiguous (first : str) (rest lines : list str)
  (taken : nat) (complex : bool) :
  collectListItem first rest = (lines, taken, complex) ->
  (taken <= length rest)%nat /\ lines = first :: firstn taken rest
  /\ Forall (fun x => BLANK_RE x = false
                      /\ structural_start x (trim x) = false)
       (firstn taken rest)
  /\ (complex = false ->
      Forall (fun x => CONTINUATION_LINE_RE x = false
                       /\ LIST_RE x = false /\ DEF_LIST_RE x = false
                       /\ INDENTED_CODE_RE x = false) (firstn taken rest)).
Proof. apply collectListItem_spec. Qed.

Lemma collectListItem_contiguous_witness :
  collectListItem (lit "* a") [lit "  b"; lit "c"; []; lit "d"]
  = ([lit "* a"; lit "  b"; lit "c"], 2%nat, false)
  /\ [lit "* a"; lit "  b"; lit "c"]
     = lit "* a" :: firstn 2 [lit "  b"; lit "c"; []; lit "d"].
Proof.
  split; [vm_compute; reflexivity |].
  apply (collectListItem_contiguous (lit "* a")
           [lit "  b"; lit "c"; []; lit "d"] _ 2%nat false).
  vm_compute. reflexivity.
Defined.

(** ** Reflowing changes white space only, continued *)

Lemma flush_ink (fuel : nat) (W : Z) (st st1 : state) :
  flush fuel W st = Some st1 ->
  exists ls,
    st1 = mkState (out st ++ ls) [] (inFence st) (inOpen st) (inTable st)
                  (inCommentBlock st) (inLiteralPara st)
    /\ ink_of (concat ls) = ink_of (concat (para st)).
Proof.
  intros H. destruct (flush_spec _ _ _ _ H) as [ls [E [Hnil Hrun]]].
  exists ls. split; [exact E |].
  destruct (para st) as [| l0 p] eqn:Ep.
  - now rewrite Hnil.
  - eapply reflowParagraph_ink. apply Hrun. discriminate.
Qed.

Ltac flush_ink_inv :=
  match goal with
  | H : flush _ _ ?st = Some ?st1 |- _ =>
      let ls := fresh "ls" in
      let E := fresh "E" in
      let Hink := fresh "Hink" in
      destruct (flush_ink _ _ _ _ H) as [ls [E Hink]];
      clear H; subst st1
  end.

Lemma step_ink (fuel : nat) (W : Z) (line : str) (rest : list str)
  (st st' : state) (k : nat) :
  buffer_outside st -> step fuel W line rest st = Some (st', k) ->
  buffer_outside st'
  /\ ink_of (concat (out st' ++ para st'))
     = ink_of (concat (out st ++ para st)) ++ ink_of line
       ++ ink_of (concat (firstn k rest)).
Proof.
  intros Hb H.
  assert (Hblank : BLANK_RE line = true -> ink_of line = []).
  { rewrite BLANK_RE_spec. apply ink_of_all_space. }
  assert (Hadm : forall label body,
             ADMON_SINGLE_RE_match line = Some (label, body) ->
             ink_of line = ink_of (label ++ lit ": ") ++ ink_of body).
  { intros label body E.
    destruct (ADMON_SINGLE_RE_match_spec _ _ _ E) as [w [El [Hw _]]].
    apply lang_star_ws in Hw.
    rewrite El, !ink_of_app, (ink_of_all_space w Hw), <- app_assoc.
    reflexivity. }
  destruct (collectListItem line rest) as [[cl taken] complex] eqn:EC.
  destruct (collectListItem_spec _ _ _ _ _ EC) as [_ [Hcl _]].
  assert (Hitem : ink_of (concat cl)
                  = ink_of line ++ ink_of (concat (firstn taken rest))).
  { subst cl. cbn [concat]. apply ink_of_app. }
  clear Hcl.
  unfold buffer_outside in *.
  unfold step, flush_emit in H. rewrite EC in H.
  step_split H; repeat flush_ink_inv.
  all: cbn [out para inCommentBlock inTable inLiteralPara emit emit_all
            set_out set_para set_inCommentBlock set_inTable set_inFence
            set_inOpen set_inLiteralPara push firstn] in *.
  all: split.
  all: try (intros _; reflexivity).
  all: try (intros _; apply Hb; reflexivity).
  all: try (repeat match goal with
                   | E : ?x = false |- context [?x] => rewrite E
                   end; discriminate).
  all: try (assert (Hp : para st = []) by (apply Hb; reflexivity);
            rewrite Hp in *).
  all: repeat match goal with
         | Hw : wrapText _ _ _ _ = Some _ |- _ =>
             apply wrapText_ink in Hw; [| apply forallb_spaces]
         | Hr : reflowParagraph _ _ _ = Some _ |- _ =>
             apply reflowParagraph_ink in Hr
         | Hn : nonempty ?b = false |- _ =>
             is_var b; destruct b; [clear Hn | discriminate Hn]
         end.
  all: try (assert (Hl : ink_of line = []) by (apply Hblank; reflexivity)).
  all: try (assert (Hl : ink_of line = _) by (apply Hadm; reflexivity)).
  all: unfold push; repeat rewrite concat_app; cbn [concat];
    rewrite ?app_nil_r; repeat rewrite ink_of_app.
  all: repeat match goal with
         | E : ink_of _ = _ |- _ => rewrite E; clear E
         end.
  all: rewrite ?ink_of_trim; repeat rewrite ink_of_app;
    change (ink_of []) with (@nil N); rewrite ?app_nil_r, <- ?app_assoc.
  all: reflexivity.
Qed.

Lemma scan_ink (fuel : nat) (W : Z) (src : list str) :
  forall st skip st',
    buffer_outside st -> scan fuel W st skip src = Some st' ->
    buffer_outside st'
    /\ ink_of (concat (out st' ++ para st'))
       = ink_of (concat (out st ++ para st))
         ++ ink_of (concat (skipn skip src)).
Proof.
  induction src as [| line rest IH]; intros st skip st' Hb H;
    cbn [scan] in H.
  - inversion H; subst; clear H. split; [exact Hb |].
    rewrite skipn_nil. cbn [concat]. change (ink_of []) with (@nil N).
    now rewrite app_nil_r.
  - destruct skip as [| k]; [| now apply IH].
    destruct (step fuel W line rest st) as [[st1 k1] |] eqn:E;
      [| discriminate].
    cbn [fst snd] in H.
    destruct (step_ink _ _ _ _ _ _ _ Hb E) as [Hb1 E1].
    destruct (IH _ _ _ Hb1 H) as [Hb' E'].
    split; [exact Hb' |].
    rewrite E', E1. cbn [skipn concat].
    rewrite <- (firstn_skipn k1 rest) at 3.
    repeat rewrite concat_app. repeat rewrite ink_of_app.
    now rewrite <- !app_assoc.
Qed.

(** X1 -- reflowing changes white space only.  Whatever [reflowTextAdoc]
    returns has the same characters other than white space as the input,
    in the same order: wrapping, hard splits, list, definition-list and
    admonition heads and hanging indents add, drop and reorder nothing but
    white space. *)
Theorem reflowTextAdoc_ink (fuel : nat) (input : str) (W : Z) (o : str) :
  reflowTextAdoc fuel input W = Some o -> ink_of o = ink_of input.
Proof.
  unfold reflowTextAdoc. intros H.
  destruct (scan fuel W init 0 (split_lines input)) as [st |] eqn:Es;
    [| discriminate].
  destruct (flush fuel W st) as [st1 |] eqn:Ef; [| discriminate].
  inversion H; subst; clear H.
  apply scan_ink in Es; [| intros Hf; reflexivity].
  destruct Es as [_ Es]. flush_ink_inv. cbn [out].
  rewrite ink_of_app, (ink_of_join [NL]) by reflexivity.
  assert (Hnl : ink_of (if ends_with_newline input then [NL] else []) = [])
    by (destruct (ends_with_newline input); reflexivity).
  rewrite Hnl, app_nil_r, concat_app, ink_of_app, Hink, <- ink_of_app,
    <- concat_app, Es.
  cbn [skipn init out para app concat]. apply ink_of_split_lines.
Qed.

Lemma reflowTextAdoc_ink_witness :
  reflowTextAdoc 0
    (text ["* item   one"; "  more words"; blank; "NOTE:   be careful";
           "Term::  a  definition"; blank]%string) 20
  = Some (text ["* item one more words"; blank; "NOTE: be careful";
                "Term:: a definition"; blank]%string)
  /\ ink_of (text ["* item one more words"; blank; "NOTE: be careful";
                   "Term:: a definition"; blank]%string)
     = ink_of (text ["* item   one"; "  more words"; blank;
                     "NOTE:   be careful"; "Term::  a  definition";
                     blank]%string).
Proof.
  split; [vm_compute; reflexivity |].
  apply (reflowTextAdoc_ink 0 _ 20). vm_compute. reflexivity.
Defined.

(** ** The hard split, chunk by chunk *)

Lemma hardSplit_chunks_gen (W : Z) (fuel : nat) :
  (1 <= W)%Z ->
  forall lines s r,
    hardSplit fuel W lines s = Some r ->
    exists chunks,
      fst r = lines ++ chunks /\ concat chunks ++ snd r = s
      /\ Forall (fun c => len c = W) chunks
      /\ (len (snd r) <= W)%Z /\ (s <> [] -> snd r <> []).
Proof.
  intros HW. induction fuel as [| fuel IH]; intros lines s r H;
    rewrite hardSplit_eq in H.
  - destruct (len s >? W)%Z eqn:E; [discriminate |].
    inversion H; subst; clear H. exists []. cbn [fst snd concat app].
    rewrite app_nil_r. repeat split; auto.
    rewrite Z.gtb_ltb in E. apply Z.ltb_ge in E. exact E.
  - destruct (len s >? W)%Z eqn:E.
    + apply Z.gtb_lt in E.
      assert (Hidx : rel_index (length s) W = Z.to_nat W).
      { unfold rel_index, len in *.
        destruct (W <? 0)%Z eqn:En; [apply Z.ltb_lt in En; lia |].
        apply Nat.min_l. lia. }
      assert (Hs : slice s 0 W = firstn (Z.to_nat W) s).
      { unfold slice. rewrite Hidx.
        change (rel_index (length s) 0) with 0%nat.
        now rewrite Nat.sub_0_r. }
      destruct (IH _ _ _ H) as [chunks [E1 [E2 [Hall [Hlen Hne]]]]].
      exists (slice s 0 W :: chunks). unfold push in E1.
      rewrite <- app_assoc in E1.
      split; [exact E1 |]. split.
      { cbn [concat]. rewrite <- app_assoc, E2. apply slice_slice_from. }
      split.
      { constructor; [| exact Hall]. rewrite Hs. unfold len in *.
        rewrite length_firstn. lia. }
      split; [exact Hlen |].
      intros _. apply Hne. unfold slice_from. rewrite Hidx.
      intros Ek. apply (f_equal (@length N)) in Ek.
      rewrite length_skipn in Ek. cbn [length] in Ek. unfold len in E. lia.
    + inversion H; subst; clear H. exists []. cbn [fst snd concat app].
      rewrite app_nil_r. repeat split; auto.
      rewrite Z.gtb_ltb in E. apply Z.ltb_ge in E. exact E.
Qed.

(** X4 -- the hard split of a long token.  At a width of at least 1 the
    loop pushes chunks of exactly [width] characters, in order, and leaves
    a remainder of at most [width] characters; the chunks and the remainder
    put together are the token, and the remainder of a token is not
    empty. *)
Theorem hardSplit_chunks (W : Z) (fuel : nat) (lines : list str) (s : str)
  (r : list str * str) :
  (1 <= W)%Z ->
  hardSplit fuel W lines s = Some r ->
  exists chunks,
    fst r = lines ++ chunks /\ concat chunks ++ snd r = s
    /\ Forall (fun c => len c = W) chunks
    /\ (len (snd r) <= W)%Z /\ (s <> [] -> snd r <> []).
Proof. intros HW. now apply hardSplit_chunks_gen. Qed.

Lemma hardSplit_chunks_witness :
  (1 <= 2)%Z
  /\ hardSplit 5 2 [] (lit "abcde") = Some ([lit "ab"; lit "cd"], lit "e")
  /\ exists chunks,
       [lit "ab"; lit "cd"] = [] ++ chunks
       /\ concat chunks ++ lit "e" = lit "abcde"
       /\ Forall (fun c => len c = 2%Z) chunks
       /\ (len (lit "e") <= 2)%Z /\ (lit "abcde" <> [] -> lit "e" <> []).
Proof.
  split; [lia |]. split; [vm_compute; reflexivity |].
  apply (hardSplit_chunks 2 5 [] (lit "abcde") ([lit "ab"; lit "cd"], lit "e"));
    [lia | vm_compute; reflexivity].
Defined.

(** ** Lines and line terminators *)

Lemma split_lines_split_char (s : str) :
  has_crlf s = false -> split_lines s = split_char NL s.
Proof.
  induction s as [| c s IH]; [reflexivity |].
  cbn [has_crlf split_lines split_char]. intros H.
  apply orb_false_iff in H. destruct H as [Hc Hs].
  rewrite Hc, (IH Hs). reflexivity.
Qed.

Lemma has_crlf_no_cr (s : str) :
  forallb (fun c => negb (c =? CR)) s = true -> has_crlf s = false.
Proof.
  induction s as [| c s IH]; [reflexivity |].
  cbn [forallb has_crlf]. intros H. apply andb_true_iff in H.
  destruct H as [Hc Hs]. rewrite (IH Hs).
  destruct (c =? CR); [discriminate | reflexivity].
Qed.

Lemma no_cr_join (ls : list str) :
  Forall (fun l => forallb (fun c => negb (c =? CR)) l = true) ls ->
  forallb (fun c => negb (c =? CR)) (join [NL] ls) = true.
Proof.
  induction ls as [| l ls IH]; [reflexivity |].
  intros H. inversion H as [| ? ? Hl Hls]; subst.
  destruct ls as [| l' ls]; [exact Hl |].
  rewrite join_cons, !forallb_app, Hl, (IH Hls). reflexivity.
Qed.

Lemma split_lines_join (ls : list str) :
  ls <> [] ->
  Forall (fun l => no_newline l = true) ls ->
  Forall (fun l => forallb (fun c => negb (c =? CR)) l = true) ls ->
  split_lines (join [NL] ls) = ls.
Proof.
  intros Hne Hnl Hcr.
  rewrite split_lines_split_char by (apply has_crlf_no_cr, no_cr_join, Hcr).
  apply split_char_join; assumption.
Qed.

Lemma join_split_lines (s : str) :
  has_crlf s = false -> join [NL] (split_lines s) = s.
Proof.
  intros H. rewrite (split_lines_split_char s H). apply join_split_char.
Qed.

(** X13 -- lines and line terminators.  A text with no carriage return
    right before a newline is split into lines that, joined by a newline,
    give the text back; and lines with no newline and no carriage return
    in them, joined by a newline, are split into those lines again. *)
Theorem line_split_round_trip :
  (forall s, has_crlf s = false -> join [NL] (split_lines s) = s)
  /\ (forall ls,
         ls <> [] ->
         Forall (fun l => no_newline l = true) ls ->
         Forall (fun l => forallb (fun c => negb (c =? CR)) l = true) ls ->
         split_lines (join [NL] ls) = ls).
Proof. split; [exact join_split_lines | exact split_lines_join]. Qed.

Lemma line_split_round_trip_witness :
  has_crlf (text ["a b"; blank; " c"]%string) = false
  /\ join [NL] (split_lines (text ["a b"; blank; " c"]%string))
     = text ["a b"; blank; " c"]%string.
Proof.
  split; [reflexivity |].
  apply (proj1 line_split_round_trip). reflexivity.
Defined.

(** ** Whole blocks *)

Lemma step_comment_fence (fuel : nat) (W : Z) (line : str) (rest : list str)
  (st : state) :
  COMMENT_BLOCK_FENCE_RE (trim line) = true -> para st = [] ->
  step fuel W line rest st
  = Some (set_inCommentBlock (negb (inCommentBlock st)) (emit line st),
          0%nat).
Proof.
  intros Hf Hp. unfold step, flush_emit.
  now rewrite Hf, (flush_empty fuel W st Hp).
Qed.

Lemma fence_not_empty (f : str) :
  COMMENT_BLOCK_FENCE_RE (trim f) = true -> f <> [].
Proof. intros H ->. discriminate H. Qed.

Lemma ends_with_newline_lines (ls : list str) (l : str) :
  l <> [] -> no_newline l = true ->
  ends_with_newline (join [NL] (ls ++ [l])) = false.
Proof.
  intros Hl Hn. apply ends_clean_not_newline, ends_clean_join.
  now apply ends_clean_plain.
Qed.

(** X9 -- a comment block is a fixed point.  A document that is one comment
    block, a [////] line, any lines that are not such a fence, and a [////]
    line, is returned as it is, at every width and with any fuel: blank
    lines, list items, fences and long lines in it are left alone. *)
Theorem comment_block_document (fuel : nat) (W : Z) (f1 f2 : str)
  (body : list str) :
  COMMENT_BLOCK_FENCE_RE (trim f1) = true ->
  COMMENT_BLOCK_FENCE_RE (trim f2) = true ->
  Forall (fun l => COMMENT_BLOCK_FENCE_RE (trim l) = false) body ->
  Forall (fun l => no_newline l = true
                   /\ forallb (fun c => negb (c =? CR)) l = true)
    (f1 :: body ++ [f2]) ->
  reflowTextAdoc fuel (join [NL] (f1 :: body ++ [f2])) W
  = Some (join [NL] (f1 :: body ++ [f2])).
Proof.
  intros H1 H2 Hbody Hchars.
  assert (Hnl : Forall (fun l => no_newline l = true) (f1 :: body ++ [f2])).
  { eapply Forall_impl; [| exact Hchars]. now intros l [? _]. }
  assert (Hcr : Forall (fun l => forallb (fun c => negb (c =? CR)) l = true)
                  (f1 :: body ++ [f2])).
  { eapply Forall_impl; [| exact Hchars]. now intros l [_ ?]. }
  assert (Hf2 : no_newline f2 = true).
  { inversion Hnl as [| ? ? _ Ht]; subst. apply Forall_app in Ht.
    destruct Ht as [_ Ht]. now inversion Ht. }
  assert (Hend : ends_with_newline (join [NL] (f1 :: body ++ [f2])) = false)
    by (apply (ends_with_newline_lines (f1 :: body) f2);
        auto using fence_not_empty).
  unfold reflowTextAdoc.
  rewrite Hend, (split_lines_join (f1 :: body ++ [f2])); auto;
    [| discriminate].
  cbn [scan]. rewrite (step_comment_fence fuel W f1 _ init H1 eq_refl).
  cbn [fst snd]. rewrite comment_block_run; auto.
  cbn [scan].
  rewrite (step_comment_fence fuel W f2 [] _ H2) by reflexivity.
  cbn [fst snd scan]. rewrite flush_empty by reflexivity.
  cbn [out emit_all emit set_out set_inCommentBlock init push app].
  rewrite app_nil_r. reflexivity.
Qed.

Lemma comment_block_document_witness :
  reflowTextAdoc 0
    (join [NL] (lit "////" :: [lit "* not   a list"; []; lit "  x   y"]
                ++ [lit "//// "])) 5
  = Some (join [NL] (lit "////" :: [lit "* not   a list"; []; lit "  x   y"]
                     ++ [lit "//// "])).
Proof.
  apply (comment_block_document 0 5 (lit "////") (lit "//// ")
           [lit "* not   a list"; []; lit "  x   y"]).
  - reflexivity.
  - reflexivity.
  - repeat constructor.
  - repeat constructor.
Defined.

(** X10 -- a table is a fixed point.  A document that is one table, a [|===]
    line, any lines that are neither a table fence nor a comment fence, and
    a [|===] line, is returned as it is, at every width and with any
    fuel. *)
Theorem table_document (fuel : nat) (W : Z) (body : list str) :
  Forall (fun l => COMMENT_BLOCK_FENCE_RE (trim l) = false
                   /\ TABLE_FENCE_RE (trim l) = false) body ->
  Forall (fun l => no_newline l = true
                   /\ forallb (fun c => negb (c =? CR)) l = true) body ->
  reflowTextAdoc fuel (join [NL] (lit "|===" :: body ++ [lit "|==="])) W
  = Some (join [NL] (lit "|===" :: body ++ [lit "|==="])).
Proof.
  intros Hbody Hchars.
  assert (Hnl : Forall (fun l => no_newline l = true)
                  (lit "|===" :: body ++ [lit "|==="])).
  { constructor; [reflexivity |]. apply Forall_app. split.
    - eapply Forall_impl; [| exact Hchars]. now intros l [? _].
    - now constructor. }
  assert (Hcr : Forall (fun l => forallb (fun c => negb (c =? CR)) l = true)
                  (lit "|===" :: body ++ [lit "|==="])).
  { constructor; [reflexivity |]. apply Forall_app. split.
    - eapply Forall_impl; [| exact Hchars]. now intros l [_ ?].
    - now constructor. }
  assert (Hend : ends_with_newline
                   (join [NL] (lit "|===" :: body ++ [lit "|==="])) = false)
    by (apply (ends_with_newline_lines (lit "|===" :: body) (lit "|==="));
        [discriminate | reflexivity]).
  unfold reflowTextAdoc.
  rewrite Hend, (split_lines_join (lit "|===" :: body ++ [lit "|==="])); auto;
    [| discriminate].
  cbn [scan].
  assert (Hopen : forall rest,
             step fuel W (lit "|===") rest init
             = Some (set_inTable true (emit (lit "|===") init), 0%nat))
    by reflexivity.
  rewrite Hopen. cbn [fst snd]. rewrite table_run; auto.
  cbn [scan].
  assert (Hclose : forall st,
             inCommentBlock st = false -> para st = [] ->
             step fuel W (lit "|===") [] st
             = Some (set_inTable (negb (inTable st)) (emit (lit "|===") st),
                     0%nat)).
  { intros st Hc Hp. unfold step, flush_emit.
    change (COMMENT_BLOCK_FENCE_RE (trim (lit "|==="))) with false.
    change (LINE_COMMENT_RE (lit "|===")) with false.
    change (structural_line (lit "|===") (trim (lit "|==="))) with false.
    change (TABLE_FENCE_RE (trim (lit "|==="))) with true.
    cbv iota. now rewrite Hc, (flush_empty fuel W st Hp). }
  rewrite Hclose by reflexivity.
  cbn [fst snd scan]. rewrite flush_empty by reflexivity.
  cbn [out emit_all emit set_out set_inTable init push app].
  rewrite app_nil_r. reflexivity.
Qed.

Lemma table_document_witness :
  reflowTextAdoc 0
    (join [NL] (lit "|===" :: [lit "| a   | b"; []; lit "| c"]
                ++ [lit "|==="])) 5
  = Some (join [NL] (lit "|===" :: [lit "| a   | b"; []; lit "| c"]
                     ++ [lit "|==="])).
Proof.
  apply (table_document 0 5 [lit "| a   | b"; []; lit "| c"]);
    repeat constructor.
Defined.

(** ** Complex list items *)

Lemma scan_skip (fuel : nat) (W : Z) (st : state) (src : list str) :
  forall k, scan fuel W st k src = scan fuel W st 0 (skipn k src).
Proof.
  induction src as [| line rest IH]; intros k.
  - now rewrite skipn_nil.
  - destruct k as [| k]; [reflexivity |]. cbn [scan skipn]. apply IH.
Qed.

Lemma step_complex_item (fuel : nat) (W : Z) (line : str) (rest : list str)
  (st : state) (lines : list str) (taken : nat) :
  caught_earlier line st = false ->
  para st = [] -> inLiteralPara st = false ->
  LEADING_SPACE_LINE_RE line = false ->
  ADMON_SINGLE_RE_match line = None ->
  LIST_RE line || DEF_LIST_RE line = true ->
  collectListItem line rest = (lines, taken, true) ->
  step fuel W line rest st
  = Some (emit_all (line :: firstn taken rest) st, taken).
Proof.
  unfold caught_earlier. intros Hc Hp Hl Hs Ha Hli EC.
  destruct (collectListItem_spec _ _ _ _ _ EC) as [_ [Hlines _]].
  repeat (apply orb_false_iff in Hc; destruct Hc as [Hc ?]).
  unfold step, flush_emit.
  repeat match goal with
         | E : _ = false |- _ => rewrite E; clear E
         end.
  rewrite Hp, Ha, Hli, EC, (flush_empty fuel W st Hp), Hlines.
  rewrite andb_false_r. reflexivity.
Qed.

(** X6 -- a complex list item is copied.  When the line read is a list or
    definition-list line that no earlier test catches, nothing is buffered,
    and [collectListItem] marks the item complex, the scan emits the item's
    lines as they are and goes on with the line after the item: no line of
    the item is lost, reflowed or read twice. *)
Theorem complex_item_verbatim (fuel : nat) (W : Z) (line : str)
  (rest : list str) (st : state) (lines : list str) (taken : nat) :
  caught_earlier line st = false ->
  para st = [] -> inLiteralPara st = false ->
  LEADING_SPACE_LINE_RE line = false ->
  ADMON_SINGLE_RE_match line = None ->
  LIST_RE line || DEF_LIST_RE line = true ->
  collectListItem line rest = (lines, taken, true) ->
  scan fuel W st 0 (line :: rest)
  = scan fuel W (emit_all (line :: firstn taken rest) st) 0
      (skipn taken rest).
Proof.
  intros Hc Hp Hl Hs Ha Hli EC. cbn [scan].
  rewrite (step_complex_item fuel W line rest st lines taken); auto.
  cbn [fst snd]. apply scan_skip.
Qed.

Lemma complex_item_verbatim_witness :
  scan 0 5 init 0 (lit "* a   b c d" :: [lit "+"; lit "e   f"; []; lit "g"])
  = scan 0 5 (emit_all [lit "* a   b c d"; lit "+"] init) 0
      [lit "e   f"; []; lit "g"].
Proof.
  apply (complex_item_verbatim 0 5 (lit "* a   b c d")
           [lit "+"; lit "e   f"; []; lit "g"] init
           [lit "* a   b c d"; lit "+"] 1%nat);
    vm_compute; reflexivity.
Defined.

(** ** The shape of wrapped lines *)

Lemma spaced_not_nil (l : str) : spaced l -> l <> [].
Proof.
  intros [ts [Hne [Hts ->]]]. destruct ts as [| t ts]; [congruence |].
  inversion Hts as [| ? ? Ht _]; subst.
  destruct t as [| c t]; [discriminate |].
  destruct ts; discriminate.
Qed.

Lemma spaced_token (w : str) : is_token w = true -> spaced w.
Proof.
  intros H. exists [w]. repeat split; auto. discriminate.
Qed.

Lemma spaced_snoc (line w : str) :
  spaced line -> is_token w = true -> spaced (line ++ [SP] ++ w).
Proof.
  intros [ts [Hne [Hts ->]]] Hw. exists (ts ++ [w]). split; [| split].
  - destruct ts; discriminate.
  - apply Forall_app. split; auto.
  - now rewrite join_snoc.
Qed.

Lemma wrapped_shape_app (P : Prop) (lines more : list str) :
  wrapped_shape P lines -> Forall spaced more ->
  wrapped_shape P (lines ++ more).
Proof.
  intros [H | [HP [ls [-> H]]]] Hm.
  - left. apply Forall_app. now split.
  - right. split; [exact HP |]. exists (ls ++ more). split; [reflexivity |].
    apply Forall_app. now split.
Qed.

Lemma token_pieces (chunks : list str) (r : str) :
  forallb (fun c => negb (is_space c)) (concat chunks ++ r) = true ->
  Forall (fun c => forallb (fun x => negb (is_space x)) c = true) chunks
  /\ forallb (fun c => negb (is_space c)) r = true.
Proof.
  induction chunks as [| c chunks IH]; cbn [concat app]; intros H.
  - split; [constructor | exact H].
  - rewrite <- app_assoc, forallb_app in H. apply andb_true_iff in H.
    destruct H as [Hc H]. destruct (IH H) as [H1 H2]. split; auto.
Qed.

Lemma hardSplit_spaced (W : Z) (fuel : nat) (lines : list str) (w : str)
  (r : list str * str) :
  (1 <= W)%Z -> is_token w = true ->
  hardSplit fuel W lines w = Some r ->
  exists chunks,
    fst r = lines ++ chunks /\ Forall spaced chunks /\ spaced (snd r).
Proof.
  intros HW Hw H.
  destruct (hardSplit_chunks_gen W fuel HW _ _ _ H)
    as [chunks [E1 [E2 [Hall [_ Hne]]]]].
  unfold is_token in Hw. apply andb_true_iff in Hw. destruct Hw as [Hw1 Hw2].
  rewrite <- E2 in Hw2. destruct (token_pieces _ _ Hw2) as [Hc Hr].
  exists chunks. split; [exact E1 | split].
  - clear E1 E2 Hw2. induction chunks as [| c chunks IH]; [constructor |].
    inversion Hall as [| ? ? Hlen Hall']; subst.
    inversion Hc as [| ? ? Hcc Hc']; subst.
    constructor; auto. apply spaced_token. unfold is_token.
    rewrite Hcc. destruct c; [unfold len in *; simpl in *; lia | reflexivity].
  - apply spaced_token. unfold is_token. rewrite Hr.
    destruct (snd r) eqn:Er; [| reflexivity].
    exfalso. apply Hne; auto. intros ->. discriminate.
Qed.

Lemma wrapWord_shape (P : Prop) (fuel : nat) (W : Z) (lines : list str)
  (line w : str) (r : list str * str) :
  (1 <= W)%Z -> is_token w = true ->
  wrap_inv P lines line ->
  (lines = [] -> line = [] ->
   URL_TOKEN_RE w = true -> (W < len w)%Z -> P) ->
  wrapWord fuel W lines line w = Some r ->
  spaced (snd r) /\ wrapped_shape P (fst r).
Proof.
  intros HW Hw Hinv HP. unfold wrapWord. rewrite lit_space. cbv zeta.
  assert (Hline : forall c s, line = c :: s -> spaced line).
  { intros c s E. destruct Hinv as [[_ ->] | [H _]]; [discriminate | auto]. }
  assert (Hshape : wrapped_shape P lines).
  { destruct Hinv as [[-> _] | [_ H]]; [left; constructor | exact H]. }
  destruct (negb (URL_TOKEN_RE w) && (len w >=? W)%Z) eqn:Hhard.
  { intros H. apply hardSplit_spaced in H; auto.
    destruct H as [chunks [-> [Hc Hs]]]. split; [exact Hs |].
    apply wrapped_shape_app; auto.
    destruct line as [| c s]; cbn [nonempty]; auto.
    apply wrapped_shape_app; auto. constructor; eauto. }
  match goal with
  | |- context [(len ?cand >? W)%Z] => destruct (len cand >? W)%Z eqn:Hc
  end.
  - destruct (nonempty line && (len (last (split_char SP line) []) <=? 2)%Z
              && (1 <? length (split_char SP line))%nat) eqn:Hpull.
    + intros H. inversion H; subst; clear H. cbn [fst snd].
      apply andb_true_iff in Hpull. destruct Hpull as [Hpull Hlen].
      apply andb_true_iff in Hpull. destruct Hpull as [Hne _].
      apply Nat.ltb_lt in Hlen.
      destruct line as [| c s]; [discriminate |].
      destruct (Hline c s eq_refl) as [ts [Hts0 [Hts E]]].
      assert (Hparts : split_char SP (c :: s) = ts).
      { rewrite E. apply split_char_join; auto.
        now apply (tokens_avoid SP). }
      rewrite Hparts in *.
      assert (Hlast_tok : is_token (last ts []) = true)
        by (now apply (Forall_last (fun t => is_token t = true))).
      split.
      * now apply (spaced_snoc (last ts [])); [apply spaced_token |].
      * apply wrapped_shape_app; auto. constructor; [| constructor].
        exists (removelast ts). split; [| split; auto].
        -- destruct ts as [| t1 [| t2 ts]]; simpl in Hlen; try lia.
           discriminate.
        -- now apply Forall_removelast.
    + intros H. inversion H; subst; clear H. cbn [fst snd].
      split; [now apply spaced_token |].
      destruct line as [| c s].
      * destruct Hinv as [[-> _] | [Hs _]];
          [| now apply spaced_not_nil in Hs].
        cbn [nonempty] in Hc. right. split.
        -- apply HP; auto.
           ++ apply andb_false_iff in Hhard. destruct Hhard as [Hu | Hl].
              ** now apply negb_false_iff in Hu.
              ** rewrite Z.geb_leb in Hl. apply Z.leb_gt in Hl.
                 apply Z.gtb_lt in Hc. lia.
           ++ apply Z.gtb_lt in Hc. lia.
        -- exists []. split; [reflexivity | constructor].
      * apply wrapped_shape_app; auto. constructor; eauto.
  - intros H. inversion H; subst; clear H. cbn [fst snd].
    split; [| exact Hshape].
    destruct line as [| c s]; cbn [nonempty].
    + now apply spaced_token.
    + apply spaced_snoc; eauto.
Qed.

Lemma wrapWords_shape (P : Prop) (fuel : nat) (W : Z) (toks : list str) :
  (1 <= W)%Z -> Forall (fun w => is_token w = true) toks ->
  forall lines line r,
    wrap_inv P lines line ->
    (lines = [] -> line = [] ->
     forall w rest, toks = w :: rest ->
                    URL_TOKEN_RE w = true -> (W < len w)%Z -> P) ->
    wrapWords fuel W toks lines line = Some r ->
    wrap_inv P (fst r) (snd r).
Proof.
  intros HW. induction toks as [| w toks IH];
    intros Htoks lines line r Hinv HP H; cbn [wrapWords] in H.
  - inversion H; subst; clear H. exact Hinv.
  - inversion Htoks as [| ? ? Hw Htoks']; subst.
    destruct (wrapWord fuel W lines line w) as [[lines1 line1] |] eqn:E;
      [| discriminate].
    cbn [fst snd] in H.
    apply (wrapWord_shape P) in E; auto; [| intros; eapply HP; eauto].
    cbn [fst snd] in E. destruct E as [Hs Hsh].
    apply (IH Htoks' lines1 line1 r); auto.
    + right. split; assumption.
    + intros _ ->. now apply spaced_not_nil in Hs.
Qed.

(** X2 -- the shape of wrapped lines.  At a width of at least 1 every line
    [wrapText] builds is a sequence of tokens separated by single spaces:
    not empty, with no white space at its start or end and none doubled.
    The one exception is an empty first line, which happens only when the
    first token of the text is a URL longer than the width. *)
Theorem wrapLines_shape (fuel : nat) (text : str) (W : Z) (lines : list str) :
  (1 <= W)%Z -> wrapLines fuel text W = Some lines ->
  wrapped_shape
    (exists u rest, words text = u :: rest
                    /\ URL_TOKEN_RE u = true /\ (W < len u)%Z) lines.
Proof.
  intros HW H. unfold wrapLines in H.
  destruct (wrapWords fuel W (words text) [] []) as [[ls l] |] eqn:E;
    [| discriminate].
  cbn [fst snd] in H. inversion H; subst; clear H.
  apply (wrapWords_shape
           (exists u rest, words text = u :: rest
                           /\ URL_TOKEN_RE u = true /\ (W < len u)%Z)) in E;
    auto using words_are_tokens.
  - cbn [fst snd] in E. destruct E as [[-> ->] | [Hs Hsh]].
    + left. constructor.
    + destruct l as [| c s]; [now apply spaced_not_nil in Hs |].
      cbn [nonempty]. apply wrapped_shape_app; auto.
  - now left.
  - intros _ _ w rest Ew Hu Hl. eauto.
Qed.

Lemma wrapLines_shape_witness :
  (1 <= 10)%Z
  /\ wrapLines 0 (lit "http://example.com/long/path and more") 10
     = Some [[]; lit "http://example.com/long/path"; lit "and more"]
  /\ wrapped_shape
       (exists u rest,
           words (lit "http://example.com/long/path and more") = u :: rest
           /\ URL_TOKEN_RE u = true /\ (10 < len u)%Z)
       [[]; lit "http://example.com/long/path"; lit "and more"].
Proof.
  split; [lia |]. split; [vm_compute; reflexivity |].
  apply (wrapLines_shape 0 (lit "http://example.com/long/path and more") 10);
    [lia | vm_compute; reflexivity].
Defined.

(** ** A paragraph that fits on one line *)

Lemma len_app (a b : str) : len (a ++ b) = (len a + len b)%Z.
Proof. unfold len. rewrite length_app. lia. Qed.

Lemma len_join_app (pre toks : list str) :
  pre <> [] -> toks <> [] ->
  len (join [SP] (pre ++ toks))
  = (len (join [SP] pre) + 1 + len (join [SP] toks))%Z.
Proof.
  intros Hpre Htoks. induction pre as [| p pre IH]; [congruence |].
  destruct pre as [| p' pre].
  - cbn [app]. destruct toks as [| t toks]; [congruence |].
    rewrite join_cons. cbn [join]. rewrite !len_app.
    change (len [SP]) with 1%Z. lia.
  - change ((p :: p' :: pre) ++ toks) with (p :: p' :: (pre ++ toks)).
    rewrite !join_cons, !len_app.
    change (p' :: pre ++ toks) with ((p' :: pre) ++ toks).
    rewrite IH by discriminate. lia.
Qed.

Lemma len_join_cons (w : str) (toks : list str) :
  (len w <= len (join [SP] (w :: toks)))%Z.
Proof.
  destruct toks as [| t toks]; [cbn [join]; lia |].
  rewrite join_cons, !len_app. unfold len. lia.
Qed.

Lemma wrapWords_one_line (fuel : nat) (W : Z) (toks : list str) :
  forall pre,
    pre <> [] -> Forall (fun t => is_token t = true) (pre ++ toks) ->
    (len (join [SP] (pre ++ toks)) <= W)%Z ->
    wrapWords fuel W toks [] (join [SP] pre)
    = Some ([], join [SP] (pre ++ toks)).
Proof.
  induction toks as [| w toks IH]; intros pre Hpre Htok Hlen.
  - now rewrite app_nil_r.
  - cbn [wrapWords].
    assert (Hcand : (len (join [SP] (pre ++ [w]))
                     <= len (join [SP] (pre ++ w :: toks)))%Z).
    { rewrite !len_join_app by (auto; discriminate).
      pose proof (len_join_cons w toks).
      change (join [SP] [w]) with w. lia. }
    assert (Hw : (len w < W)%Z).
    { rewrite len_join_app in Hcand by (auto; discriminate).
      change (join [SP] [w]) with w in Hcand. unfold len in *. lia. }
    assert (Hne : nonempty (join [SP] pre) = true).
    { apply Forall_app in Htok. destruct Htok as [Hp _].
      assert (Hs : spaced (join [SP] pre)) by (exists pre; auto).
      apply spaced_not_nil in Hs.
      destruct (join [SP] pre); [now elim Hs | reflexivity]. }
    unfold wrapWord. rewrite lit_space. cbv zeta.
    assert (Hnh : (len w >=? W)%Z = false)
      by (rewrite Z.geb_leb; apply Z.leb_gt; lia).
    rewrite Hnh, andb_false_r, Hne. rewrite <- join_snoc by exact Hpre.
    assert (Hfit : (len (join [SP] (pre ++ [w])) >? W)%Z = false)
      by (rewrite Z.gtb_ltb; apply Z.ltb_ge; lia).
    rewrite Hfit. cbn [fst snd].
    rewrite (IH (pre ++ [w])).
    + now rewrite <- app_assoc.
    + destruct pre; discriminate.
    + now rewrite <- app_assoc.
    + now rewrite <- app_assoc.
Qed.

Lemma wrapLines_one_line (fuel : nat) (text : str) (W : Z) :
  words text <> [] -> (len (join [SP] (words text)) <= W)%Z ->
  wrapLines fuel text W = Some [join [SP] (words text)].
Proof.
  intros Hne Hlen. unfold wrapLines.
  pose proof (words_are_tokens text) as Htok.
  destruct (words text) as [| w toks]; [congruence |].
  assert (Hs : spaced (join [SP] (w :: toks)))
    by (exists (w :: toks); auto).
  apply spaced_not_nil in Hs.
  assert (Hfirst : wrapWord fuel W [] [] w = Some ([], w)).
  { pose proof (len_join_cons w toks) as Hw.
    unfold wrapWord. cbn [nonempty]. cbv zeta.
    destruct (negb (URL_TOKEN_RE w) && (len w >=? W)%Z).
    - rewrite hardSplit_eq.
      assert (Hle : (len w >? W)%Z = false)
        by (rewrite Z.gtb_ltb; apply Z.ltb_ge; lia).
      now rewrite Hle.
    - assert (Hle : (len w >? W)%Z = false)
        by (rewrite Z.gtb_ltb; apply Z.ltb_ge; lia).
      now rewrite Hle. }
  cbn [wrapWords]. rewrite Hfirst. cbn [fst snd].
  change w with (join [SP] [w]) at 1.
  rewrite (wrapWords_one_line fuel W toks [w]); auto; [| discriminate].
  cbn [fst snd app].
  destruct (join [SP] (w :: toks)); [now elim Hs | reflexivity].
Qed.

(** X3 -- a paragraph that fits on one line.  A plain paragraph (no list or
    definition-list first line, no hard break) whose tokens, joined by
    single spaces, are within the width, comes out as exactly that one
    line, with any fuel. *)
Theorem reflowParagraph_one_line (fuel : nat) (W : Z) (lines : list str) :
  LIST_RE (hd [] lines) = false -> DEF_LIST_RE (hd [] lines) = false ->
  existsb HARD_BREAK_RE lines = false ->
  tokens lines <> [] -> (len (join [SP] (tokens lines)) <= W)%Z ->
  reflowParagraph fuel lines W = Some [join [SP] (tokens lines)].
Proof.
  intros HL HD HH Hne Hlen.
  destruct lines as [| l0 more]; [now elim Hne |].
  cbn [hd] in HL, HD. rewrite (reflowParagraph_plain fuel W l0 more HL HD HH).
  cbv zeta. rewrite lit_space.
  set (joined := trim (replace_ws (join [SP] (map trim (l0 :: more))))).
  assert (Hw : words joined = tokens (l0 :: more)).
  { unfold joined.
    rewrite words_trim, words_replace_ws, (words_join SP) by reflexivity.
    now rewrite flat_map_words_trim, tokens_flat_map. }
  assert (Hj : nonempty joined = true).
  { destruct joined; [| reflexivity]. now elim Hne. }
  rewrite Hj. cbn [negb]. unfold wrapText.
  rewrite wrapLines_one_line; rewrite Hw; auto.
  cbn [hang map join].
  rewrite split_char_none; [reflexivity |].
  apply no_newline_join. rewrite <- Hw. apply words_are_tokens.
Qed.

Lemma reflowParagraph_one_line_witness :
  reflowParagraph 0 [lit "one  two"; lit " three"] 13
  = Some [join [SP] (tokens [lit "one  two"; lit " three"])].
Proof.
  apply (reflowParagraph_one_line 0 13 [lit "one  two"; lit " three"]).
  - reflexivity.
  - reflexivity.
  - reflexivity.
  - vm_compute. discriminate.
  - apply Z.leb_le. vm_compute. reflexivity.
Defined.

(** ** List markers *)

Lemma lang_Rep_Lit (l : str) (n : nat) (s : str) :
  lang (Rep n (Lit l)) s -> s = concat (repeat l n).
Proof.
  revert s. induction n as [| n IH]; intros s H; cbn [Rep lang] in H.
  - exact H.
  - destruct H as [s1 [s2 [-> [H1 H2]]]]. apply lang_Lit in H1. subst s1.
    cbn [repeat concat]. f_equal. now apply IH.
Qed.

Lemma lang_UpTo_Lit (l : str) (n : nat) (s : str) :
  lang (UpTo n (Lit l)) s ->
  exists k, (k <= n)%nat /\ s = concat (repeat l k).
Proof.
  revert s. induction n as [| n IH]; intros s H; cbn [UpTo Opt lang] in H.
  - exists 0%nat. split; [lia | exact H].
  - destruct H as [-> | [s1 [s2 [-> [H1 H2]]]]].
    + exists 0%nat. split; [lia | reflexivity].
    + apply lang_Lit in H1. subst s1. destruct (IH _ H2) as [k [Hk ->]].
      exists (S k). split; [lia | reflexivity].
Qed.

Lemma lang_Between_Lit (c : char) (s : str) :
  lang (Between 1 6 (Lit [c])) s ->
  exists k, (k <= 5)%nat /\ s = repeat c (S k).
Proof.
  unfold Between. cbn [lang Nat.sub]. intros [s1 [s2 [-> [H1 H2]]]].
  apply lang_Rep_Lit in H1. subst s1.
  destruct (lang_UpTo_Lit _ _ _ H2) as [k [Hk ->]].
  exists k. split; [exact Hk |]. cbn [repeat concat app]. f_equal.
  clear. induction k as [| k IH]; [reflexivity |].
  cbn [repeat concat app]. now rewrite IH.
Qed.

Lemma lang_Plus_Chr_head (cs : cset) (s : str) :
  lang (Plus (Chr cs)) s -> exists c s', s = c :: s' /\ mem cs c = true.
Proof.
  unfold Plus. cbn [lang]. intros [s1 [s2 [-> [[c [-> Hc]] _]]]].
  exists c, s2. split; [reflexivity | exact Hc].
Qed.

(** The marker of a list line is one of six kinds. *)
Lemma marker_kinds (m : str) :
  lang (Alts list_markers) m ->
  (exists k, (k <= 5)%nat
             /\ (m = repeat 42 (S k) \/ m = repeat 43 (S k)
                 \/ m = repeat 45 (S k)))
  \/ (exists c ds, m = c :: ds ++ [46] /\ mem digit c = true
                   /\ lang (Seqs [Plus (Chr digit); L "."]) m)
  \/ (exists c, m = [c; 46] /\ mem lower c = true)
  \/ m = [8226].
Proof.
  unfold list_markers. cbn [Alts fold_right]. intros H.
  change (lang (Between 1 6 (L "*")) m
          \/ lang (Between 1 6 (L "+")) m
          \/ lang (Between 1 6 (L "-")) m
          \/ lang (Seqs [Plus (Chr digit); L "."]) m
          \/ lang (Seqs [Chr lower; L "."]) m
          \/ lang (Chr (CLit 8226)) m \/ False) in H.
  destruct H as [H | [H | [H | [H | [H | [H | []]]]]]].
  - apply (lang_Between_Lit 42) in H. destruct H as [k [Hk E]]. left. eauto.
  - apply (lang_Between_Lit 43) in H. destruct H as [k [Hk E]]. left. eauto.
  - apply (lang_Between_Lit 45) in H. destruct H as [k [Hk E]].
    left. eauto 6.
  - right; left. pose proof H as H0. cbn [Seqs fold_right lang] in H.
    destruct H as [s1 [s2 [-> [H1 [s3 [s4 [-> [H3 ->]]]]]]]].
    apply lang_Lit in H3. subst s3.
    destruct (lang_Plus_Chr_head _ _ H1) as [c [ds [-> Hc]]].
    exists c, ds. split; [reflexivity | split; [exact Hc | exact H0]].
  - right; right; left. cbn [Seqs fold_right lang] in H.
    destruct H as [s1 [s2 [-> [[c [-> Hc]] [s3 [s4 [-> [H3 ->]]]]]]]].
    apply lang_Lit in H3. subst s3. exists c. split; [reflexivity | exact Hc].
  - right; right; right. destruct H as [c [-> Hc]].
    cbn [mem] in Hc. apply N.eqb_eq in Hc. now subst c.
Qed.

Lemma marker_first (m : str) :
  lang (Alts list_markers) m ->
  exists c m', m = c :: m' /\ mem marker_start c = true.
Proof.
  intros H. apply marker_kinds in H.
  destruct H as [[k [_ [-> | [-> | ->]]]]
                | [[c [ds [-> [Hc _]]]] | [[c [-> Hc]] | ->]]];
    cbn [repeat]; do 2 eexists; (split; [reflexivity |]);
    try reflexivity; unfold marker_start; cbn [mem] in *.
  - rewrite Hc. now rewrite !orb_true_r.
  - rewrite Hc. now rewrite !orb_true_r.
Qed.

Lemma not_full_Plus_Lit (x c : char) (s : str) :
  c <> x -> full (Plus (Lit [x])) (c :: s) = false.
Proof.
  intros Hc. destruct (full (Plus (Lit [x])) (c :: s)) eqn:E; [| reflexivity].
  apply full_spec in E. unfold Plus in E. cbn [lang] in E.
  destruct E as [s1 [s2 [E [H1 _]]]]. apply lang_Lit in H1. subst s1.
  inversion E. congruence.
Qed.

Lemma not_full_digits (c : char) (s : str) :
  mem digit c = false ->
  full (Seqs [Plus (Chr digit); L "."]) (c :: s) = false.
Proof.
  intros Hc.
  destruct (full (Seqs [Plus (Chr digit); L "."]) (c :: s)) eqn:E;
    [| reflexivity].
  apply full_spec in E. cbn [Seqs fold_right lang] in E.
  destruct E as [s1 [s2 [E [H1 _]]]].
  destruct (lang_Plus_Chr_head _ _ H1) as [c' [s' [-> Hc']]].
  inversion E. congruence.
Qed.

Lemma class_prefix_unique (cs : cset) (a b : str) (x y : char) (s t : str) :
  forallb (mem cs) a = true -> forallb (mem cs) b = true ->
  mem cs x = false -> mem cs y = false ->
  a ++ x :: s = b ++ y :: t -> a = b /\ x = y.
Proof.
  revert b. induction a as [| c a IH]; intros [| d b] Ha Hb Hx Hy E;
    cbn [app forallb] in *.
  - inversion E. auto.
  - inversion E; subst. apply andb_true_iff in Hb. destruct Hb as [Hd _].
    congruence.
  - inversion E; subst. apply andb_true_iff in Ha. destruct Ha as [Hd _].
    congruence.
  - inversion E; subst. apply andb_true_iff in Ha, Hb.
    destruct Ha as [_ Ha]. destruct Hb as [_ Hb].
    destruct (IH b Ha Hb Hx Hy H1) as [-> ->]. auto.
Qed.

Lemma lang_star_class (cs : cset) (s : str) :
  lang (Star (Chr cs)) s -> forallb (mem cs) s = true.
Proof.
  cbn [lang]. intros [ss [-> H]].
  induction H as [| x ss [_ [c [-> Hc]]] _ IH]; [reflexivity |].
  cbn [concat app forallb]. now rewrite Hc.
Qed.

Lemma lang_Plus_class (cs : cset) (s : str) :
  lang (Plus (Chr cs)) s -> s <> [] /\ forallb (mem cs) s = true.
Proof.
  unfold Plus. cbn [lang].
  intros [s1 [s2 [-> [[c [-> Hc]] [ss [-> Hss]]]]]].
  split; [discriminate |]. cbn [app forallb]. rewrite Hc.
  apply (lang_star_class cs). cbn [lang]. eauto.
Qed.

Lemma markerDepth_kinds (m : str) :
  lang (Alts list_markers) m ->
  (exists c k, (c = 42 \/ c = 43 \/ c = 45) /\ (k <= 5)%nat
               /\ m = repeat c (S k) /\ markerDepth m = S k)
  \/ (exists ds, ds <> [] /\ forallb (mem digit) ds = true
                 /\ m = ds ++ [46] /\ markerDepth m = 1%nat)
  \/ (exists c, mem lower c = true /\ m = [c; 46]
                /\ markerDepth m = 1%nat)
  \/ (m = [8226] /\ markerDepth m = 1%nat).
Proof.
  intros H. apply marker_kinds in H.
  destruct H as [[k [Hk H]] | [[c [ds [-> [Hc Hl]]]] | [[c [-> Hc]] | ->]]].
  - left.
    assert (Hd : forall c, (c = 42 \/ c = 43 \/ c = 45) ->
                           markerDepth (repeat c (S k)) = S k).
    { intros c Hc'.
      do 6 (destruct k as [| k];
            [destruct Hc' as [-> | [-> | ->]]; vm_compute; reflexivity |]).
      lia. }
    destruct H as [-> | [-> | ->]];
      [exists 42, k | exists 43, k | exists 45, k];
      (split; [auto | split; [exact Hk | split; [reflexivity |]]]);
      apply Hd; auto.
  - right; left. exists (c :: ds).
    assert (Hds : forallb (mem digit) (c :: ds) = true).
    { cbn [Seqs fold_right lang] in Hl.
      destruct Hl as [s1 [s2 [E [H1 [s3 [s4 [-> [H3 ->]]]]]]]].
      apply lang_Lit in H3. subst s3.
      change (lit "." ++ []) with [46] in E.
      change (c :: ds ++ [46]) with ((c :: ds) ++ [46]) in E.
      apply app_inj_tail in E. destruct E as [<- _].
      now apply lang_Plus_class in H1. }
    split; [discriminate | split; [exact Hds | split; [reflexivity |]]].
    cbn [mem digit] in Hc. apply andb_true_iff in Hc.
    destruct Hc as [H1 H2]. apply N.leb_le in H1, H2.
    unfold markerDepth, L. cbn [nonempty negb app].
    apply full_spec in Hl. unfold L in Hl.
    change (lit "*") with [42]. change (lit "+") with [43].
    change (lit "-") with [45].
    rewrite !not_full_Plus_Lit by lia. cbn [orb].
    change ((c :: ds) ++ lit "." ++ []) with (c :: ds ++ [46]) in Hl.
    now rewrite Hl.
  - right; right; left. exists c.
    split; [exact Hc | split; [reflexivity |]].
    cbn [mem lower] in Hc. pose proof Hc as Hc0.
    apply andb_true_iff in Hc. destruct Hc as [H1 H2].
    apply N.leb_le in H1, H2.
    unfold markerDepth, L. cbn [nonempty negb].
    change (lit "*") with [42]. change (lit "+") with [43].
    change (lit "-") with [45].
    rewrite !not_full_Plus_Lit by lia. cbn [orb].
    fold (L "."). rewrite not_full_digits.
    + cbn [Seqs fold_right full deriv lower mem].
      rewrite Hc0. reflexivity.
    + cbn [mem digit]. apply andb_false_iff. right.
      apply N.leb_gt. lia.
  - right; right; right. split; reflexivity.
Qed.

(** X7 -- the depth of a list marker.  The marker of every line that
    [LIST_RE] matches is of one of four kinds, and its depth goes with the
    kind: a run of one to six [*], [+] or [-] has its length as depth, and
    digits followed by a dot, a lower-case letter followed by a dot and the
    bullet character have depth 1. *)
Theorem list_marker_depth (s indent marker rest : str) :
  LIST_RE_match s = Some (indent, marker, rest) ->
  (exists c k, (c = 42 \/ c = 43 \/ c = 45) /\ (k <= 5)%nat
               /\ marker = repeat c (S k) /\ markerDepth marker = S k)
  \/ (exists ds, ds <> [] /\ forallb (mem digit) ds = true
                 /\ marker = ds ++ [46] /\ markerDepth marker = 1%nat)
  \/ (exists c, mem lower c = true /\ marker = [c; 46]
                /\ markerDepth marker = 1%nat)
  \/ (marker = [8226] /\ markerDepth marker = 1%nat).
Proof.
  intros H. apply LIST_RE_match_spec in H.
  destruct H as [w [_ [_ [Hm _]]]]. now apply markerDepth_kinds.
Qed.

Lemma list_marker_depth_witness :
  LIST_RE_match (lit "  ** x y") = Some (lit "  ", lit "**", lit "x y")
  /\ ((exists c k, (c = 42 \/ c = 43 \/ c = 45) /\ (k <= 5)%nat
                   /\ lit "**" = repeat c (S k)
                   /\ markerDepth (lit "**") = S k)
      \/ (exists ds, ds <> [] /\ forallb (mem digit) ds = true
                     /\ lit "**" = ds ++ [46]
                     /\ markerDepth (lit "**") = 1%nat)
      \/ (exists c, mem lower c = true /\ lit "**" = [c; 46]
                    /\ markerDepth (lit "**") = 1%nat)
      \/ (lit "**" = [8226] /\ markerDepth (lit "**") = 1%nat)).
Proof.
  split; [vm_compute; reflexivity |].
  apply (list_marker_depth (lit "  ** x y") (lit "  ") (lit "**") (lit "x y")).
  vm_compute. reflexivity.
Defined.

Example marker_depths :
  markerDepth (lit "**") = 2%nat /\ markerDepth (lit "------") = 6%nat
  /\ markerDepth (lit "12.") = 1%nat /\ markerDepth (lit "b.") = 1%nat.
Proof. repeat split. Qed.

(** X8 -- initials are not list items.  A line whose first character after
    blanks and tabs is an upper-case letter is never a list line, whatever
    follows: [M. Glushkov] stays prose. *)
Theorem uppercase_not_list (indent : str) (c : char) (s : str) :
  forallb (mem (OneOf [32; 9])) indent = true ->
  65 <= c <= 90 ->
  LIST_RE (indent ++ c :: s) = false.
Proof.
  intros Hi Hc. unfold LIST_RE.
  destruct (LIST_RE_match (indent ++ c :: s)) as [[[i m] r] |] eqn:E;
    [| reflexivity].
  exfalso. apply LIST_RE_match_spec in E.
  destruct E as [w [E [Hind [Hm _]]]].
  apply lang_star_class in Hind.
  destruct (marker_first _ Hm) as [x [m' [-> Hx]]].
  cbn [app] in E.
  assert (Hcx : mem (OneOf [32; 9]) c = false).
  { cbn [mem OneOf]. apply orb_false_iff. split; apply N.eqb_neq; lia. }
  assert (Hxx : mem (OneOf [32; 9]) x = false).
  { unfold marker_start in Hx. cbn [mem OneOf digit lower] in *.
    apply orb_false_iff. split; apply N.eqb_neq; intros ->;
      vm_compute in Hx; discriminate. }
  destruct (class_prefix_unique _ _ _ _ _ _ _ Hi Hind Hcx Hxx E) as [_ <-].
  unfold marker_start in Hx. cbn [mem OneOf digit lower] in Hx.
  repeat (apply orb_true_iff in Hx; destruct Hx as [Hx | Hx]);
    try (apply N.eqb_eq in Hx; lia);
    apply andb_true_iff in Hx; destruct Hx as [H1 H2];
    apply N.leb_le in H1, H2; lia.
Qed.

Lemma uppercase_not_list_witness :
  LIST_RE (lit "  " ++ 77 :: lit ". Glushkov") = false.
Proof.
  apply (uppercase_not_list (lit "  ") 77 (lit ". Glushkov"));
    [reflexivity | lia].
Defined.

(** ** Lines that are passed through *)

Lemma step_caught (fuel : nat) (W : Z) (line : str) (rest : list str)
  (st st' : state) (k : nat) :
  caught_earlier line st = true -> BLANK_RE line = false ->
  step fuel W line rest st = Some (st', k) ->
  k = 0%nat
  /\ (exists ls, out st' = out st ++ ls ++ [line]
                 /\ (para st = [] -> ls = []))
  /\ (para st = [] -> para st' = [])
  /\ (FENCE_RE (trim line) = false -> OPEN_BLOCK_RE (trim line) = false ->
      inFence st' = inFence st /\ inOpen st' = inOpen st).
Proof.
  unfold caught_earlier. intros Hc Hb H.
  unfold step, flush_emit in H. rewrite Hb in H. rewrite Hb in Hc.
  destruct (COMMENT_BLOCK_FENCE_RE (trim line)) eqn:E1;
    [| destruct (inCommentBlock st) eqn:E2;
       [| destruct (LINE_COMMENT_RE line) eqn:E3;
          [| destruct (structural_line line (trim line)) eqn:E4;
             [| destruct (TABLE_FENCE_RE (trim line)) eqn:E5;
                [| destruct (inTable st) eqn:E6;
                   [| destruct (FENCE_RE (trim line)) eqn:E7;
                      [| destruct (OPEN_BLOCK_RE (trim line)) eqn:E8;
                         [| destruct (inFence st || inOpen st
                                      || TITLE_RE line || ATTR_RE line)
                              eqn:E9; [| discriminate Hc]]]]]]]]].
  all: cbn [orb] in Hc.
  all: step_split H; repeat flush_inv.
  all: cbn [out para inFence inOpen emit set_out set_inCommentBlock
            set_inTable set_inFence set_inOpen push].
  all: unfold push; split; [reflexivity |].
  all: split;
    [ first [ exists ls; split; [now rewrite <- app_assoc | assumption]
            | exists []; split; [reflexivity | reflexivity] ]
    | split; [auto | intros; try discriminate; auto] ].
Qed.

Lemma step_caught_now (fuel : nat) (W : Z) (line : str) (rest : list str)
  (st : state) :
  caught_earlier line st = true -> BLANK_RE line = false -> para st = [] ->
  exists st',
    step fuel W line rest st = Some (st', 0%nat)
    /\ out st' = out st ++ [line] /\ para st' = []
    /\ (FENCE_RE (trim line) = false -> OPEN_BLOCK_RE (trim line) = false ->
        inFence st' = inFence st /\ inOpen st' = inOpen st).
Proof.
  intros Hc Hb Hp.
  assert (Hsome : exists r, step fuel W line rest st = Some r).
  { pose proof Hc as Hc0. unfold caught_earlier in Hc0. rewrite Hb in Hc0.
    unfold step, flush_emit. rewrite Hb, (flush_empty fuel W st Hp).
    repeat match goal with
           | |- context [if ?c then _ else _] =>
               destruct c; eauto; try (cbn [orb] in Hc0; discriminate Hc0)
           end. }
  destruct Hsome as [[st' k] E]. exists st'.
  destruct (step_caught _ _ _ _ _ _ _ Hc Hb E)
    as [-> [[ls [Eo Hls]] [Hpara Hflags]]].
  rewrite (Hls Hp) in Eo. auto.
Qed.

(** X11 -- lines that are passed through.  A line that is not blank and that
    one of the early tests catches (a comment, a delimiter, a heading, an
    attribute, a block title, attribute list, anchor, conditional, include
    or block macro, a rule or page break, or any line inside a comment
    block, table, fence or open block) is emitted as it is, after whatever
    the buffered paragraph gives, and the turn takes no other line.  With
    nothing buffered the turn needs no fuel and emits the line alone. *)
Theorem caught_lines_pass_through :
  (forall fuel W line rest st st' k,
      caught_earlier line st = true -> BLANK_RE line = false ->
      step fuel W line rest st = Some (st', k) ->
      k = 0%nat
      /\ (exists ls, out st' = out st ++ ls ++ [line]
                     /\ (para st = [] -> ls = []))
      /\ (para st = [] -> para st' = []))
  /\ (forall fuel W line rest st,
         caught_earlier line st = true -> BLANK_RE line = false ->
         para st = [] ->
         exists st',
           step fuel W line rest st = Some (st', 0%nat)
           /\ out st' = out st ++ [line] /\ para st' = []).
Proof.
  split.
  - intros fuel W line rest st st' k Hc Hb H.
    destruct (step_caught _ _ _ _ _ _ _ Hc Hb H) as [H1 [H2 [H3 _]]]. auto.
  - intros fuel W line rest st Hc Hb Hp.
    destruct (step_caught_now fuel W line rest st Hc Hb Hp)
      as [st' [H1 [H2 [H3 _]]]]. eauto.
Qed.

Lemma caught_lines_pass_through_witness :
  exists st',
    step 0 5 (lit "= A  long   title") [] init = Some (st', 0%nat)
    /\ out st' = out init ++ [lit "= A  long   title"] /\ para st' = [].
Proof.
  apply (proj2 caught_lines_pass_through 0%nat 5%Z (lit "= A  long   title") []
           init); reflexivity.
Defined.

Lemma fence_run (fuel : nat) (W : Z) (ls tl : list str) :
  forall st,
    inFence st || inOpen st = true -> para st = [] ->
    Forall (fun l => BLANK_RE l = false /\ FENCE_RE (trim l) = false
                     /\ OPEN_BLOCK_RE (trim l) = false) ls ->
    exists st',
      scan fuel W st 0 (ls ++ tl) = scan fuel W st' 0 tl
      /\ out st' = out st ++ ls /\ para st' = []
      /\ inFence st' || inOpen st' = true.
Proof.
  induction ls as [| l ls IH]; intros st Hf Hp Hls.
  - exists st. rewrite app_nil_r. auto.
  - inversion Hls as [| ? ? [Hb [H1 H2]] Hls']; subst.
    assert (Hc : caught_earlier l st = true).
    { unfold caught_earlier. apply orb_true_iff. right.
      apply orb_true_iff in Hf. destruct Hf as [-> | ->];
        [reflexivity | now rewrite orb_true_r]. }
    destruct (step_caught_now fuel W l (ls ++ tl) st Hc Hb Hp)
      as [st1 [E [Eo [Hp1 Hfl]]]].
    destruct (Hfl H1 H2) as [Ef Eop].
    destruct (IH st1) as [st' [Es [Eo' [Hp' Hf']]]]; auto.
    { now rewrite Ef, Eop. }
    exists st'. cbn [app scan]. rewrite E. cbn [fst snd].
    split; [exact Es |]. rewrite Eo', Eo, <- app_assoc. auto.
Qed.

(** X12 -- a fenced block without blank lines is a fixed point.  A document
    that is a [----] line, lines that are not blank and are no fence or
    open-block delimiter, and a [----] line, is returned as it is, at every
    width and with any fuel. *)
Theorem fence_document (fuel : nat) (W : Z) (body : list str) :
  Forall (fun l => BLANK_RE l = false /\ FENCE_RE (trim l) = false
                   /\ OPEN_BLOCK_RE (trim l) = false) body ->
  Forall (fun l => no_newline l = true
                   /\ forallb (fun c => negb (c =? CR)) l = true) body ->
  reflowTextAdoc fuel (join [NL] (lit "----" :: body ++ [lit "----"])) W
  = Some (join [NL] (lit "----" :: body ++ [lit "----"])).
Proof.
  intros Hbody Hchars.
  assert (Hnl : Forall (fun l => no_newline l = true)
                  (lit "----" :: body ++ [lit "----"])).
  { constructor; [reflexivity |]. apply Forall_app. split.
    - eapply Forall_impl; [| exact Hchars]. now intros l [? _].
    - now constructor. }
  assert (Hcr : Forall (fun l => forallb (fun c => negb (c =? CR)) l = true)
                  (lit "----" :: body ++ [lit "----"])).
  { constructor; [reflexivity |]. apply Forall_app. split.
    - eapply Forall_impl; [| exact Hchars]. now intros l [_ ?].
    - now constructor. }
  assert (Hend : ends_with_newline
                   (join [NL] (lit "----" :: body ++ [lit "----"])) = false)
    by (apply (ends_with_newline_lines (lit "----" :: body) (lit "----"));
        [discriminate | reflexivity]).
  unfold reflowTextAdoc.
  rewrite Hend, (split_lines_join (lit "----" :: body ++ [lit "----"])); auto;
    [| discriminate].
  cbn [scan].
  assert (Hopen : forall rest,
             step fuel W (lit "----") rest init
             = Some (set_inFence true (emit (lit "----") init), 0%nat))
    by reflexivity.
  rewrite Hopen. cbn [fst snd].
  destruct (fence_run fuel W body [lit "----"]
              (set_inFence true (emit (lit "----") init)))
    as [st1 [Es [Eo [Hp Hf]]]]; auto.
  rewrite Es. cbn [scan].
  assert (Hc : caught_earlier (lit "----") st1 = true).
  { unfold caught_earlier. apply orb_true_iff. right.
    apply orb_true_iff in Hf. destruct Hf as [-> | ->];
      [reflexivity | now rewrite orb_true_r]. }
  destruct (step_caught_now fuel W (lit "----") [] st1 Hc eq_refl Hp)
    as [st2 [E [Eo2 [Hp2 _]]]].
  rewrite E. cbn [fst snd]. rewrite (flush_empty fuel W st2 Hp2).
  rewrite Eo2, Eo. cbn [out emit set_inFence set_out init push app].
  now rewrite app_nil_r.
Qed.

Lemma fence_document_witness :
  reflowTextAdoc 0
    (join [NL] (lit "----" :: [lit "x   y   z"; lit " * w"; lit "////"]
                ++ [lit "----"])) 5
  = Some (join [NL] (lit "----" :: [lit "x   y   z"; lit " * w"; lit "////"]
                     ++ [lit "----"])).
Proof.
  apply (fence_document 0 5 [lit "x   y   z"; lit " * w"; lit "////"]);
    repeat constructor.
Defined.

(** ** The editor glue *)

Lemma getWrapColumn_range (col : Z) : (20 <= getWrapColumn col <= 200)%Z.
Proof. unfold getWrapColumn. lia. Qed.

(** X14 -- the wrap column.  Whatever number is configured, the width the
    extension passes to the core lies between 20 and 200, a configured
    width in that range is passed as it is, and at the width passed
    [reflowTextAdoc] terminates on every input. *)
Theorem wrap_column_clamped (col : Z) (input : str) :
  (20 <= getWrapColumn col <= 200)%Z
  /\ ((20 <= col <= 200)%Z -> getWrapColumn col = col)
  /\ exists n o, forall fuel, (n <= fuel)%nat ->
       reflowTextAdoc fuel input (getWrapColumn col) = Some o.
Proof.
  pose proof (getWrapColumn_range col) as Hr.
  split; [exact Hr |]. split; [unfold getWrapColumn; lia |].
  assert (HW : (1 <= getWrapColumn col)%Z) by lia.
  change (terminates (fun fuel =>
                        reflowTextAdoc fuel input (getWrapColumn col))).
  unfold reflowTextAdoc.
  apply terminates_bind; [now apply scan_terminates |].
  intros st. apply terminates_bind; [now apply flush_terminates |].
  intros st1. apply terminates_ret.
Qed.

Lemma paraStart_spec (doc : list str) (s : nat) :
  (paraStart doc s <= s)%nat
  /\ (forall i, (paraStart doc s <= i < s)%nat ->
                BLANK_RE (lineAt doc i) = false)
  /\ ((0 < paraStart doc s)%nat ->
      BLANK_RE (lineAt doc (paraStart doc s - 1)) = true).
Proof.
  induction s as [| s IH]; cbn [paraStart].
  - repeat split; intros; lia.
  - destruct (BLANK_RE (lineAt doc s)) eqn:E.
    + split; [lia |]. split; [intros; lia |].
      intros _. now rewrite Nat.sub_succ, Nat.sub_0_r.
    + destruct IH as [H1 [H2 H3]]. split; [lia |]. split; [| exact H3].
      intros i Hi. destruct (Nat.eq_dec i s) as [-> | Hn]; [exact E |].
      apply H2. lia.
Qed.

Lemma paraEnd_spec (doc : list str) (gap : nat) :
  forall e,
    (e <= paraEnd doc gap e <= e + gap)%nat
    /\ (forall i, (e < i <= paraEnd doc gap e)%nat ->
                  BLANK_RE (lineAt doc i) = false)
    /\ ((paraEnd doc gap e < e + gap)%nat ->
        BLANK_RE (lineAt doc (paraEnd doc gap e + 1)) = true).
Proof.
  induction gap as [| gap IH]; intros e; cbn [paraEnd].
  - repeat split; intros; lia.
  - destruct (BLANK_RE (lineAt doc (S e))) eqn:E.
    + split; [lia |]. split; [intros; lia |].
      intros _. now rewrite Nat.add_1_r.
    + destruct (IH (S e)) as [H1 [H2 H3]]. split; [lia |]. split.
      * intros i Hi. destruct (Nat.eq_dec i (S e)) as [-> | Hn]; [exact E |].
        apply H2. lia.
      * intros Hlt. apply H3. lia.
Qed.

(** X15 -- the paragraph at the cursor.  In a document with at least one
    line, the range [paragraphRangeAt] returns starts at column 0 of its
    first line and ends at the end of its last line, holds the cursor's
    line (brought into the document when it is outside), every other line
    in it is not blank, and it cannot be extended: the line before it and
    the line after it are blank, or the document starts or ends there. *)
Theorem paragraphRangeAt_spec (doc : list str) (line : Z) :
  doc <> [] ->
  let r := paragraphRangeAt doc line in
  let l := Z.to_nat (Z.max 0 (Z.min line (Z.of_nat (length doc - 1)))) in
  (startLine r <= l <= endLine r)%nat /\ (endLine r < length doc)%nat
  /\ startChar r = 0%nat /\ endChar r = length (lineAt doc (endLine r))
  /\ (forall i, (startLine r <= i <= endLine r)%nat -> i <> l ->
                BLANK_RE (lineAt doc i) = false)
  /\ ((0 < startLine r)%nat ->
      BLANK_RE (lineAt doc (startLine r - 1)) = true)
  /\ ((endLine r + 1 < length doc)%nat ->
      BLANK_RE (lineAt doc (endLine r + 1)) = true).
Proof.
  intros Hdoc. unfold paragraphRangeAt. cbv zeta.
  cbn [startLine startChar endLine endChar].
  set (last := (length doc - 1)%nat).
  set (l := Z.to_nat (Z.max 0 (Z.min line (Z.of_nat last)))).
  assert (Hlen : (0 < length doc)%nat)
    by (destruct doc; [congruence | cbn [length]; lia]).
  assert (Hl : (l <= last)%nat) by (unfold l; lia).
  destruct (paraStart_spec doc l) as [S1 [S2 S3]].
  destruct (paraEnd_spec doc (last - l) l) as [E1 [E2 E3]].
  split; [lia |]. split; [unfold last in *; lia |].
  split; [reflexivity |]. split; [reflexivity |]. split; [| split].
  - intros i Hi Hne. destruct (Nat.lt_ge_cases i l) as [Hlt | Hge].
    + apply S2. lia.
    + apply E2. lia.
  - exact S3.
  - intros Hlt. apply E3. unfold last in *. lia.
Qed.

Lemma paragraphRangeAt_spec_witness :
  [lit "a"; []; lit "b"; lit "c"; lit " "; lit "d"] <> []
  /\ paragraphRangeAt [lit "a"; []; lit "b"; lit "c"; lit " "; lit "d"] 2
     = mkRange 2 0 3 1
  /\ (2 <= 2 <= 3)%nat /\ (3 < 6)%nat.
Proof.
  assert (H : [lit "a"; []; lit "b"; lit "c"; lit " "; lit "d"] <> [])
    by discriminate.
  split; [exact H |]. split; [reflexivity |].
  destruct (paragraphRangeAt_spec
              [lit "a"; []; lit "b"; lit "c"; lit " "; lit "d"] 2 H)
    as [H1 [H2 _]].
  split; [exact H1 | exact H2].
Defined.

(** ** The end of the output, exactly *)






Lemma ends_with_newline_snoc (a : str) (c : char) :
  ends_with_newline (a ++ [c]) = (c =? NL).
Proof. unfold ends_with_newline. now rewrite rev_app_distr. Qed.


(** The last line of the split is empty exactly when the text is empty or
    ends with a newline. *)
Lemma ends_with_newline_cons (c : char) (s : str) :
  ends_with_newline (c :: s)
  = match s with [] => c =? NL | _ :: _ => ends_with_newline s end.
Proof.
  destruct s as [| d s]; [reflexivity |].
  destruct (exists_last (l := d :: s)) as [a [z E]]; [discriminate |].
  rewrite E. change (c :: a ++ [z]) with ((c :: a) ++ [z]).
  now rewrite !ends_with_newline_snoc.
Qed.

Lemma split_lines_single_empty (s : str) : split_lines s = [[]] -> s = [].
Proof.
  destruct s as [| c s]; [reflexivity |]. cbn [split_lines].
  pose proof (split_lines_cons s) as Hs.
  destruct (c =? NL).
  { intros E. inversion E. congruence. }
  destruct ((c =? CR) && _) eqn:Ecr.
  { apply andb_true_iff in Ecr. destruct Ecr as [_ Enl].
    destruct s as [| d s]; [discriminate |]. cbn [split_lines].
    rewrite Enl. pose proof (split_lines_cons s).
    intros E. inversion E. congruence. }
  destruct (split_lines s); intros E; inversion E.
Qed.

Lemma last_split_lines (s : str) :
  last (split_lines s) [] = []
  <-> s = [] \/ ends_with_newline s = true.
Proof.
  induction s as [| c s IH].
  - split; auto.
  - rewrite ends_with_newline_cons. cbn [split_lines].
    pose proof (split_lines_cons s) as Hs.
    destruct (c =? NL) eqn:En.
    + destruct (split_lines s) as [| h t] eqn:Es; [congruence |].
      change (last ([] :: h :: t) []) with (last (h :: t) []).
      rewrite IH. destruct s as [| d s].
      * split; auto.
      * split; [intros [? | ?]; [discriminate | auto] | intros [? | ?]; auto;
                discriminate].
    + destruct ((c =? CR) && _) eqn:Ecr.
      * apply andb_true_iff in Ecr. destruct Ecr as [_ Enl].
        destruct s as [| d s]; [discriminate |].
        rewrite IH.
        split; [intros [? | ?]; [discriminate | auto] | intros [? | ?]; auto;
                discriminate].
      * destruct (split_lines s) as [| h t] eqn:Es; [congruence |].
        destruct t as [| h2 t].
        -- cbn [last]. destruct s as [| d s].
           ++ split; [discriminate | intros [? | ?]; discriminate].
           ++ split; [discriminate |]. intros [? | He]; [discriminate |].
              assert (Hh : h = []) by (apply IH; auto).
              subst h. apply split_lines_single_empty in Es. discriminate.
        -- change (last ((c :: h) :: h2 :: t) []) with (last (h :: h2 :: t) []).
           rewrite IH. destruct s as [| d s]; [discriminate |].
           split; [intros [? | ?]; [discriminate | auto] | intros [? | ?]; auto;
                   discriminate].
Qed.




Example blank_last_line_in_comment_block :
  reflowTextAdoc 0 (text ["////"; " "]%string) 20
  = Some (text ["////"; " "]%string).
Proof. vm_compute. reflexivity. Qed.

(** ** Blank lines, exactly *)

Lemma step_blank (fuel : nat) (W : Z) (line : str) (rest : list str)
  (st st' : state) (k : nat) :
  forallb is_space line = true ->
  inCommentBlock st = false -> inTable st = false ->
  step fuel W line rest st = Some (st', k) ->
  k = 0%nat
  /\ exists ls,
       (para st = [] -> ls = [])
       /\ (para st <> [] -> reflowParagraph fuel (para st) W = Some ls)
       /\ st' = mkState (out st ++ ls
                         ++ (if nonempty rest || nonempty line
                             then [[]] else []))
                        [] (inFence st) (inOpen st) false false false.
Proof.
  intros Hs Hc Ht H. rewrite (step_all_space fuel W line rest st Hs Hc Ht) in H.
  destruct (flush fuel W _) as [st1 |] eqn:Ef; [| discriminate].
  inversion H; subst; clear H. split; [reflexivity |].
  flush_inv. exists ls.
  assert (Hpara : para (if inLiteralPara st
                        then set_inLiteralPara false st else st) = para st)
    by (destruct (inLiteralPara st); reflexivity).
  rewrite Hpara in *. split; [exact Hnil | split; [exact Hrun |]].
  destruct (inLiteralPara st) eqn:El, rest as [| r0 rest],
    line as [| c line];
    unfold emit, set_out, push, set_inLiteralPara;
    cbn [nonempty negb andb orb out para inFence inOpen
         inTable inCommentBlock inLiteralPara];
    rewrite ?Hc, ?Ht, ?El, ?app_nil_r, <- ?app_assoc; reflexivity.
Qed.

Lemma step_blank_now (fuel : nat) (W : Z) (line : str) (rest : list str)
  (st : state) :
  forallb is_space line = true ->
  inCommentBlock st = false -> inTable st = false -> para st = [] ->
  step fuel W line rest st
  = Some (mkState (out st ++ (if nonempty rest || nonempty line
                              then [[]] else []))
                  [] (inFence st) (inOpen st) false false false, 0%nat).
Proof.
  intros Hs Hc Ht Hp. rewrite (step_all_space fuel W line rest st Hs Hc Ht).
  rewrite flush_empty by (destruct (inLiteralPara st); exact Hp).
  destruct st as [o p f op t c l]. cbn in Hc, Ht, Hp. subst.
  destruct l, rest as [| r0 rest], line as [| c line];
    unfold emit, set_out, push, set_inLiteralPara;
    cbn [nonempty negb andb orb out para inFence inOpen
         inTable inCommentBlock inLiteralPara];
    rewrite ?app_nil_r; reflexivity.
Qed.

Lemma scan_blank_lines (fuel : nat) (W : Z) (ls : list str) :
  forall st,
    ls <> [] -> Forall (fun l => forallb is_space l = true) ls ->
    inCommentBlock st = false -> inTable st = false -> para st = [] ->
    exists st',
      scan fuel W st 0 ls = Some st'
      /\ out st' = out st
                   ++ repeat [] (length ls
                                 - (if nonempty (last ls []) then 0 else 1))
      /\ para st' = [].
Proof.
  induction ls as [| l ls IH]; intros st Hne Hls Hc Ht Hp; [congruence |].
  inversion Hls as [| ? ? Hl Hls']; subst. cbn [scan].
  rewrite (step_blank_now fuel W l ls st Hl Hc Ht Hp). cbn [fst snd].
  destruct ls as [| l2 ls].
  - cbn [scan nonempty orb last length]. eexists. split; [reflexivity |].
    cbn [out para]. split; [| reflexivity].
    destruct l; reflexivity.
  - destruct (IH (mkState (out st ++ [[]]) [] (inFence st) (inOpen st)
                    false false false))
      as [st' [Es [Eo Ep]]]; auto; [discriminate |].
    exists st'. cbn [nonempty orb]. split; [exact Es |]. split; [| exact Ep].
    rewrite Eo. cbn [out]. rewrite <- app_assoc. f_equal.
    change (last (l :: l2 :: ls) []) with (last (l2 :: ls) []).
    cbn [length].
    destruct (nonempty (last (l2 :: ls) [])); cbn [app Nat.sub];
      rewrite ?Nat.sub_0_r; reflexivity.
Qed.

Lemma split_lines_all_space (s : str) :
  forallb is_space s = true ->
  Forall (fun l => forallb is_space l = true) (split_lines s).
Proof.
  induction s as [| c s IH]; [repeat constructor |].
  cbn [forallb split_lines]. intros H. apply andb_true_iff in H.
  destruct H as [Hc Hs]. specialize (IH Hs).
  destruct (c =? NL); [constructor; auto |].
  destruct ((c =? CR) && _); [exact IH |].
  destruct (split_lines s) as [| h t]; [repeat constructor; cbn; now rewrite Hc |].
  inversion IH; subst. constructor; auto. cbn [forallb]. now rewrite Hc.
Qed.

Lemma newlines_split_lines (s : str) :
  filter (fun c => c =? NL) s = repeat NL (length (split_lines s) - 1).
Proof.
  induction s as [| c s IH]; [reflexivity |].
  cbn [filter split_lines]. pose proof (split_lines_cons s) as Hs.
  destruct (c =? NL) eqn:En.
  - apply N.eqb_eq in En. subst c. rewrite IH.
    destruct (split_lines s) as [| h t]; [congruence |].
    cbn [length]. rewrite !Nat.sub_succ, !Nat.sub_0_r. reflexivity.
  - destruct ((c =? CR) && _); [exact IH |].
    rewrite IH. destruct (split_lines s) as [| h t]; [congruence |].
    reflexivity.
Qed.

Lemma join_repeat_nil (n : nat) :
  join [NL] (repeat [] n) = repeat NL (n - 1).
Proof.
  induction n as [| n IH]; [reflexivity |].
  destruct n as [| n]; [reflexivity |].
  change (repeat [] (S (S n))) with ([] :: [] :: repeat ([] : str) n).
  rewrite join_cons. change ([] :: repeat [] n) with (repeat ([] : str) (S n)).
  rewrite IH. cbn [app]. rewrite !Nat.sub_succ, !Nat.sub_0_r.
  destruct n; reflexivity.
Qed.

Lemma reflowTextAdoc_all_space (fuel : nat) (W : Z) (s : str) :
  forallb is_space s = true ->
  reflowTextAdoc fuel s W = Some (filter (fun c => c =? NL) s).
Proof.
  intros Hs. unfold reflowTextAdoc.
  destruct (scan_blank_lines fuel W (split_lines s) init
              (split_lines_cons s) (split_lines_all_space s Hs)
              eq_refl eq_refl eq_refl) as [st [Es [Eo Ep]]].
  rewrite Es, (flush_empty fuel W st Ep), Eo.
  cbn [out init app]. rewrite join_repeat_nil, newlines_split_lines.
  f_equal. pose proof (last_split_lines s) as Hlast.
  destruct (last (split_lines s) []) as [| c l] eqn:El; cbn [nonempty].
  - destruct (proj1 Hlast eq_refl) as [-> | He]; [reflexivity |].
    rewrite He.
    assert (Hlen : (2 <= length (split_lines s))%nat).
    { destruct s as [| c s]; [discriminate |].
      destruct (length (split_lines (c :: s))) as [| [| n]] eqn:En; try lia.
      - pose proof (split_lines_cons (c :: s)).
        destruct (split_lines (c :: s)); [congruence | discriminate].
      - destruct (split_lines (c :: s)) as [| h [| h2 t]] eqn:E;
          try discriminate.
        cbn [last] in El. subst h.
        apply split_lines_single_empty in E. discriminate. }
    destruct (length (split_lines s)) as [| [| n]]; try lia.
    cbn [Nat.sub]. rewrite !Nat.sub_0_r.
    change [NL] with (repeat NL 1). rewrite <- repeat_app.
    f_equal. lia.
  - assert (He : ends_with_newline s = false).
    { destruct (ends_with_newline s) eqn:E; [| reflexivity].
      assert (H0 : c :: l = []) by (apply Hlast; auto).
      discriminate. }
    rewrite He, app_nil_r, Nat.sub_0_r. reflexivity.
Qed.

(** C10, amended -- blank-line normalization.  A line that is only white
    space and is met outside a comment block and outside a table takes the
    blank-line branch: the buffered paragraph is flushed, a literal
    paragraph ends, and one empty element is appended to the output in
    place of the line -- none when the line is the empty string and the
    last element of the split.  With nothing buffered this needs no fuel.
    So a document of white space only reflows to its newlines and nothing
    else: the empty document and a single line of white space with no
    terminator reflow to the empty string, and a single line of white space
    with its terminator reflows to a newline. *)
Theorem blank_line_normalization :
  (forall fuel W line rest st,
      forallb is_space line = true ->
      inCommentBlock st = false -> inTable st = false -> para st = [] ->
      step fuel W line rest st
      = Some (mkState (out st ++ (if nonempty rest || nonempty line
                                  then [[]] else []))
                      [] (inFence st) (inOpen st) false false false, 0%nat))
  /\ (forall fuel W line rest st st' k,
         forallb is_space line = true ->
         inCommentBlock st = false -> inTable st = false ->
         step fuel W line rest st = Some (st', k) ->
         k = 0%nat
         /\ exists ls,
              (para st = [] -> ls = [])
              /\ (para st <> [] ->
                  reflowParagraph fuel (para st) W = Some ls)
              /\ st' = mkState (out st ++ ls
                                ++ (if nonempty rest || nonempty line
                                    then [[]] else []))
                               [] (inFence st) (inOpen st) false false false)
  /\ (forall fuel W s,
         forallb is_space s = true ->
         reflowTextAdoc fuel s W = Some (filter (fun c => c =? NL) s))
  /\ (forall fuel W, reflowTextAdoc fuel [] W = Some [])
  /\ (forall fuel W s,
         forallb is_space s = true -> no_newline s = true ->
         reflowTextAdoc fuel s W = Some [])
  /\ (forall fuel W s,
         forallb is_space s = true -> no_newline s = true ->
         reflowTextAdoc fuel (s ++ [NL]) W = Some [NL]).
Proof.
  assert (Hnone : forall s, no_newline s = true ->
                            filter (fun c => c =? NL) s = []).
  { induction s as [| c s IH]; [reflexivity |].
    cbn [no_newline forallb filter]. intros H.
    apply andb_true_iff in H. destruct H as [Hc Hs].
    apply negb_true_iff in Hc. rewrite Hc. now apply IH. }
  split; [exact step_blank_now | split; [exact step_blank |]].
  split; [exact reflowTextAdoc_all_space |].
  split; [| split].
  - intros fuel W. now rewrite reflowTextAdoc_all_space.
  - intros fuel W s Hs Hn.
    now rewrite (reflowTextAdoc_all_space fuel W s Hs), (Hnone s Hn).
  - intros fuel W s Hs Hn.
    rewrite reflowTextAdoc_all_space
      by (rewrite forallb_app, Hs; reflexivity).
    rewrite filter_app, (Hnone s Hn). reflexivity.
Qed.

Lemma blank_line_normalization_witness :
  forallb is_space (lit "   ") = true /\ no_newline (lit "   ") = true
  /\ reflowTextAdoc 0 (lit "   ") 72 = Some [].
Proof.
  split; [reflexivity | split; [reflexivity |]].
  apply (proj1 (proj2 (proj2 (proj2 (proj2 blank_line_normalization)))));
    reflexivity.
Defined.

Lemma blank_line_with_terminator :
  forallb is_space (lit "   ") = true
  /\ split_lines (lit "   " ++ [NL]) = [lit "   "; []]
  /\ reflowTextAdoc 0 (lit "   " ++ [NL]) 72 = Some [NL]
  /\ [NL] <> ([] : list N).
Proof. repeat split; try reflexivity. discriminate. Qed.

(** ** Block modes, exactly *)

Lemma step_next_modes (fuel : nat) (W : Z) (line : str) (rest : list str)
  (st st' : state) (k : nat) :
  step fuel W line rest st = Some (st', k) ->
  modes st' =
    let t := trim line in
    if COMMENT_BLOCK_FENCE_RE t
    then (inFence st, inOpen st, inTable st, negb (inCommentBlock st))
    else if inCommentBlock st || LINE_COMMENT_RE line
            || structural_line line t
    then modes st
    else if TABLE_FENCE_RE t
    then (inFence st, inOpen st, negb (inTable st), inCommentBlock st)
    else if inTable st then modes st
    else if FENCE_RE t
    then (negb (inFence st), inOpen st, inTable st, inCommentBlock st)
    else if OPEN_BLOCK_RE t
    then (inFence st, negb (inOpen st), inTable st, inCommentBlock st)
    else modes st.
Proof.
  intros H. cbv zeta. unfold step, flush_emit in H.
  destruct (COMMENT_BLOCK_FENCE_RE (trim line)) eqn:E1.
  { step_split H; repeat flush_inv. reflexivity. }
  destruct (inCommentBlock st) eqn:E2.
  { step_split H. cbn [orb]. unfold modes; simpl. now rewrite E2. }
  destruct (LINE_COMMENT_RE line) eqn:E3.
  { step_split H; repeat flush_inv. cbn [orb].
    unfold modes; simpl. now rewrite E2. }
  destruct (structural_line line (trim line)) eqn:E4.
  { step_split H; repeat flush_inv. cbn [orb].
    unfold modes; simpl. now rewrite E2. }
  cbn [orb].
  destruct (TABLE_FENCE_RE (trim line)) eqn:E5.
  { step_split H; repeat flush_inv. unfold modes; simpl. now rewrite E2. }
  destruct (inTable st) eqn:E6.
  { step_split H. unfold modes; simpl. now rewrite E2, E6. }
  destruct (FENCE_RE (trim line)) eqn:E7.
  { step_split H; repeat flush_inv. unfold modes; simpl. now rewrite E2, E6. }
  destruct (OPEN_BLOCK_RE (trim line)) eqn:E8.
  { step_split H; repeat flush_inv. unfold modes; simpl. now rewrite E2, E6. }
  step_split H; repeat flush_inv; unfold modes; simpl;
    now rewrite ?E2, ?E6.
Qed.

Lemma is_delimiter_caught (line : str) (st : state) :
  is_delimiter line = true ->
  caught_earlier line st = true /\ BLANK_RE line = false.
Proof.
  unfold is_delimiter, caught_earlier. cbv zeta. intros H. split.
  - destruct (COMMENT_BLOCK_FENCE_RE (trim line)); [reflexivity |].
    destruct (TABLE_FENCE_RE (trim line)); [now rewrite !orb_true_r |].
    destruct (FENCE_RE (trim line)); [now rewrite !orb_true_r |].
    destruct (OPEN_BLOCK_RE (trim line)); [now rewrite !orb_true_r |].
    discriminate H.
  - destruct (BLANK_RE line) eqn:Hb; [| reflexivity].
    rewrite BLANK_RE_spec in Hb. rewrite (trim_all_space line Hb) in H.
    discriminate H.
Qed.

Lemma step_delimiter_now (fuel : nat) (W : Z) (line : str) (rest : list str)
  (st : state) :
  is_delimiter line = true -> para st = [] ->
  exists st',
    step fuel W line rest st = Some (st', 0%nat)
    /\ out st' = out st ++ [line] /\ para st' = [].
Proof.
  intros Hd Hp. destruct (is_delimiter_caught line st Hd) as [Hc Hb].
  destruct (step_caught_now fuel W line rest st Hc Hb Hp)
    as [st' [E [Eo [Ep _]]]].
  eauto.
Qed.

(** C5, amended -- the four block flags are independent, and more than
    one can be active.  The flags after a line are fixed by the line and
    the flags before it, through the tests in the order of the code: a
    comment fence toggles the comment flag, whatever else is active;
    otherwise nothing changes inside a comment block, on a line comment and
    on a structural line (a block title, which a line of dots is, an
    attribute list, anchor, conditional, include, block macro, rule or page
    break); otherwise a table fence toggles the table flag, also inside a
    fence or an open block; otherwise nothing changes inside a table;
    otherwise a fence line toggles the fence flag, and an open-block line
    the open-block flag; any other line changes no flag.  Inside a comment
    block every line but a comment fence is emitted as it is; inside a
    table every line but a comment or table fence is; and a delimiter line
    met with nothing buffered is emitted alone, with any fuel. *)
Theorem block_modes_independent :
  (forall fuel W line rest st,
      inCommentBlock st = true ->
      COMMENT_BLOCK_FENCE_RE (trim line) = false ->
      step fuel W line rest st = Some (emit line st, 0%nat))
  /\ (forall fuel W line rest st st' k,
         inCommentBlock st = false -> inTable st = true ->
         COMMENT_BLOCK_FENCE_RE (trim line) = false ->
         TABLE_FENCE_RE (trim line) = false ->
         step fuel W line rest st = Some (st', k) ->
         modes st' = modes st /\ k = 0%nat
         /\ exists ls, out st' = out st ++ ls ++ [line])
  /\ (forall fuel W line rest st st' k,
         step fuel W line rest st = Some (st', k) ->
         modes st' =
           let t := trim line in
           if COMMENT_BLOCK_FENCE_RE t
           then (inFence st, inOpen st, inTable st, negb (inCommentBlock st))
           else if inCommentBlock st || LINE_COMMENT_RE line
                   || structural_line line t
           then modes st
           else if TABLE_FENCE_RE t
           then (inFence st, inOpen st, negb (inTable st), inCommentBlock st)
           else if inTable st then modes st
           else if FENCE_RE t
           then (negb (inFence st), inOpen st, inTable st, inCommentBlock st)
           else if OPEN_BLOCK_RE t
           then (inFence st, negb (inOpen st), inTable st, inCommentBlock st)
           else modes st)
  /\ (forall fuel W line rest st,
         is_delimiter line = true -> para st = [] ->
         exists st',
           step fuel W line rest st = Some (st', 0%nat)
           /\ out st' = out st ++ [line] /\ para st' = []).
Proof.
  split; [exact step_in_comment | split; [exact step_in_table |]].
  split; [exact step_next_modes | exact step_delimiter_now].
Qed.

Lemma block_modes_independent_witness :
  let st := set_inCommentBlock true init in
  inCommentBlock st = true
  /\ COMMENT_BLOCK_FENCE_RE (trim (lit "----")) = false
  /\ step 0 72 (lit "----") [] st = Some (emit (lit "----") st, 0%nat).
Proof.
  split; [reflexivity | split; [reflexivity |]].
  apply (proj1 block_modes_independent); reflexivity.
Defined.

Example dotted_line_toggles_nothing :
  FENCE_RE (trim (lit "....")) = true
  /\ exists st,
       step 0 72 (lit "....") [] init = Some (st, 0%nat)
       /\ modes st = modes init.
Proof. split; [reflexivity |]. eexists. split; reflexivity. Qed.

(** ** Word preservation, both ways *)

Lemma flat_map_words_tokens (ts : list str) :
  Forall (fun t => is_token t = true) ts -> flat_map words ts = ts.
Proof.
  induction 1 as [| t ts Ht _ IH]; [reflexivity |].
  cbn [flat_map]. now rewrite (words_token t Ht), IH.
Qed.

Lemma wrapWord_bound (fuel : nat) (W : Z) (lines : list str) (line w : str)
  (r : list str * str) :
  (1 <= W)%Z -> is_token w = true ->
  Forall (fun t => URL_TOKEN_RE t = true \/ (len t <= W)%Z)
    (flat_map words lines ++ words line) ->
  wrapWord fuel W lines line w = Some r ->
  Forall (fun t => URL_TOKEN_RE t = true \/ (len t <= W)%Z)
    (flat_map words (fst r) ++ words (snd r)).
Proof.
  intros HW Hw Hold H.
  destruct (negb (URL_TOKEN_RE w) && (len w >=? W)%Z) eqn:Hhard.
  - unfold wrapWord in H. rewrite Hhard in H.
    assert (Hold0 : Forall (fun t => URL_TOKEN_RE t = true \/ (len t <= W)%Z)
                      (flat_map words
                         (if nonempty line then push lines line else lines))).
    { destruct line as [| c line]; cbn [nonempty].
      - rewrite words_nil, app_nil_r in Hold. exact Hold.
      - unfold push. rewrite flat_map_app. cbn [flat_map].
        now rewrite app_nil_r. }
    destruct (hardSplit_chunks_gen W fuel HW _ _ _ H)
      as [chunks [E1 [E2 [Hall [Hlen Hne]]]]].
    pose proof Hw as Hw0. unfold is_token in Hw0.
    apply andb_true_iff in Hw0. destruct Hw0 as [Hw1 Hw2].
    rewrite <- E2 in Hw2. destruct (token_pieces _ _ Hw2) as [Hc Hr].
    assert (Hchunks : Forall (fun t => is_token t = true) chunks).
    { clear E1 E2 Hw2. induction chunks as [| c chunks IH]; [constructor |].
      inversion Hall as [| ? ? Hl Hall']; subst.
      inversion Hc as [| ? ? Hcc Hc']; subst.
      constructor; auto. unfold is_token. rewrite Hcc.
      destruct c; [unfold len in *; simpl in *; lia | reflexivity]. }
    assert (Hrem : is_token (snd r) = true).
    { unfold is_token. rewrite Hr. destruct (snd r) eqn:Er; [| reflexivity].
      exfalso. apply Hne; auto. intros ->. discriminate. }
    rewrite E1, flat_map_app, (flat_map_words_tokens chunks Hchunks),
      (words_token _ Hrem).
    apply Forall_app. split; [apply Forall_app; split |].
    + exact Hold0.
    + eapply Forall_impl; [| exact Hall].
      intros c Hcl. cbv beta in Hcl. right. rewrite Hcl. lia.
    + constructor; [right; exact Hlen | constructor].
  - assert (Hfit : URL_TOKEN_RE w = true \/ (len w <= W)%Z).
    { apply andb_false_iff in Hhard. destruct Hhard as [Hu | Hl].
      - left. now apply negb_false_iff in Hu.
      - right. rewrite Z.geb_leb in Hl. apply Z.leb_gt in Hl. lia. }
    destruct (wrapWord_tokens fuel W lines line w Hw Hfit) as [r' [E1 E2]].
    rewrite E1 in H. inversion H; subst r'. rewrite E2.
    apply Forall_app. split; [exact Hold | constructor; auto].
Qed.

Lemma wrapWords_bound (fuel : nat) (W : Z) (toks : list str) :
  (1 <= W)%Z -> Forall (fun w => is_token w = true) toks ->
  forall lines line r,
    Forall (fun t => URL_TOKEN_RE t = true \/ (len t <= W)%Z)
      (flat_map words lines ++ words line) ->
    wrapWords fuel W toks lines line = Some r ->
    Forall (fun t => URL_TOKEN_RE t = true \/ (len t <= W)%Z)
      (flat_map words (fst r) ++ words (snd r)).
Proof.
  intros HW. induction toks as [| w toks IH];
    intros Htoks lines line r Hold H; cbn [wrapWords] in H.
  - inversion H; subst. exact Hold.
  - inversion Htoks as [| ? ? Hw Htoks']; subst.
    destruct (wrapWord fuel W lines line w) as [[lines1 line1] |] eqn:E;
      [| discriminate].
    cbn [fst snd] in H. apply (IH Htoks' lines1 line1 r); auto.
    apply (wrapWord_bound fuel W lines line w (lines1, line1)); auto.
Qed.

Lemma wrapText_bound (fuel : nat) (W : Z) (body wrapped : str) :
  (1 <= W)%Z -> wrapText fuel body W [] = Some wrapped ->
  Forall (fun t => URL_TOKEN_RE t = true \/ (len t <= W)%Z) (words wrapped).
Proof.
  intros HW H. unfold wrapText, wrapLines in H.
  destruct (wrapWords fuel W (words body) [] []) as [[lines line] |] eqn:E;
    [| discriminate].
  cbn [fst snd] in H. inversion H; subst; clear H.
  apply (wrapWords_bound fuel W) in E;
    [| exact HW | apply words_are_tokens | constructor].
  cbn [fst snd] in E.
  rewrite hang_nil, (words_join NL _ eq_refl).
  destruct line as [| c line]; cbn [nonempty].
  - now rewrite words_nil, app_nil_r in E.
  - unfold push. rewrite flat_map_app. cbn [flat_map].
    now rewrite app_nil_r.
Qed.

Lemma reflowParagraph_bound (fuel : nat) (W : Z) (lines o : list str) :
  (1 <= W)%Z ->
  LIST_RE (hd [] lines) = false -> DEF_LIST_RE (hd [] lines) = false ->
  existsb HARD_BREAK_RE lines = false ->
  reflowParagraph fuel lines W = Some o ->
  Forall (fun t => URL_TOKEN_RE t = true \/ (len t <= W)%Z) (tokens o).
Proof.
  intros HW HL HD HH H. destruct lines as [| l0 more].
  - inversion H; subst. constructor.
  - cbn [hd] in HL, HD.
    rewrite (reflowParagraph_plain fuel W l0 more HL HD HH) in H.
    cbv zeta in H.
    destruct (negb (nonempty _)).
    + inversion H; subst. constructor.
    + destruct (wrapText fuel _ W []) as [wrapped |] eqn:E; [| discriminate].
      inversion H; subst; clear H. unfold tokens.
      rewrite join_split_char. eapply wrapText_bound; eauto.
Qed.

(** C2, amended -- word preservation, up to the hard split.  For a plain
    paragraph (its first line starts no list or definition-list item, no
    line ends in a hard break) in which every token that is not a URL is
    at most as long as the width, [reflowParagraph] returns with any fuel,
    and the tokens of its output are the tokens of the source in the same
    order.  The paragraph buffer of the scan is such a paragraph whenever
    it holds no hard break and no longer token: flushing it emits lines
    with the tokens of the buffer.  The bound is the exact one: at a width
    of at least 1 every token of a reflowed plain paragraph is a URL or at
    most as long as the width, so a paragraph with a longer token that is
    not a URL never keeps its tokens. *)
Theorem word_preservation :
  (forall fuel W lines,
      LIST_RE (hd [] lines) = false -> DEF_LIST_RE (hd [] lines) = false ->
      existsb HARD_BREAK_RE lines = false ->
      (forall w, In w (tokens lines) ->
                 URL_TOKEN_RE w = true \/ (len w <= W)%Z) ->
      exists o,
        reflowParagraph fuel lines W = Some o /\ tokens o = tokens lines)
  /\ (forall fuel W src st,
         scan fuel W init 0 src = Some st ->
         existsb HARD_BREAK_RE (para st) = false ->
         (forall w, In w (tokens (para st)) ->
                    URL_TOKEN_RE w = true \/ (len w <= W)%Z) ->
         exists o,
           flush fuel W st = Some (set_para [] (emit_all o st))
           /\ tokens o = tokens (para st))
  /\ (forall fuel W lines o,
         (1 <= W)%Z ->
         LIST_RE (hd [] lines) = false -> DEF_LIST_RE (hd [] lines) = false ->
         existsb HARD_BREAK_RE lines = false ->
         reflowParagraph fuel lines W = Some o ->
         Forall (fun t => URL_TOKEN_RE t = true \/ (len t <= W)%Z) (tokens o)
         /\ (tokens o = tokens lines ->
             forall w, In w (tokens lines) ->
                       URL_TOKEN_RE w = true \/ (len w <= W)%Z)).
Proof.
  split; [exact reflowParagraph_tokens | split].
  - intros fuel W src st Hscan HH Hfit.
    assert (Hp : para_prose st).
    { eapply scan_para_prose; [| exact Hscan]. constructor. }
    unfold flush. destruct (para st) as [| l0 more] eqn:E.
    + exists []. split; [| reflexivity].
      rewrite emit_all_nil. destruct st; simpl in *. now subst.
    + unfold para_prose in Hp. rewrite E in Hp.
      inversion Hp as [| ? ? [HL HD] _]; subst.
      destruct (reflowParagraph_tokens fuel W (l0 :: more) HL HD HH Hfit)
        as [o [Eo Ho]].
      exists o. rewrite Eo. auto.
  - intros fuel W lines o HW HL HD HH H.
    pose proof (reflowParagraph_bound fuel W lines o HW HL HD HH H) as Hb.
    split; [exact Hb |].
    intros E w Hw. rewrite E in Hb.
    rewrite Forall_forall in Hb. now apply Hb.
Qed.

Lemma word_preservation_witness :
  exists o,
    reflowParagraph 0 [lit "one  two"; lit " three http://a.b/c"] 5 = Some o
    /\ tokens o = tokens [lit "one  two"; lit " three http://a.b/c"].
Proof.
  apply (proj1 word_preservation); try reflexivity.
  intros w Hw. vm_compute in Hw.
  repeat (destruct Hw as [<- | Hw];
          [vm_compute; first [left; reflexivity | right; discriminate] |]).
  destruct Hw.
Defined.
